(** * mcp-devto-server: content analysis and comment-tree reconstruction

    A shallow embedding of [src/utils/content-analysis.ts] and of
    [DevToAPI.buildCommentTree] ([src/services/devto.ts]).

    Text.  A JavaScript string is a sequence of UTF-16 code units; a text
    is the list of its code units, each a number below 65536.  The
    functions are total on lists of numbers; what they return on a list
    that holds a number from 65536 on is immaterial, since no string has
    such a unit.  The white-space
    class [\s], the line terminators excluded by [.] and the word class
    [\w] are those of ECMAScript; [toLowerCase] is the ECMAScript
    method, with the case data of Unicode 14.0.

    Numbers.  A JavaScript number is a double.  Reaction counts and their
    average are embedded as binary64 values ([spec_float], with the
    operations [SFadd] and [SFdiv] at precision 53).  Identities are
    compared only and are embedded as [Z]; lengths and counts of list
    elements are embedded as [nat]: an array has fewer than 2^32 elements
    and a string fewer than 2^53 code units, so the arithmetic done on
    them is exact.

    Regular expressions.  Every regular expression of the source is fixed;
    each is embedded as the scanner that the ECMAScript matching rules
    (leftmost match, greedy or lazy quantifiers, global iteration resuming
    at the end of the previous match) induce for it. *)

From Stdlib Require Import ZArith NArith Ascii String List Bool Lia Permutation.
From Corelib Require Import SpecFloat.
From stdpp Require Import base option list strings gmap sorting.
Import ListNotations.

Local Open Scope nat_scope.

(** ** Text primitives *)

Definition codeUnit := N.

Abbreviation text := (list codeUnit).

(** The code unit of an ASCII character, and the text of an ASCII
    literal. *)
Definition ch (c : ascii) : codeUnit := N_of_ascii c.

Definition lit (s : string) : text := map ch (list_ascii_of_string s).

(** The class [\s] (WhiteSpace and LineTerminator), also what [trim] strips. *)
Definition isSpace (c : codeUnit) : bool :=
  ((c =? 9) || (c =? 10) || (c =? 11) || (c =? 12) || (c =? 13)
   || (c =? 32) || (c =? 0xA0) || (c =? 0x1680)
   || ((0x2000 <=? c) && (c <=? 0x200A))
   || (c =? 0x2028) || (c =? 0x2029) || (c =? 0x202F) || (c =? 0x205F)
   || (c =? 0x3000) || (c =? 0xFEFF))%N.

(** The code units that [.] does not match. *)
Definition isLineTerminator (c : codeUnit) : bool :=
  ((c =? 10) || (c =? 13) || (c =? 0x2028) || (c =? 0x2029))%N.

Definition notLineTerminator (c : codeUnit) : bool := negb (isLineTerminator c).

(** The class [\w]. *)
Definition isWord (c : codeUnit) : bool :=
  (((48 <=? c) && (c <=? 57)) || ((65 <=? c) && (c <=? 90))
   || ((97 <=? c) && (c <=? 122)) || (c =? 95))%N.

Fixpoint takeWhile (p : codeUnit -> bool) (s : text) : text :=
  match s with
  | [] => []
  | c :: s' => if p c then c :: takeWhile p s' else []
  end.

Fixpoint dropWhile (p : codeUnit -> bool) (s : text) : text :=
  match s with
  | [] => []
  | c :: s' => if p c then dropWhile p s' else s
  end.

(** [s.startsWith(p)]. *)
Fixpoint startsWith (p s : text) : bool :=
  match p, s with
  | [], _ => true
  | _ :: _, [] => false
  | a :: p', b :: s' => N.eqb a b && startsWith p' s'
  end.

(** [s.includes(p)]. *)
Fixpoint includes (s p : text) : bool :=
  startsWith p s
  || match s with
     | [] => false
     | _ :: s' => includes s' p
     end.

(** ** Letter case in regular expressions

    Under the [i] flag, without the [u] flag, a pattern character matches
    a code unit when both have the same image under Canonicalize: the
    upper case mapping of the single code unit, left alone when the
    mapping is longer than one code unit or leads from a unit from 128
    on to one below 128.  Every pattern character of this program is in
    the ASCII range; such a character therefore matches itself and, when
    it is a letter, the ASCII letter of the other case, and nothing
    else.  [lowerASCII] gives the two the same image. *)

Definition lowerASCII (c : codeUnit) : codeUnit :=
  if ((65 <=? c) && (c <=? 90))%N then (c + 32)%N else c.

Definition foldCase (s : text) : text := map lowerASCII s.

(** A literal pattern under the [i] flag, anchored at the head of [s]. *)
Definition startsWithCI (p s : text) : bool :=
  startsWith (foldCase p) (foldCase s).

(** [/p/i.test(s)] for a literal pattern [p]. *)
Definition testCI (p s : text) : bool :=
  includes (foldCase s) (foldCase p).

(** [s.trim()]. *)
Definition trimStart (s : text) : text := dropWhile isSpace s.
Definition trimEnd (s : text) : text := rev (dropWhile isSpace (rev s)).
Definition trim (s : text) : text := trimEnd (trimStart s).

(** The text before the first occurrence of [sep], and the text after it
    when there is one. *)
Fixpoint breakOn (sep s : text) : text * option text :=
  if startsWith sep s then ([], Some (skipn (length sep) s))
  else match s with
       | [] => ([], None)
       | c :: s' => let '(pre, post) := breakOn sep s' in (c :: pre, post)
       end.

(** [s.split(sep)] for a non-empty separator; the fuel bounds the number
    of pieces and [S (length s)] is always enough. *)
Fixpoint splitFuel (fuel : nat) (sep s : text) : list text :=
  match fuel with
  | 0 => [s]
  | S f =>
      match breakOn sep s with
      | (pre, None) => [pre]
      | (pre, Some post) => pre :: splitFuel f sep post
      end
  end.

Definition split (sep s : text) : list text := splitFuel (S (length s)) sep s.

(** [s.replace(pat, '')] for a literal [pat]: the first occurrence goes. *)
Definition removeFirst (pat s : text) : text :=
  match breakOn pat s with
  | (pre, None) => pre
  | (pre, Some post) => pre ++ post
  end.

(** [s.replace(/pat/g, '')] for a literal non-empty [pat]. *)
Definition removeAll (pat s : text) : text := concat (split pat s).

(** ** Unicode case data

    [String.prototype.toLowerCase] follows the locale-insensitive lower
    case mappings of the Unicode Character Database.  The tables are
    those of Unicode 14.0: the simple lower case mapping of every code
    point above the ASCII range that has one, and the code points with
    the properties [Cased] and [Case_Ignorable], which decide the form
    of a final sigma. *)

(** [Simple_Lowercase_Mapping] of the code points from U+0080 on. *)
Definition simpleLowercase : list (N * N) := [
  (0xC0, 0xE0); (0xC1, 0xE1); (0xC2, 0xE2); (0xC3, 0xE3); (0xC4, 0xE4); (0xC5, 0xE5);
  (0xC6, 0xE6); (0xC7, 0xE7); (0xC8, 0xE8); (0xC9, 0xE9); (0xCA, 0xEA); (0xCB, 0xEB);
  (0xCC, 0xEC); (0xCD, 0xED); (0xCE, 0xEE); (0xCF, 0xEF); (0xD0, 0xF0); (0xD1, 0xF1);
  (0xD2, 0xF2); (0xD3, 0xF3); (0xD4, 0xF4); (0xD5, 0xF5); (0xD6, 0xF6); (0xD8, 0xF8);
  (0xD9, 0xF9); (0xDA, 0xFA); (0xDB, 0xFB); (0xDC, 0xFC); (0xDD, 0xFD); (0xDE, 0xFE);
  (0x100, 0x101); (0x102, 0x103); (0x104, 0x105); (0x106, 0x107); (0x108, 0x109); (0x10A, 0x10B);
  (0x10C, 0x10D); (0x10E, 0x10F); (0x110, 0x111); (0x112, 0x113); (0x114, 0x115); (0x116, 0x117);
  (0x118, 0x119); (0x11A, 0x11B); (0x11C, 0x11D); (0x11E, 0x11F); (0x120, 0x121); (0x122, 0x123);
  (0x124, 0x125); (0x126, 0x127); (0x128, 0x129); (0x12A, 0x12B); (0x12C, 0x12D); (0x12E, 0x12F);
  (0x132, 0x133); (0x134, 0x135); (0x136, 0x137); (0x139, 0x13A); (0x13B, 0x13C); (0x13D, 0x13E);
  (0x13F, 0x140); (0x141, 0x142); (0x143, 0x144); (0x145, 0x146); (0x147, 0x148); (0x14A, 0x14B);
  (0x14C, 0x14D); (0x14E, 0x14F); (0x150, 0x151); (0x152, 0x153); (0x154, 0x155); (0x156, 0x157);
  (0x158, 0x159); (0x15A, 0x15B); (0x15C, 0x15D); (0x15E, 0x15F); (0x160, 0x161); (0x162, 0x163);
  (0x164, 0x165); (0x166, 0x167); (0x168, 0x169); (0x16A, 0x16B); (0x16C, 0x16D); (0x16E, 0x16F);
  (0x170, 0x171); (0x172, 0x173); (0x174, 0x175); (0x176, 0x177); (0x178, 0xFF); (0x179, 0x17A);
  (0x17B, 0x17C); (0x17D, 0x17E); (0x181, 0x253); (0x182, 0x183); (0x184, 0x185); (0x186, 0x254);
  (0x187, 0x188); (0x189, 0x256); (0x18A, 0x257); (0x18B, 0x18C); (0x18E, 0x1DD); (0x18F, 0x259);
  (0x190, 0x25B); (0x191, 0x192); (0x193, 0x260); (0x194, 0x263); (0x196, 0x269); (0x197, 0x268);
  (0x198, 0x199); (0x19C, 0x26F); (0x19D, 0x272); (0x19F, 0x275); (0x1A0, 0x1A1); (0x1A2, 0x1A3);
  (0x1A4, 0x1A5); (0x1A6, 0x280); (0x1A7, 0x1A8); (0x1A9, 0x283); (0x1AC, 0x1AD); (0x1AE, 0x288);
  (0x1AF, 0x1B0); (0x1B1, 0x28A); (0x1B2, 0x28B); (0x1B3, 0x1B4); (0x1B5, 0x1B6); (0x1B7, 0x292);
  (0x1B8, 0x1B9); (0x1BC, 0x1BD); (0x1C4, 0x1C6); (0x1C5, 0x1C6); (0x1C7, 0x1C9); (0x1C8, 0x1C9);
  (0x1CA, 0x1CC); (0x1CB, 0x1CC); (0x1CD, 0x1CE); (0x1CF, 0x1D0); (0x1D1, 0x1D2); (0x1D3, 0x1D4);
  (0x1D5, 0x1D6); (0x1D7, 0x1D8); (0x1D9, 0x1DA); (0x1DB, 0x1DC); (0x1DE, 0x1DF); (0x1E0, 0x1E1);
  (0x1E2, 0x1E3); (0x1E4, 0x1E5); (0x1E6, 0x1E7); (0x1E8, 0x1E9); (0x1EA, 0x1EB); (0x1EC, 0x1ED);
  (0x1EE, 0x1EF); (0x1F1, 0x1F3); (0x1F2, 0x1F3); (0x1F4, 0x1F5); (0x1F6, 0x195); (0x1F7, 0x1BF);
  (0x1F8, 0x1F9); (0x1FA, 0x1FB); (0x1FC, 0x1FD); (0x1FE, 0x1FF); (0x200, 0x201); (0x202, 0x203);
  (0x204, 0x205); (0x206, 0x207); (0x208, 0x209); (0x20A, 0x20B); (0x20C, 0x20D); (0x20E, 0x20F);
  (0x210, 0x211); (0x212, 0x213); (0x214, 0x215); (0x216, 0x217); (0x218, 0x219); (0x21A, 0x21B);
  (0x21C, 0x21D); (0x21E, 0x21F); (0x220, 0x19E); (0x222, 0x223); (0x224, 0x225); (0x226, 0x227);
  (0x228, 0x229); (0x22A, 0x22B); (0x22C, 0x22D); (0x22E, 0x22F); (0x230, 0x231); (0x232, 0x233);
  (0x23A, 0x2C65); (0x23B, 0x23C); (0x23D, 0x19A); (0x23E, 0x2C66); (0x241, 0x242); (0x243, 0x180);
  (0x244, 0x289); (0x245, 0x28C); (0x246, 0x247); (0x248, 0x249); (0x24A, 0x24B); (0x24C, 0x24D);
  (0x24E, 0x24F); (0x370, 0x371); (0x372, 0x373); (0x376, 0x377); (0x37F, 0x3F3); (0x386, 0x3AC);
  (0x388, 0x3AD); (0x389, 0x3AE); (0x38A, 0x3AF); (0x38C, 0x3CC); (0x38E, 0x3CD); (0x38F, 0x3CE);
  (0x391, 0x3B1); (0x392, 0x3B2); (0x393, 0x3B3); (0x394, 0x3B4); (0x395, 0x3B5); (0x396, 0x3B6);
  (0x397, 0x3B7); (0x398, 0x3B8); (0x399, 0x3B9); (0x39A, 0x3BA); (0x39B, 0x3BB); (0x39C, 0x3BC);
  (0x39D, 0x3BD); (0x39E, 0x3BE); (0x39F, 0x3BF); (0x3A0, 0x3C0); (0x3A1, 0x3C1); (0x3A3, 0x3C3);
  (0x3A4, 0x3C4); (0x3A5, 0x3C5); (0x3A6, 0x3C6); (0x3A7, 0x3C7); (0x3A8, 0x3C8); (0x3A9, 0x3C9);
  (0x3AA, 0x3CA); (0x3AB, 0x3CB); (0x3CF, 0x3D7); (0x3D8, 0x3D9); (0x3DA, 0x3DB); (0x3DC, 0x3DD);
  (0x3DE, 0x3DF); (0x3E0, 0x3E1); (0x3E2, 0x3E3); (0x3E4, 0x3E5); (0x3E6, 0x3E7); (0x3E8, 0x3E9);
  (0x3EA, 0x3EB); (0x3EC, 0x3ED); (0x3EE, 0x3EF); (0x3F4, 0x3B8); (0x3F7, 0x3F8); (0x3F9, 0x3F2);
  (0x3FA, 0x3FB); (0x3FD, 0x37B); (0x3FE, 0x37C); (0x3FF, 0x37D); (0x400, 0x450); (0x401, 0x451);
  (0x402, 0x452); (0x403, 0x453); (0x404, 0x454); (0x405, 0x455); (0x406, 0x456); (0x407, 0x457);
  (0x408, 0x458); (0x409, 0x459); (0x40A, 0x45A); (0x40B, 0x45B); (0x40C, 0x45C); (0x40D, 0x45D);
  (0x40E, 0x45E); (0x40F, 0x45F); (0x410, 0x430); (0x411, 0x431); (0x412, 0x432); (0x413, 0x433);
  (0x414, 0x434); (0x415, 0x435); (0x416, 0x436); (0x417, 0x437); (0x418, 0x438); (0x419, 0x439);
  (0x41A, 0x43A); (0x41B, 0x43B); (0x41C, 0x43C); (0x41D, 0x43D); (0x41E, 0x43E); (0x41F, 0x43F);
  (0x420, 0x440); (0x421, 0x441); (0x422, 0x442); (0x423, 0x443); (0x424, 0x444); (0x425, 0x445);
  (0x426, 0x446); (0x427, 0x447); (0x428, 0x448); (0x429, 0x449); (0x42A, 0x44A); (0x42B, 0x44B);
  (0x42C, 0x44C); (0x42D, 0x44D); (0x42E, 0x44E); (0x42F, 0x44F); (0x460, 0x461); (0x462, 0x463);
  (0x464, 0x465); (0x466, 0x467); (0x468, 0x469); (0x46A, 0x46B); (0x46C, 0x46D); (0x46E, 0x46F);
  (0x470, 0x471); (0x472, 0x473); (0x474, 0x475); (0x476, 0x477); (0x478, 0x479); (0x47A, 0x47B);
  (0x47C, 0x47D); (0x47E, 0x47F); (0x480, 0x481); (0x48A, 0x48B); (0x48C, 0x48D); (0x48E, 0x48F);
  (0x490, 0x491); (0x492, 0x493); (0x494, 0x495); (0x496, 0x497); (0x498, 0x499); (0x49A, 0x49B);
  (0x49C, 0x49D); (0x49E, 0x49F); (0x4A0, 0x4A1); (0x4A2, 0x4A3); (0x4A4, 0x4A5); (0x4A6, 0x4A7);
  (0x4A8, 0x4A9); (0x4AA, 0x4AB); (0x4AC, 0x4AD); (0x4AE, 0x4AF); (0x4B0, 0x4B1); (0x4B2, 0x4B3);
  (0x4B4, 0x4B5); (0x4B6, 0x4B7); (0x4B8, 0x4B9); (0x4BA, 0x4BB); (0x4BC, 0x4BD); (0x4BE, 0x4BF);
  (0x4C0, 0x4CF); (0x4C1, 0x4C2); (0x4C3, 0x4C4); (0x4C5, 0x4C6); (0x4C7, 0x4C8); (0x4C9, 0x4CA);
  (0x4CB, 0x4CC); (0x4CD, 0x4CE); (0x4D0, 0x4D1); (0x4D2, 0x4D3); (0x4D4, 0x4D5); (0x4D6, 0x4D7);
  (0x4D8, 0x4D9); (0x4DA, 0x4DB); (0x4DC, 0x4DD); (0x4DE, 0x4DF); (0x4E0, 0x4E1); (0x4E2, 0x4E3);
  (0x4E4, 0x4E5); (0x4E6, 0x4E7); (0x4E8, 0x4E9); (0x4EA, 0x4EB); (0x4EC, 0x4ED); (0x4EE, 0x4EF);
  (0x4F0, 0x4F1); (0x4F2, 0x4F3); (0x4F4, 0x4F5); (0x4F6, 0x4F7); (0x4F8, 0x4F9); (0x4FA, 0x4FB);
  (0x4FC, 0x4FD); (0x4FE, 0x4FF); (0x500, 0x501); (0x502, 0x503); (0x504, 0x505); (0x506, 0x507);
  (0x508, 0x509); (0x50A, 0x50B); (0x50C, 0x50D); (0x50E, 0x50F); (0x510, 0x511); (0x512, 0x513);
  (0x514, 0x515); (0x516, 0x517); (0x518, 0x519); (0x51A, 0x51B); (0x51C, 0x51D); (0x51E, 0x51F);
  (0x520, 0x521); (0x522, 0x523); (0x524, 0x525); (0x526, 0x527); (0x528, 0x529); (0x52A, 0x52B);
  (0x52C, 0x52D); (0x52E, 0x52F); (0x531, 0x561); (0x532, 0x562); (0x533, 0x563); (0x534, 0x564);
  (0x535, 0x565); (0x536, 0x566); (0x537, 0x567); (0x538, 0x568); (0x539, 0x569); (0x53A, 0x56A);
  (0x53B, 0x56B); (0x53C, 0x56C); (0x53D, 0x56D); (0x53E, 0x56E); (0x53F, 0x56F); (0x540, 0x570);
  (0x541, 0x571); (0x542, 0x572); (0x543, 0x573); (0x544, 0x574); (0x545, 0x575); (0x546, 0x576);
  (0x547, 0x577); (0x548, 0x578); (0x549, 0x579); (0x54A, 0x57A); (0x54B, 0x57B); (0x54C, 0x57C);
  (0x54D, 0x57D); (0x54E, 0x57E); (0x54F, 0x57F); (0x550, 0x580); (0x551, 0x581); (0x552, 0x582);
  (0x553, 0x583); (0x554, 0x584); (0x555, 0x585); (0x556, 0x586); (0x10A0, 0x2D00); (0x10A1, 0x2D01);
  (0x10A2, 0x2D02); (0x10A3, 0x2D03); (0x10A4, 0x2D04); (0x10A5, 0x2D05); (0x10A6, 0x2D06); (0x10A7, 0x2D07);
  (0x10A8, 0x2D08); (0x10A9, 0x2D09); (0x10AA, 0x2D0A); (0x10AB, 0x2D0B); (0x10AC, 0x2D0C); (0x10AD, 0x2D0D);
  (0x10AE, 0x2D0E); (0x10AF, 0x2D0F); (0x10B0, 0x2D10); (0x10B1, 0x2D11); (0x10B2, 0x2D12); (0x10B3, 0x2D13);
  (0x10B4, 0x2D14); (0x10B5, 0x2D15); (0x10B6, 0x2D16); (0x10B7, 0x2D17); (0x10B8, 0x2D18); (0x10B9, 0x2D19);
  (0x10BA, 0x2D1A); (0x10BB, 0x2D1B); (0x10BC, 0x2D1C); (0x10BD, 0x2D1D); (0x10BE, 0x2D1E); (0x10BF, 0x2D1F);
  (0x10C0, 0x2D20); (0x10C1, 0x2D21); (0x10C2, 0x2D22); (0x10C3, 0x2D23); (0x10C4, 0x2D24); (0x10C5, 0x2D25);
  (0x10C7, 0x2D27); (0x10CD, 0x2D2D); (0x13A0, 0xAB70); (0x13A1, 0xAB71); (0x13A2, 0xAB72); (0x13A3, 0xAB73);
  (0x13A4, 0xAB74); (0x13A5, 0xAB75); (0x13A6, 0xAB76); (0x13A7, 0xAB77); (0x13A8, 0xAB78); (0x13A9, 0xAB79);
  (0x13AA, 0xAB7A); (0x13AB, 0xAB7B); (0x13AC, 0xAB7C); (0x13AD, 0xAB7D); (0x13AE, 0xAB7E); (0x13AF, 0xAB7F);
  (0x13B0, 0xAB80); (0x13B1, 0xAB81); (0x13B2, 0xAB82); (0x13B3, 0xAB83); (0x13B4, 0xAB84); (0x13B5, 0xAB85);
  (0x13B6, 0xAB86); (0x13B7, 0xAB87); (0x13B8, 0xAB88); (0x13B9, 0xAB89); (0x13BA, 0xAB8A); (0x13BB, 0xAB8B);
  (0x13BC, 0xAB8C); (0x13BD, 0xAB8D); (0x13BE, 0xAB8E); (0x13BF, 0xAB8F); (0x13C0, 0xAB90); (0x13C1, 0xAB91);
  (0x13C2, 0xAB92); (0x13C3, 0xAB93); (0x13C4, 0xAB94); (0x13C5, 0xAB95); (0x13C6, 0xAB96); (0x13C7, 0xAB97);
  (0x13C8, 0xAB98); (0x13C9, 0xAB99); (0x13CA, 0xAB9A); (0x13CB, 0xAB9B); (0x13CC, 0xAB9C); (0x13CD, 0xAB9D);
  (0x13CE, 0xAB9E); (0x13CF, 0xAB9F); (0x13D0, 0xABA0); (0x13D1, 0xABA1); (0x13D2, 0xABA2); (0x13D3, 0xABA3);
  (0x13D4, 0xABA4); (0x13D5, 0xABA5); (0x13D6, 0xABA6); (0x13D7, 0xABA7); (0x13D8, 0xABA8); (0x13D9, 0xABA9);
  (0x13DA, 0xABAA); (0x13DB, 0xABAB); (0x13DC, 0xABAC); (0x13DD, 0xABAD); (0x13DE, 0xABAE); (0x13DF, 0xABAF);
  (0x13E0, 0xABB0); (0x13E1, 0xABB1); (0x13E2, 0xABB2); (0x13E3, 0xABB3); (0x13E4, 0xABB4); (0x13E5, 0xABB5);
  (0x13E6, 0xABB6); (0x13E7, 0xABB7); (0x13E8, 0xABB8); (0x13E9, 0xABB9); (0x13EA, 0xABBA); (0x13EB, 0xABBB);
  (0x13EC, 0xABBC); (0x13ED, 0xABBD); (0x13EE, 0xABBE); (0x13EF, 0xABBF); (0x13F0, 0x13F8); (0x13F1, 0x13F9);
  (0x13F2, 0x13FA); (0x13F3, 0x13FB); (0x13F4, 0x13FC); (0x13F5, 0x13FD); (0x1C90, 0x10D0); (0x1C91, 0x10D1);
  (0x1C92, 0x10D2); (0x1C93, 0x10D3); (0x1C94, 0x10D4); (0x1C95, 0x10D5); (0x1C96, 0x10D6); (0x1C97, 0x10D7);
  (0x1C98, 0x10D8); (0x1C99, 0x10D9); (0x1C9A, 0x10DA); (0x1C9B, 0x10DB); (0x1C9C, 0x10DC); (0x1C9D, 0x10DD);
  (0x1C9E, 0x10DE); (0x1C9F, 0x10DF); (0x1CA0, 0x10E0); (0x1CA1, 0x10E1); (0x1CA2, 0x10E2); (0x1CA3, 0x10E3);
  (0x1CA4, 0x10E4); (0x1CA5, 0x10E5); (0x1CA6, 0x10E6); (0x1CA7, 0x10E7); (0x1CA8, 0x10E8); (0x1CA9, 0x10E9);
  (0x1CAA, 0x10EA); (0x1CAB, 0x10EB); (0x1CAC, 0x10EC); (0x1CAD, 0x10ED); (0x1CAE, 0x10EE); (0x1CAF, 0x10EF);
  (0x1CB0, 0x10F0); (0x1CB1, 0x10F1); (0x1CB2, 0x10F2); (0x1CB3, 0x10F3); (0x1CB4, 0x10F4); (0x1CB5, 0x10F5);
  (0x1CB6, 0x10F6); (0x1CB7, 0x10F7); (0x1CB8, 0x10F8); (0x1CB9, 0x10F9); (0x1CBA, 0x10FA); (0x1CBD, 0x10FD);
  (0x1CBE, 0x10FE); (0x1CBF, 0x10FF); (0x1E00, 0x1E01); (0x1E02, 0x1E03); (0x1E04, 0x1E05); (0x1E06, 0x1E07);
  (0x1E08, 0x1E09); (0x1E0A, 0x1E0B); (0x1E0C, 0x1E0D); (0x1E0E, 0x1E0F); (0x1E10, 0x1E11); (0x1E12, 0x1E13);
  (0x1E14, 0x1E15); (0x1E16, 0x1E17); (0x1E18, 0x1E19); (0x1E1A, 0x1E1B); (0x1E1C, 0x1E1D); (0x1E1E, 0x1E1F);
  (0x1E20, 0x1E21); (0x1E22, 0x1E23); (0x1E24, 0x1E25); (0x1E26, 0x1E27); (0x1E28, 0x1E29); (0x1E2A, 0x1E2B);
  (0x1E2C, 0x1E2D); (0x1E2E, 0x1E2F); (0x1E30, 0x1E31); (0x1E32, 0x1E33); (0x1E34, 0x1E35); (0x1E36, 0x1E37);
  (0x1E38, 0x1E39); (0x1E3A, 0x1E3B); (0x1E3C, 0x1E3D); (0x1E3E, 0x1E3F); (0x1E40, 0x1E41); (0x1E42, 0x1E43);
  (0x1E44, 0x1E45); (0x1E46, 0x1E47); (0x1E48, 0x1E49); (0x1E4A, 0x1E4B); (0x1E4C, 0x1E4D); (0x1E4E, 0x1E4F);
  (0x1E50, 0x1E51); (0x1E52, 0x1E53); (0x1E54, 0x1E55); (0x1E56, 0x1E57); (0x1E58, 0x1E59); (0x1E5A, 0x1E5B);
  (0x1E5C, 0x1E5D); (0x1E5E, 0x1E5F); (0x1E60, 0x1E61); (0x1E62, 0x1E63); (0x1E64, 0x1E65); (0x1E66, 0x1E67);
  (0x1E68, 0x1E69); (0x1E6A, 0x1E6B); (0x1E6C, 0x1E6D); (0x1E6E, 0x1E6F); (0x1E70, 0x1E71); (0x1E72, 0x1E73);
  (0x1E74, 0x1E75); (0x1E76, 0x1E77); (0x1E78, 0x1E79); (0x1E7A, 0x1E7B); (0x1E7C, 0x1E7D); (0x1E7E, 0x1E7F);
  (0x1E80, 0x1E81); (0x1E82, 0x1E83); (0x1E84, 0x1E85); (0x1E86, 0x1E87); (0x1E88, 0x1E89); (0x1E8A, 0x1E8B);
  (0x1E8C, 0x1E8D); (0x1E8E, 0x1E8F); (0x1E90, 0x1E91); (0x1E92, 0x1E93); (0x1E94, 0x1E95); (0x1E9E, 0xDF);
  (0x1EA0, 0x1EA1); (0x1EA2, 0x1EA3); (0x1EA4, 0x1EA5); (0x1EA6, 0x1EA7); (0x1EA8, 0x1EA9); (0x1EAA, 0x1EAB);
  (0x1EAC, 0x1EAD); (0x1EAE, 0x1EAF); (0x1EB0, 0x1EB1); (0x1EB2, 0x1EB3); (0x1EB4, 0x1EB5); (0x1EB6, 0x1EB7);
  (0x1EB8, 0x1EB9); (0x1EBA, 0x1EBB); (0x1EBC, 0x1EBD); (0x1EBE, 0x1EBF); (0x1EC0, 0x1EC1); (0x1EC2, 0x1EC3);
  (0x1EC4, 0x1EC5); (0x1EC6, 0x1EC7); (0x1EC8, 0x1EC9); (0x1ECA, 0x1ECB); (0x1ECC, 0x1ECD); (0x1ECE, 0x1ECF);
  (0x1ED0, 0x1ED1); (0x1ED2, 0x1ED3); (0x1ED4, 0x1ED5); (0x1ED6, 0x1ED7); (0x1ED8, 0x1ED9); (0x1EDA, 0x1EDB);
  (0x1EDC, 0x1EDD); (0x1EDE, 0x1EDF); (0x1EE0, 0x1EE1); (0x1EE2, 0x1EE3); (0x1EE4, 0x1EE5); (0x1EE6, 0x1EE7);
  (0x1EE8, 0x1EE9); (0x1EEA, 0x1EEB); (0x1EEC, 0x1EED); (0x1EEE, 0x1EEF); (0x1EF0, 0x1EF1); (0x1EF2, 0x1EF3);
  (0x1EF4, 0x1EF5); (0x1EF6, 0x1EF7); (0x1EF8, 0x1EF9); (0x1EFA, 0x1EFB); (0x1EFC, 0x1EFD); (0x1EFE, 0x1EFF);
  (0x1F08, 0x1F00); (0x1F09, 0x1F01); (0x1F0A, 0x1F02); (0x1F0B, 0x1F03); (0x1F0C, 0x1F04); (0x1F0D, 0x1F05);
  (0x1F0E, 0x1F06); (0x1F0F, 0x1F07); (0x1F18, 0x1F10); (0x1F19, 0x1F11); (0x1F1A, 0x1F12); (0x1F1B, 0x1F13);
  (0x1F1C, 0x1F14); (0x1F1D, 0x1F15); (0x1F28, 0x1F20); (0x1F29, 0x1F21); (0x1F2A, 0x1F22); (0x1F2B, 0x1F23);
  (0x1F2C, 0x1F24); (0x1F2D, 0x1F25); (0x1F2E, 0x1F26); (0x1F2F, 0x1F27); (0x1F38, 0x1F30); (0x1F39, 0x1F31);
  (0x1F3A, 0x1F32); (0x1F3B, 0x1F33); (0x1F3C, 0x1F34); (0x1F3D, 0x1F35); (0x1F3E, 0x1F36); (0x1F3F, 0x1F37);
  (0x1F48, 0x1F40); (0x1F49, 0x1F41); (0x1F4A, 0x1F42); (0x1F4B, 0x1F43); (0x1F4C, 0x1F44); (0x1F4D, 0x1F45);
  (0x1F59, 0x1F51); (0x1F5B, 0x1F53); (0x1F5D, 0x1F55); (0x1F5F, 0x1F57); (0x1F68, 0x1F60); (0x1F69, 0x1F61);
  (0x1F6A, 0x1F62); (0x1F6B, 0x1F63); (0x1F6C, 0x1F64); (0x1F6D, 0x1F65); (0x1F6E, 0x1F66); (0x1F6F, 0x1F67);
  (0x1F88, 0x1F80); (0x1F89, 0x1F81); (0x1F8A, 0x1F82); (0x1F8B, 0x1F83); (0x1F8C, 0x1F84); (0x1F8D, 0x1F85);
  (0x1F8E, 0x1F86); (0x1F8F, 0x1F87); (0x1F98, 0x1F90); (0x1F99, 0x1F91); (0x1F9A, 0x1F92); (0x1F9B, 0x1F93);
  (0x1F9C, 0x1F94); (0x1F9D, 0x1F95); (0x1F9E, 0x1F96); (0x1F9F, 0x1F97); (0x1FA8, 0x1FA0); (0x1FA9, 0x1FA1);
  (0x1FAA, 0x1FA2); (0x1FAB, 0x1FA3); (0x1FAC, 0x1FA4); (0x1FAD, 0x1FA5); (0x1FAE, 0x1FA6); (0x1FAF, 0x1FA7);
  (0x1FB8, 0x1FB0); (0x1FB9, 0x1FB1); (0x1FBA, 0x1F70); (0x1FBB, 0x1F71); (0x1FBC, 0x1FB3); (0x1FC8, 0x1F72);
  (0x1FC9, 0x1F73); (0x1FCA, 0x1F74); (0x1FCB, 0x1F75); (0x1FCC, 0x1FC3); (0x1FD8, 0x1FD0); (0x1FD9, 0x1FD1);
  (0x1FDA, 0x1F76); (0x1FDB, 0x1F77); (0x1FE8, 0x1FE0); (0x1FE9, 0x1FE1); (0x1FEA, 0x1F7A); (0x1FEB, 0x1F7B);
  (0x1FEC, 0x1FE5); (0x1FF8, 0x1F78); (0x1FF9, 0x1F79); (0x1FFA, 0x1F7C); (0x1FFB, 0x1F7D); (0x1FFC, 0x1FF3);
  (0x2126, 0x3C9); (0x212A, 0x6B); (0x212B, 0xE5); (0x2132, 0x214E); (0x2160, 0x2170); (0x2161, 0x2171);
  (0x2162, 0x2172); (0x2163, 0x2173); (0x2164, 0x2174); (0x2165, 0x2175); (0x2166, 0x2176); (0x2167, 0x2177);
  (0x2168, 0x2178); (0x2169, 0x2179); (0x216A, 0x217A); (0x216B, 0x217B); (0x216C, 0x217C); (0x216D, 0x217D);
  (0x216E, 0x217E); (0x216F, 0x217F); (0x2183, 0x2184); (0x24B6, 0x24D0); (0x24B7, 0x24D1); (0x24B8, 0x24D2);
  (0x24B9, 0x24D3); (0x24BA, 0x24D4); (0x24BB, 0x24D5); (0x24BC, 0x24D6); (0x24BD, 0x24D7); (0x24BE, 0x24D8);
  (0x24BF, 0x24D9); (0x24C0, 0x24DA); (0x24C1, 0x24DB); (0x24C2, 0x24DC); (0x24C3, 0x24DD); (0x24C4, 0x24DE);
  (0x24C5, 0x24DF); (0x24C6, 0x24E0); (0x24C7, 0x24E1); (0x24C8, 0x24E2); (0x24C9, 0x24E3); (0x24CA, 0x24E4);
  (0x24CB, 0x24E5); (0x24CC, 0x24E6); (0x24CD, 0x24E7); (0x24CE, 0x24E8); (0x24CF, 0x24E9); (0x2C00, 0x2C30);
  (0x2C01, 0x2C31); (0x2C02, 0x2C32); (0x2C03, 0x2C33); (0x2C04, 0x2C34); (0x2C05, 0x2C35); (0x2C06, 0x2C36);
  (0x2C07, 0x2C37); (0x2C08, 0x2C38); (0x2C09, 0x2C39); (0x2C0A, 0x2C3A); (0x2C0B, 0x2C3B); (0x2C0C, 0x2C3C);
  (0x2C0D, 0x2C3D); (0x2C0E, 0x2C3E); (0x2C0F, 0x2C3F); (0x2C10, 0x2C40); (0x2C11, 0x2C41); (0x2C12, 0x2C42);
  (0x2C13, 0x2C43); (0x2C14, 0x2C44); (0x2C15, 0x2C45); (0x2C16, 0x2C46); (0x2C17, 0x2C47); (0x2C18, 0x2C48);
  (0x2C19, 0x2C49); (0x2C1A, 0x2C4A); (0x2C1B, 0x2C4B); (0x2C1C, 0x2C4C); (0x2C1D, 0x2C4D); (0x2C1E, 0x2C4E);
  (0x2C1F, 0x2C4F); (0x2C20, 0x2C50); (0x2C21, 0x2C51); (0x2C22, 0x2C52); (0x2C23, 0x2C53); (0x2C24, 0x2C54);
  (0x2C25, 0x2C55); (0x2C26, 0x2C56); (0x2C27, 0x2C57); (0x2C28, 0x2C58); (0x2C29, 0x2C59); (0x2C2A, 0x2C5A);
  (0x2C2B, 0x2C5B); (0x2C2C, 0x2C5C); (0x2C2D, 0x2C5D); (0x2C2E, 0x2C5E); (0x2C2F, 0x2C5F); (0x2C60, 0x2C61);
  (0x2C62, 0x26B); (0x2C63, 0x1D7D); (0x2C64, 0x27D); (0x2C67, 0x2C68); (0x2C69, 0x2C6A); (0x2C6B, 0x2C6C);
  (0x2C6D, 0x251); (0x2C6E, 0x271); (0x2C6F, 0x250); (0x2C70, 0x252); (0x2C72, 0x2C73); (0x2C75, 0x2C76);
  (0x2C7E, 0x23F); (0x2C7F, 0x240); (0x2C80, 0x2C81); (0x2C82, 0x2C83); (0x2C84, 0x2C85); (0x2C86, 0x2C87);
  (0x2C88, 0x2C89); (0x2C8A, 0x2C8B); (0x2C8C, 0x2C8D); (0x2C8E, 0x2C8F); (0x2C90, 0x2C91); (0x2C92, 0x2C93);
  (0x2C94, 0x2C95); (0x2C96, 0x2C97); (0x2C98, 0x2C99); (0x2C9A, 0x2C9B); (0x2C9C, 0x2C9D); (0x2C9E, 0x2C9F);
  (0x2CA0, 0x2CA1); (0x2CA2, 0x2CA3); (0x2CA4, 0x2CA5); (0x2CA6, 0x2CA7); (0x2CA8, 0x2CA9); (0x2CAA, 0x2CAB);
  (0x2CAC, 0x2CAD); (0x2CAE, 0x2CAF); (0x2CB0, 0x2CB1); (0x2CB2, 0x2CB3); (0x2CB4, 0x2CB5); (0x2CB6, 0x2CB7);
  (0x2CB8, 0x2CB9); (0x2CBA, 0x2CBB); (0x2CBC, 0x2CBD); (0x2CBE, 0x2CBF); (0x2CC0, 0x2CC1); (0x2CC2, 0x2CC3);
  (0x2CC4, 0x2CC5); (0x2CC6, 0x2CC7); (0x2CC8, 0x2CC9); (0x2CCA, 0x2CCB); (0x2CCC, 0x2CCD); (0x2CCE, 0x2CCF);
  (0x2CD0, 0x2CD1); (0x2CD2, 0x2CD3); (0x2CD4, 0x2CD5); (0x2CD6, 0x2CD7); (0x2CD8, 0x2CD9); (0x2CDA, 0x2CDB);
  (0x2CDC, 0x2CDD); (0x2CDE, 0x2CDF); (0x2CE0, 0x2CE1); (0x2CE2, 0x2CE3); (0x2CEB, 0x2CEC); (0x2CED, 0x2CEE);
  (0x2CF2, 0x2CF3); (0xA640, 0xA641); (0xA642, 0xA643); (0xA644, 0xA645); (0xA646, 0xA647); (0xA648, 0xA649);
  (0xA64A, 0xA64B); (0xA64C, 0xA64D); (0xA64E, 0xA64F); (0xA650, 0xA651); (0xA652, 0xA653); (0xA654, 0xA655);
  (0xA656, 0xA657); (0xA658, 0xA659); (0xA65A, 0xA65B); (0xA65C, 0xA65D); (0xA65E, 0xA65F); (0xA660, 0xA661);
  (0xA662, 0xA663); (0xA664, 0xA665); (0xA666, 0xA667); (0xA668, 0xA669); (0xA66A, 0xA66B); (0xA66C, 0xA66D);
  (0xA680, 0xA681); (0xA682, 0xA683); (0xA684, 0xA685); (0xA686, 0xA687); (0xA688, 0xA689); (0xA68A, 0xA68B);
  (0xA68C, 0xA68D); (0xA68E, 0xA68F); (0xA690, 0xA691); (0xA692, 0xA693); (0xA694, 0xA695); (0xA696, 0xA697);
  (0xA698, 0xA699); (0xA69A, 0xA69B); (0xA722, 0xA723); (0xA724, 0xA725); (0xA726, 0xA727); (0xA728, 0xA729);
  (0xA72A, 0xA72B); (0xA72C, 0xA72D); (0xA72E, 0xA72F); (0xA732, 0xA733); (0xA734, 0xA735); (0xA736, 0xA737);
  (0xA738, 0xA739); (0xA73A, 0xA73B); (0xA73C, 0xA73D); (0xA73E, 0xA73F); (0xA740, 0xA741); (0xA742, 0xA743);
  (0xA744, 0xA745); (0xA746, 0xA747); (0xA748, 0xA749); (0xA74A, 0xA74B); (0xA74C, 0xA74D); (0xA74E, 0xA74F);
  (0xA750, 0xA751); (0xA752, 0xA753); (0xA754, 0xA755); (0xA756, 0xA757); (0xA758, 0xA759); (0xA75A, 0xA75B);
  (0xA75C, 0xA75D); (0xA75E, 0xA75F); (0xA760, 0xA761); (0xA762, 0xA763); (0xA764, 0xA765); (0xA766, 0xA767);
  (0xA768, 0xA769); (0xA76A, 0xA76B); (0xA76C, 0xA76D); (0xA76E, 0xA76F); (0xA779, 0xA77A); (0xA77B, 0xA77C);
  (0xA77D, 0x1D79); (0xA77E, 0xA77F); (0xA780, 0xA781); (0xA782, 0xA783); (0xA784, 0xA785); (0xA786, 0xA787);
  (0xA78B, 0xA78C); (0xA78D, 0x265); (0xA790, 0xA791); (0xA792, 0xA793); (0xA796, 0xA797); (0xA798, 0xA799);
  (0xA79A, 0xA79B); (0xA79C, 0xA79D); (0xA79E, 0xA79F); (0xA7A0, 0xA7A1); (0xA7A2, 0xA7A3); (0xA7A4, 0xA7A5);
  (0xA7A6, 0xA7A7); (0xA7A8, 0xA7A9); (0xA7AA, 0x266); (0xA7AB, 0x25C); (0xA7AC, 0x261); (0xA7AD, 0x26C);
  (0xA7AE, 0x26A); (0xA7B0, 0x29E); (0xA7B1, 0x287); (0xA7B2, 0x29D); (0xA7B3, 0xAB53); (0xA7B4, 0xA7B5);
  (0xA7B6, 0xA7B7); (0xA7B8, 0xA7B9); (0xA7BA, 0xA7BB); (0xA7BC, 0xA7BD); (0xA7BE, 0xA7BF); (0xA7C0, 0xA7C1);
  (0xA7C2, 0xA7C3); (0xA7C4, 0xA794); (0xA7C5, 0x282); (0xA7C6, 0x1D8E); (0xA7C7, 0xA7C8); (0xA7C9, 0xA7CA);
  (0xA7D0, 0xA7D1); (0xA7D6, 0xA7D7); (0xA7D8, 0xA7D9); (0xA7F5, 0xA7F6); (0xFF21, 0xFF41); (0xFF22, 0xFF42);
  (0xFF23, 0xFF43); (0xFF24, 0xFF44); (0xFF25, 0xFF45); (0xFF26, 0xFF46); (0xFF27, 0xFF47); (0xFF28, 0xFF48);
  (0xFF29, 0xFF49); (0xFF2A, 0xFF4A); (0xFF2B, 0xFF4B); (0xFF2C, 0xFF4C); (0xFF2D, 0xFF4D); (0xFF2E, 0xFF4E);
  (0xFF2F, 0xFF4F); (0xFF30, 0xFF50); (0xFF31, 0xFF51); (0xFF32, 0xFF52); (0xFF33, 0xFF53); (0xFF34, 0xFF54);
  (0xFF35, 0xFF55); (0xFF36, 0xFF56); (0xFF37, 0xFF57); (0xFF38, 0xFF58); (0xFF39, 0xFF59); (0xFF3A, 0xFF5A);
  (0x10400, 0x10428); (0x10401, 0x10429); (0x10402, 0x1042A); (0x10403, 0x1042B); (0x10404, 0x1042C); (0x10405, 0x1042D);
  (0x10406, 0x1042E); (0x10407, 0x1042F); (0x10408, 0x10430); (0x10409, 0x10431); (0x1040A, 0x10432); (0x1040B, 0x10433);
  (0x1040C, 0x10434); (0x1040D, 0x10435); (0x1040E, 0x10436); (0x1040F, 0x10437); (0x10410, 0x10438); (0x10411, 0x10439);
  (0x10412, 0x1043A); (0x10413, 0x1043B); (0x10414, 0x1043C); (0x10415, 0x1043D); (0x10416, 0x1043E); (0x10417, 0x1043F);
  (0x10418, 0x10440); (0x10419, 0x10441); (0x1041A, 0x10442); (0x1041B, 0x10443); (0x1041C, 0x10444); (0x1041D, 0x10445);
  (0x1041E, 0x10446); (0x1041F, 0x10447); (0x10420, 0x10448); (0x10421, 0x10449); (0x10422, 0x1044A); (0x10423, 0x1044B);
  (0x10424, 0x1044C); (0x10425, 0x1044D); (0x10426, 0x1044E); (0x10427, 0x1044F); (0x104B0, 0x104D8); (0x104B1, 0x104D9);
  (0x104B2, 0x104DA); (0x104B3, 0x104DB); (0x104B4, 0x104DC); (0x104B5, 0x104DD); (0x104B6, 0x104DE); (0x104B7, 0x104DF);
  (0x104B8, 0x104E0); (0x104B9, 0x104E1); (0x104BA, 0x104E2); (0x104BB, 0x104E3); (0x104BC, 0x104E4); (0x104BD, 0x104E5);
  (0x104BE, 0x104E6); (0x104BF, 0x104E7); (0x104C0, 0x104E8); (0x104C1, 0x104E9); (0x104C2, 0x104EA); (0x104C3, 0x104EB);
  (0x104C4, 0x104EC); (0x104C5, 0x104ED); (0x104C6, 0x104EE); (0x104C7, 0x104EF); (0x104C8, 0x104F0); (0x104C9, 0x104F1);
  (0x104CA, 0x104F2); (0x104CB, 0x104F3); (0x104CC, 0x104F4); (0x104CD, 0x104F5); (0x104CE, 0x104F6); (0x104CF, 0x104F7);
  (0x104D0, 0x104F8); (0x104D1, 0x104F9); (0x104D2, 0x104FA); (0x104D3, 0x104FB); (0x10570, 0x10597); (0x10571, 0x10598);
  (0x10572, 0x10599); (0x10573, 0x1059A); (0x10574, 0x1059B); (0x10575, 0x1059C); (0x10576, 0x1059D); (0x10577, 0x1059E);
  (0x10578, 0x1059F); (0x10579, 0x105A0); (0x1057A, 0x105A1); (0x1057C, 0x105A3); (0x1057D, 0x105A4); (0x1057E, 0x105A5);
  (0x1057F, 0x105A6); (0x10580, 0x105A7); (0x10581, 0x105A8); (0x10582, 0x105A9); (0x10583, 0x105AA); (0x10584, 0x105AB);
  (0x10585, 0x105AC); (0x10586, 0x105AD); (0x10587, 0x105AE); (0x10588, 0x105AF); (0x10589, 0x105B0); (0x1058A, 0x105B1);
  (0x1058C, 0x105B3); (0x1058D, 0x105B4); (0x1058E, 0x105B5); (0x1058F, 0x105B6); (0x10590, 0x105B7); (0x10591, 0x105B8);
  (0x10592, 0x105B9); (0x10594, 0x105BB); (0x10595, 0x105BC); (0x10C80, 0x10CC0); (0x10C81, 0x10CC1); (0x10C82, 0x10CC2);
  (0x10C83, 0x10CC3); (0x10C84, 0x10CC4); (0x10C85, 0x10CC5); (0x10C86, 0x10CC6); (0x10C87, 0x10CC7); (0x10C88, 0x10CC8);
  (0x10C89, 0x10CC9); (0x10C8A, 0x10CCA); (0x10C8B, 0x10CCB); (0x10C8C, 0x10CCC); (0x10C8D, 0x10CCD); (0x10C8E, 0x10CCE);
  (0x10C8F, 0x10CCF); (0x10C90, 0x10CD0); (0x10C91, 0x10CD1); (0x10C92, 0x10CD2); (0x10C93, 0x10CD3); (0x10C94, 0x10CD4);
  (0x10C95, 0x10CD5); (0x10C96, 0x10CD6); (0x10C97, 0x10CD7); (0x10C98, 0x10CD8); (0x10C99, 0x10CD9); (0x10C9A, 0x10CDA);
  (0x10C9B, 0x10CDB); (0x10C9C, 0x10CDC); (0x10C9D, 0x10CDD); (0x10C9E, 0x10CDE); (0x10C9F, 0x10CDF); (0x10CA0, 0x10CE0);
  (0x10CA1, 0x10CE1); (0x10CA2, 0x10CE2); (0x10CA3, 0x10CE3); (0x10CA4, 0x10CE4); (0x10CA5, 0x10CE5); (0x10CA6, 0x10CE6);
  (0x10CA7, 0x10CE7); (0x10CA8, 0x10CE8); (0x10CA9, 0x10CE9); (0x10CAA, 0x10CEA); (0x10CAB, 0x10CEB); (0x10CAC, 0x10CEC);
  (0x10CAD, 0x10CED); (0x10CAE, 0x10CEE); (0x10CAF, 0x10CEF); (0x10CB0, 0x10CF0); (0x10CB1, 0x10CF1); (0x10CB2, 0x10CF2);
  (0x118A0, 0x118C0); (0x118A1, 0x118C1); (0x118A2, 0x118C2); (0x118A3, 0x118C3); (0x118A4, 0x118C4); (0x118A5, 0x118C5);
  (0x118A6, 0x118C6); (0x118A7, 0x118C7); (0x118A8, 0x118C8); (0x118A9, 0x118C9); (0x118AA, 0x118CA); (0x118AB, 0x118CB);
  (0x118AC, 0x118CC); (0x118AD, 0x118CD); (0x118AE, 0x118CE); (0x118AF, 0x118CF); (0x118B0, 0x118D0); (0x118B1, 0x118D1);
  (0x118B2, 0x118D2); (0x118B3, 0x118D3); (0x118B4, 0x118D4); (0x118B5, 0x118D5); (0x118B6, 0x118D6); (0x118B7, 0x118D7);
  (0x118B8, 0x118D8); (0x118B9, 0x118D9); (0x118BA, 0x118DA); (0x118BB, 0x118DB); (0x118BC, 0x118DC); (0x118BD, 0x118DD);
  (0x118BE, 0x118DE); (0x118BF, 0x118DF); (0x16E40, 0x16E60); (0x16E41, 0x16E61); (0x16E42, 0x16E62); (0x16E43, 0x16E63);
  (0x16E44, 0x16E64); (0x16E45, 0x16E65); (0x16E46, 0x16E66); (0x16E47, 0x16E67); (0x16E48, 0x16E68); (0x16E49, 0x16E69);
  (0x16E4A, 0x16E6A); (0x16E4B, 0x16E6B); (0x16E4C, 0x16E6C); (0x16E4D, 0x16E6D); (0x16E4E, 0x16E6E); (0x16E4F, 0x16E6F);
  (0x16E50, 0x16E70); (0x16E51, 0x16E71); (0x16E52, 0x16E72); (0x16E53, 0x16E73); (0x16E54, 0x16E74); (0x16E55, 0x16E75);
  (0x16E56, 0x16E76); (0x16E57, 0x16E77); (0x16E58, 0x16E78); (0x16E59, 0x16E79); (0x16E5A, 0x16E7A); (0x16E5B, 0x16E7B);
  (0x16E5C, 0x16E7C); (0x16E5D, 0x16E7D); (0x16E5E, 0x16E7E); (0x16E5F, 0x16E7F); (0x1E900, 0x1E922); (0x1E901, 0x1E923);
  (0x1E902, 0x1E924); (0x1E903, 0x1E925); (0x1E904, 0x1E926); (0x1E905, 0x1E927); (0x1E906, 0x1E928); (0x1E907, 0x1E929);
  (0x1E908, 0x1E92A); (0x1E909, 0x1E92B); (0x1E90A, 0x1E92C); (0x1E90B, 0x1E92D); (0x1E90C, 0x1E92E); (0x1E90D, 0x1E92F);
  (0x1E90E, 0x1E930); (0x1E90F, 0x1E931); (0x1E910, 0x1E932); (0x1E911, 0x1E933); (0x1E912, 0x1E934); (0x1E913, 0x1E935);
  (0x1E914, 0x1E936); (0x1E915, 0x1E937); (0x1E916, 0x1E938); (0x1E917, 0x1E939); (0x1E918, 0x1E93A); (0x1E919, 0x1E93B);
  (0x1E91A, 0x1E93C); (0x1E91B, 0x1E93D); (0x1E91C, 0x1E93E); (0x1E91D, 0x1E93F); (0x1E91E, 0x1E940); (0x1E91F, 0x1E941);
  (0x1E920, 0x1E942); (0x1E921, 0x1E943)
]%N.

(** The ranges of the [Cased] code points. *)
Definition casedRanges : list (N * N) := [
  (0x41, 0x5A); (0x61, 0x7A); (0xAA, 0xAA); (0xB5, 0xB5); (0xBA, 0xBA); (0xC0, 0xD6);
  (0xD8, 0xF6); (0xF8, 0x1BA); (0x1BC, 0x1BF); (0x1C4, 0x293); (0x295, 0x2B8); (0x2C0, 0x2C1);
  (0x2E0, 0x2E4); (0x345, 0x345); (0x370, 0x373); (0x376, 0x377); (0x37A, 0x37D); (0x37F, 0x37F);
  (0x386, 0x386); (0x388, 0x38A); (0x38C, 0x38C); (0x38E, 0x3A1); (0x3A3, 0x3F5); (0x3F7, 0x481);
  (0x48A, 0x52F); (0x531, 0x556); (0x560, 0x588); (0x10A0, 0x10C5); (0x10C7, 0x10C7); (0x10CD, 0x10CD);
  (0x10D0, 0x10FA); (0x10FD, 0x10FF); (0x13A0, 0x13F5); (0x13F8, 0x13FD); (0x1C80, 0x1C88); (0x1C90, 0x1CBA);
  (0x1CBD, 0x1CBF); (0x1D00, 0x1DBF); (0x1E00, 0x1F15); (0x1F18, 0x1F1D); (0x1F20, 0x1F45); (0x1F48, 0x1F4D);
  (0x1F50, 0x1F57); (0x1F59, 0x1F59); (0x1F5B, 0x1F5B); (0x1F5D, 0x1F5D); (0x1F5F, 0x1F7D); (0x1F80, 0x1FB4);
  (0x1FB6, 0x1FBC); (0x1FBE, 0x1FBE); (0x1FC2, 0x1FC4); (0x1FC6, 0x1FCC); (0x1FD0, 0x1FD3); (0x1FD6, 0x1FDB);
  (0x1FE0, 0x1FEC); (0x1FF2, 0x1FF4); (0x1FF6, 0x1FFC); (0x2071, 0x2071); (0x207F, 0x207F); (0x2090, 0x209C);
  (0x2102, 0x2102); (0x2107, 0x2107); (0x210A, 0x2113); (0x2115, 0x2115); (0x2119, 0x211D); (0x2124, 0x2124);
  (0x2126, 0x2126); (0x2128, 0x2128); (0x212A, 0x212D); (0x212F, 0x2134); (0x2139, 0x2139); (0x213C, 0x213F);
  (0x2145, 0x2149); (0x214E, 0x214E); (0x2160, 0x217F); (0x2183, 0x2184); (0x24B6, 0x24E9); (0x2C00, 0x2CE4);
  (0x2CEB, 0x2CEE); (0x2CF2, 0x2CF3); (0x2D00, 0x2D25); (0x2D27, 0x2D27); (0x2D2D, 0x2D2D); (0xA640, 0xA66D);
  (0xA680, 0xA69D); (0xA722, 0xA787); (0xA78B, 0xA78E); (0xA790, 0xA7CA); (0xA7D0, 0xA7D1); (0xA7D3, 0xA7D3);
  (0xA7D5, 0xA7D9); (0xA7F5, 0xA7F6); (0xA7F8, 0xA7FA); (0xAB30, 0xAB5A); (0xAB5C, 0xAB68); (0xAB70, 0xABBF);
  (0xFB00, 0xFB06); (0xFB13, 0xFB17); (0xFF21, 0xFF3A); (0xFF41, 0xFF5A); (0x10400, 0x1044F); (0x104B0, 0x104D3);
  (0x104D8, 0x104FB); (0x10570, 0x1057A); (0x1057C, 0x1058A); (0x1058C, 0x10592); (0x10594, 0x10595); (0x10597, 0x105A1);
  (0x105A3, 0x105B1); (0x105B3, 0x105B9); (0x105BB, 0x105BC); (0x10780, 0x10780); (0x10783, 0x10785); (0x10787, 0x107B0);
  (0x107B2, 0x107BA); (0x10C80, 0x10CB2); (0x10CC0, 0x10CF2); (0x118A0, 0x118DF); (0x16E40, 0x16E7F); (0x1D400, 0x1D454);
  (0x1D456, 0x1D49C); (0x1D49E, 0x1D49F); (0x1D4A2, 0x1D4A2); (0x1D4A5, 0x1D4A6); (0x1D4A9, 0x1D4AC); (0x1D4AE, 0x1D4B9);
  (0x1D4BB, 0x1D4BB); (0x1D4BD, 0x1D4C3); (0x1D4C5, 0x1D505); (0x1D507, 0x1D50A); (0x1D50D, 0x1D514); (0x1D516, 0x1D51C);
  (0x1D51E, 0x1D539); (0x1D53B, 0x1D53E); (0x1D540, 0x1D544); (0x1D546, 0x1D546); (0x1D54A, 0x1D550); (0x1D552, 0x1D6A5);
  (0x1D6A8, 0x1D6C0); (0x1D6C2, 0x1D6DA); (0x1D6DC, 0x1D6FA); (0x1D6FC, 0x1D714); (0x1D716, 0x1D734); (0x1D736, 0x1D74E);
  (0x1D750, 0x1D76E); (0x1D770, 0x1D788); (0x1D78A, 0x1D7A8); (0x1D7AA, 0x1D7C2); (0x1D7C4, 0x1D7CB); (0x1DF00, 0x1DF09);
  (0x1DF0B, 0x1DF1E); (0x1E900, 0x1E943); (0x1F130, 0x1F149); (0x1F150, 0x1F169); (0x1F170, 0x1F189)
]%N.

(** The ranges of the [Case_Ignorable] code points. *)
Definition caseIgnorableRanges : list (N * N) := [
  (0x27, 0x27); (0x2E, 0x2E); (0x3A, 0x3A); (0x5E, 0x5E); (0x60, 0x60); (0xA8, 0xA8);
  (0xAD, 0xAD); (0xAF, 0xAF); (0xB4, 0xB4); (0xB7, 0xB8); (0x2B0, 0x36F); (0x374, 0x375);
  (0x37A, 0x37A); (0x384, 0x385); (0x387, 0x387); (0x483, 0x489); (0x559, 0x559); (0x55F, 0x55F);
  (0x591, 0x5BD); (0x5BF, 0x5BF); (0x5C1, 0x5C2); (0x5C4, 0x5C5); (0x5C7, 0x5C7); (0x5F4, 0x5F4);
  (0x600, 0x605); (0x610, 0x61A); (0x61C, 0x61C); (0x640, 0x640); (0x64B, 0x65F); (0x670, 0x670);
  (0x6D6, 0x6DD); (0x6DF, 0x6E8); (0x6EA, 0x6ED); (0x70F, 0x70F); (0x711, 0x711); (0x730, 0x74A);
  (0x7A6, 0x7B0); (0x7EB, 0x7F5); (0x7FA, 0x7FA); (0x7FD, 0x7FD); (0x816, 0x82D); (0x859, 0x85B);
  (0x888, 0x888); (0x890, 0x891); (0x898, 0x89F); (0x8C9, 0x902); (0x93A, 0x93A); (0x93C, 0x93C);
  (0x941, 0x948); (0x94D, 0x94D); (0x951, 0x957); (0x962, 0x963); (0x971, 0x971); (0x981, 0x981);
  (0x9BC, 0x9BC); (0x9C1, 0x9C4); (0x9CD, 0x9CD); (0x9E2, 0x9E3); (0x9FE, 0x9FE); (0xA01, 0xA02);
  (0xA3C, 0xA3C); (0xA41, 0xA42); (0xA47, 0xA48); (0xA4B, 0xA4D); (0xA51, 0xA51); (0xA70, 0xA71);
  (0xA75, 0xA75); (0xA81, 0xA82); (0xABC, 0xABC); (0xAC1, 0xAC5); (0xAC7, 0xAC8); (0xACD, 0xACD);
  (0xAE2, 0xAE3); (0xAFA, 0xAFF); (0xB01, 0xB01); (0xB3C, 0xB3C); (0xB3F, 0xB3F); (0xB41, 0xB44);
  (0xB4D, 0xB4D); (0xB55, 0xB56); (0xB62, 0xB63); (0xB82, 0xB82); (0xBC0, 0xBC0); (0xBCD, 0xBCD);
  (0xC00, 0xC00); (0xC04, 0xC04); (0xC3C, 0xC3C); (0xC3E, 0xC40); (0xC46, 0xC48); (0xC4A, 0xC4D);
  (0xC55, 0xC56); (0xC62, 0xC63); (0xC81, 0xC81); (0xCBC, 0xCBC); (0xCBF, 0xCBF); (0xCC6, 0xCC6);
  (0xCCC, 0xCCD); (0xCE2, 0xCE3); (0xD00, 0xD01); (0xD3B, 0xD3C); (0xD41, 0xD44); (0xD4D, 0xD4D);
  (0xD62, 0xD63); (0xD81, 0xD81); (0xDCA, 0xDCA); (0xDD2, 0xDD4); (0xDD6, 0xDD6); (0xE31, 0xE31);
  (0xE34, 0xE3A); (0xE46, 0xE4E); (0xEB1, 0xEB1); (0xEB4, 0xEBC); (0xEC6, 0xEC6); (0xEC8, 0xECD);
  (0xF18, 0xF19); (0xF35, 0xF35); (0xF37, 0xF37); (0xF39, 0xF39); (0xF71, 0xF7E); (0xF80, 0xF84);
  (0xF86, 0xF87); (0xF8D, 0xF97); (0xF99, 0xFBC); (0xFC6, 0xFC6); (0x102D, 0x1030); (0x1032, 0x1037);
  (0x1039, 0x103A); (0x103D, 0x103E); (0x1058, 0x1059); (0x105E, 0x1060); (0x1071, 0x1074); (0x1082, 0x1082);
  (0x1085, 0x1086); (0x108D, 0x108D); (0x109D, 0x109D); (0x10FC, 0x10FC); (0x135D, 0x135F); (0x1712, 0x1714);
  (0x1732, 0x1733); (0x1752, 0x1753); (0x1772, 0x1773); (0x17B4, 0x17B5); (0x17B7, 0x17BD); (0x17C6, 0x17C6);
  (0x17C9, 0x17D3); (0x17D7, 0x17D7); (0x17DD, 0x17DD); (0x180B, 0x180F); (0x1843, 0x1843); (0x1885, 0x1886);
  (0x18A9, 0x18A9); (0x1920, 0x1922); (0x1927, 0x1928); (0x1932, 0x1932); (0x1939, 0x193B); (0x1A17, 0x1A18);
  (0x1A1B, 0x1A1B); (0x1A56, 0x1A56); (0x1A58, 0x1A5E); (0x1A60, 0x1A60); (0x1A62, 0x1A62); (0x1A65, 0x1A6C);
  (0x1A73, 0x1A7C); (0x1A7F, 0x1A7F); (0x1AA7, 0x1AA7); (0x1AB0, 0x1ACE); (0x1B00, 0x1B03); (0x1B34, 0x1B34);
  (0x1B36, 0x1B3A); (0x1B3C, 0x1B3C); (0x1B42, 0x1B42); (0x1B6B, 0x1B73); (0x1B80, 0x1B81); (0x1BA2, 0x1BA5);
  (0x1BA8, 0x1BA9); (0x1BAB, 0x1BAD); (0x1BE6, 0x1BE6); (0x1BE8, 0x1BE9); (0x1BED, 0x1BED); (0x1BEF, 0x1BF1);
  (0x1C2C, 0x1C33); (0x1C36, 0x1C37); (0x1C78, 0x1C7D); (0x1CD0, 0x1CD2); (0x1CD4, 0x1CE0); (0x1CE2, 0x1CE8);
  (0x1CED, 0x1CED); (0x1CF4, 0x1CF4); (0x1CF8, 0x1CF9); (0x1D2C, 0x1D6A); (0x1D78, 0x1D78); (0x1D9B, 0x1DFF);
  (0x1FBD, 0x1FBD); (0x1FBF, 0x1FC1); (0x1FCD, 0x1FCF); (0x1FDD, 0x1FDF); (0x1FED, 0x1FEF); (0x1FFD, 0x1FFE);
  (0x200B, 0x200F); (0x2018, 0x2019); (0x2024, 0x2024); (0x2027, 0x2027); (0x202A, 0x202E); (0x2060, 0x2064);
  (0x2066, 0x206F); (0x2071, 0x2071); (0x207F, 0x207F); (0x2090, 0x209C); (0x20D0, 0x20F0); (0x2C7C, 0x2C7D);
  (0x2CEF, 0x2CF1); (0x2D6F, 0x2D6F); (0x2D7F, 0x2D7F); (0x2DE0, 0x2DFF); (0x2E2F, 0x2E2F); (0x3005, 0x3005);
  (0x302A, 0x302D); (0x3031, 0x3035); (0x303B, 0x303B); (0x3099, 0x309E); (0x30FC, 0x30FE); (0xA015, 0xA015);
  (0xA4F8, 0xA4FD); (0xA60C, 0xA60C); (0xA66F, 0xA672); (0xA674, 0xA67D); (0xA67F, 0xA67F); (0xA69C, 0xA69F);
  (0xA6F0, 0xA6F1); (0xA700, 0xA721); (0xA770, 0xA770); (0xA788, 0xA78A); (0xA7F2, 0xA7F4); (0xA7F8, 0xA7F9);
  (0xA802, 0xA802); (0xA806, 0xA806); (0xA80B, 0xA80B); (0xA825, 0xA826); (0xA82C, 0xA82C); (0xA8C4, 0xA8C5);
  (0xA8E0, 0xA8F1); (0xA8FF, 0xA8FF); (0xA926, 0xA92D); (0xA947, 0xA951); (0xA980, 0xA982); (0xA9B3, 0xA9B3);
  (0xA9B6, 0xA9B9); (0xA9BC, 0xA9BD); (0xA9CF, 0xA9CF); (0xA9E5, 0xA9E6); (0xAA29, 0xAA2E); (0xAA31, 0xAA32);
  (0xAA35, 0xAA36); (0xAA43, 0xAA43); (0xAA4C, 0xAA4C); (0xAA70, 0xAA70); (0xAA7C, 0xAA7C); (0xAAB0, 0xAAB0);
  (0xAAB2, 0xAAB4); (0xAAB7, 0xAAB8); (0xAABE, 0xAABF); (0xAAC1, 0xAAC1); (0xAADD, 0xAADD); (0xAAEC, 0xAAED);
  (0xAAF3, 0xAAF4); (0xAAF6, 0xAAF6); (0xAB5B, 0xAB5F); (0xAB69, 0xAB6B); (0xABE5, 0xABE5); (0xABE8, 0xABE8);
  (0xABED, 0xABED); (0xFB1E, 0xFB1E); (0xFBB2, 0xFBC2); (0xFE00, 0xFE0F); (0xFE13, 0xFE13); (0xFE20, 0xFE2F);
  (0xFE52, 0xFE52); (0xFE55, 0xFE55); (0xFEFF, 0xFEFF); (0xFF07, 0xFF07); (0xFF0E, 0xFF0E); (0xFF1A, 0xFF1A);
  (0xFF3E, 0xFF3E); (0xFF40, 0xFF40); (0xFF70, 0xFF70); (0xFF9E, 0xFF9F); (0xFFE3, 0xFFE3); (0xFFF9, 0xFFFB);
  (0x101FD, 0x101FD); (0x102E0, 0x102E0); (0x10376, 0x1037A); (0x10780, 0x10785); (0x10787, 0x107B0); (0x107B2, 0x107BA);
  (0x10A01, 0x10A03); (0x10A05, 0x10A06); (0x10A0C, 0x10A0F); (0x10A38, 0x10A3A); (0x10A3F, 0x10A3F); (0x10AE5, 0x10AE6);
  (0x10D24, 0x10D27); (0x10EAB, 0x10EAC); (0x10F46, 0x10F50); (0x10F82, 0x10F85); (0x11001, 0x11001); (0x11038, 0x11046);
  (0x11070, 0x11070); (0x11073, 0x11074); (0x1107F, 0x11081); (0x110B3, 0x110B6); (0x110B9, 0x110BA); (0x110BD, 0x110BD);
  (0x110C2, 0x110C2); (0x110CD, 0x110CD); (0x11100, 0x11102); (0x11127, 0x1112B); (0x1112D, 0x11134); (0x11173, 0x11173);
  (0x11180, 0x11181); (0x111B6, 0x111BE); (0x111C9, 0x111CC); (0x111CF, 0x111CF); (0x1122F, 0x11231); (0x11234, 0x11234);
  (0x11236, 0x11237); (0x1123E, 0x1123E); (0x112DF, 0x112DF); (0x112E3, 0x112EA); (0x11300, 0x11301); (0x1133B, 0x1133C);
  (0x11340, 0x11340); (0x11366, 0x1136C); (0x11370, 0x11374); (0x11438, 0x1143F); (0x11442, 0x11444); (0x11446, 0x11446);
  (0x1145E, 0x1145E); (0x114B3, 0x114B8); (0x114BA, 0x114BA); (0x114BF, 0x114C0); (0x114C2, 0x114C3); (0x115B2, 0x115B5);
  (0x115BC, 0x115BD); (0x115BF, 0x115C0); (0x115DC, 0x115DD); (0x11633, 0x1163A); (0x1163D, 0x1163D); (0x1163F, 0x11640);
  (0x116AB, 0x116AB); (0x116AD, 0x116AD); (0x116B0, 0x116B5); (0x116B7, 0x116B7); (0x1171D, 0x1171F); (0x11722, 0x11725);
  (0x11727, 0x1172B); (0x1182F, 0x11837); (0x11839, 0x1183A); (0x1193B, 0x1193C); (0x1193E, 0x1193E); (0x11943, 0x11943);
  (0x119D4, 0x119D7); (0x119DA, 0x119DB); (0x119E0, 0x119E0); (0x11A01, 0x11A0A); (0x11A33, 0x11A38); (0x11A3B, 0x11A3E);
  (0x11A47, 0x11A47); (0x11A51, 0x11A56); (0x11A59, 0x11A5B); (0x11A8A, 0x11A96); (0x11A98, 0x11A99); (0x11C30, 0x11C36);
  (0x11C38, 0x11C3D); (0x11C3F, 0x11C3F); (0x11C92, 0x11CA7); (0x11CAA, 0x11CB0); (0x11CB2, 0x11CB3); (0x11CB5, 0x11CB6);
  (0x11D31, 0x11D36); (0x11D3A, 0x11D3A); (0x11D3C, 0x11D3D); (0x11D3F, 0x11D45); (0x11D47, 0x11D47); (0x11D90, 0x11D91);
  (0x11D95, 0x11D95); (0x11D97, 0x11D97); (0x11EF3, 0x11EF4); (0x13430, 0x13438); (0x16AF0, 0x16AF4); (0x16B30, 0x16B36);
  (0x16B40, 0x16B43); (0x16F4F, 0x16F4F); (0x16F8F, 0x16F9F); (0x16FE0, 0x16FE1); (0x16FE3, 0x16FE4); (0x1AFF0, 0x1AFF3);
  (0x1AFF5, 0x1AFFB); (0x1AFFD, 0x1AFFE); (0x1BC9D, 0x1BC9E); (0x1BCA0, 0x1BCA3); (0x1CF00, 0x1CF2D); (0x1CF30, 0x1CF46);
  (0x1D167, 0x1D169); (0x1D173, 0x1D182); (0x1D185, 0x1D18B); (0x1D1AA, 0x1D1AD); (0x1D242, 0x1D244); (0x1DA00, 0x1DA36);
  (0x1DA3B, 0x1DA6C); (0x1DA75, 0x1DA75); (0x1DA84, 0x1DA84); (0x1DA9B, 0x1DA9F); (0x1DAA1, 0x1DAAF); (0x1E000, 0x1E006);
  (0x1E008, 0x1E018); (0x1E01B, 0x1E021); (0x1E023, 0x1E024); (0x1E026, 0x1E02A); (0x1E130, 0x1E13D); (0x1E2AE, 0x1E2AE);
  (0x1E2EC, 0x1E2EF); (0x1E8D0, 0x1E8D6); (0x1E944, 0x1E94B); (0x1F3FB, 0x1F3FF); (0xE0001, 0xE0001); (0xE0020, 0xE007F);
  (0xE0100, 0xE01EF)
]%N.

(** ** [String.prototype.toLowerCase]

    The method reads the string as code points (StringToCodePoints: a
    high surrogate followed by a low surrogate is one code point, any
    other code unit is one by itself), maps them to lower case by the
    Unicode default case conversion, and writes the result as code units
    again (CodePointsToString). *)

Definition isHighSurrogate (u : N) : bool := ((0xD800 <=? u) && (u <=? 0xDBFF))%N.
Definition isLowSurrogate (u : N) : bool := ((0xDC00 <=? u) && (u <=? 0xDFFF))%N.

Fixpoint stringToCodePoints (s : text) : list N :=
  match s with
  | [] => []
  | u :: s' =>
      match s' with
      | l :: s'' =>
          if isHighSurrogate u && isLowSurrogate l
          then (0x10000 + (u - 0xD800) * 0x400 + (l - 0xDC00))%N :: stringToCodePoints s''
          else u :: stringToCodePoints s'
      | [] => [u]
      end
  end.

(** No code point lies from 0x110000 on; a number there is left as it is. *)
Definition codePointToUnits (c : N) : text :=
  if (c <? 0x10000)%N then [c]
  else if (c <? 0x110000)%N
       then [(0xD800 + (c - 0x10000) / 0x400)%N; (0xDC00 + (c - 0x10000) mod 0x400)%N]
       else [c].

Definition codePointsToString (cps : list N) : text := flat_map codePointToUnits cps.

Definition inRanges (ranges : list (N * N)) (c : N) : bool :=
  existsb (fun r => (fst r <=? c) && (c <=? snd r))%N ranges.

Definition cased (c : N) : bool := inRanges casedRanges c.
Definition caseIgnorable (c : N) : bool := inRanges caseIgnorableRanges c.

(** The lower case mapping of one code point outside any context.  U+0130
    is the one code point whose mapping has two code points. *)
Definition lowerPoint (c : N) : list N :=
  if (c <? 128)%N then [lowerASCII c]
  else if (c =? 0x130)%N then [0x69; 0x307]%N
  else match List.find (fun e => (fst e =? c)%N) simpleLowercase with
       | Some e => [snd e]
       | None => [c]
       end.

(** The next code point that is not case-ignorable exists and is cased. *)
Fixpoint casedLetterAhead (cps : list N) : bool :=
  match cps with
  | [] => false
  | c :: cps' => if caseIgnorable c then casedLetterAhead cps' else cased c
  end.

(** The condition Final_Sigma: a cased letter before, none after, case-
    ignorable code points aside.  [before] lists the code points before
    the sigma, the nearest first. *)
Definition finalSigma (before after : list N) : bool :=
  casedLetterAhead before && negb (casedLetterAhead after).

(** The lower case mapping of the code point [c] between the code points
    [before] and [after]: the capital sigma U+03A3 becomes the final
    sigma U+03C2 or the small sigma U+03C3. *)
Definition lowerAt (before : list N) (c : N) (after : list N) : list N :=
  if (c =? 0x3A3)%N
  then [if finalSigma before after then 0x3C2%N else 0x3C3%N]
  else lowerPoint c.

Fixpoint toLowercase (before cps : list N) : list N :=
  match cps with
  | [] => []
  | c :: after => lowerAt before c after ++ toLowercase (c :: before) after
  end.

Definition toLowerCase (s : text) : text :=
  codePointsToString (toLowercase [] (stringToCodePoints s)).

(** ** Regular-expression matching

    A regular expression is given by its anchored matcher: [m s] is the
    text matched when the expression is tried at the head of [s], if it
    matches there.  [matchFirst] is [String.prototype.match] for an
    expression without the [g] flag; [matchAll] is the same method for an
    expression with it: the input is tried position by position and the
    search resumes where the previous match ended.  None of the
    expressions of this program matches the empty text. *)

Definition matcher := text -> option text.

Fixpoint matchFirst (m : matcher) (s : text) : option text :=
  match m s with
  | Some x => Some x
  | None => match s with
            | [] => None
            | _ :: s' => matchFirst m s'
            end
  end.

(** [skip] counts the code units of the current match still to be passed
    over; [pos] is the index of the head of [s] in the whole input. *)
Fixpoint matchAllAt (m : matcher) (skip pos : nat) (s : text) : list (nat * text) :=
  match s with
  | [] => []
  | _ :: s' =>
      match skip with
      | S k => matchAllAt m k (S pos) s'
      | 0 =>
          match m s with
          | Some x => (pos, x) :: matchAllAt m (length x - 1) (S pos) s'
          | None => matchAllAt m 0 (S pos) s'
          end
      end
  end.

Definition matchAllPos (m : matcher) (s : text) : list (nat * text) :=
  matchAllAt m 0 0 s.

Definition matchAll (m : matcher) (s : text) : list text :=
  map snd (matchAllPos m s).

(** ** The technical-depth analyzer *)

Inductive Depth := Beginner | Intermediate | Advanced.

Record Terms := {
  beginner : list text;
  intermediate : list text;
  advanced : list text
}.

Record TechnicalContext := {
  depth : Depth;
  codeBlockCount : nat;
  technicalTerms : Terms;
  prerequisites : list text
}.

Definition technicalTermsDict : Terms := {|
  beginner := map lit ["function"; "variable"; "loop"; "if statement"; "array"]%string;
  intermediate :=
    map lit ["recursion"; "middleware"; "authentication"; "API"; "database"]%string;
  advanced :=
    map lit ["distributed systems"; "microservices"; "kubernetes";
             "machine learning"; "blockchain"]%string
|}.

Definition fence : text := lit "```".

(** The fenced-block expression: an opening fence, then lazily any code
    units up to the next fence. *)
Definition fenceAt : matcher := fun s =>
  if startsWith fence s then
    match breakOn fence (skipn 3 s) with
    | (body, Some _) => Some (fence ++ body ++ fence)
    | (_, None) => None
    end
  else None.

Definition isMarker (c : codeUnit) : bool :=
  N.eqb c (ch "-") || N.eqb c (ch "*").

(** Greedy white space, then greedily the rest of the line: the tail
    shared by the bullet and the heading expressions. *)
Definition spacesThenLine (s : text) : text :=
  takeWhile isSpace s ++ takeWhile notLineTerminator (dropWhile isSpace s).

(** The bullet expression of [extractPrerequisites]: one marker, [-] or
    [*], followed by white space and the rest of the line. *)
Definition bulletAt : matcher := fun s =>
  match s with
  | c :: s' => if isMarker c then Some (c :: spacesThenLine s') else None
  | [] => None
  end.

(** The [replace] of [extractPrerequisites]: the first marker of [item]
    and the white space after it are removed. *)
Definition stripMarker (item : text) : text :=
  match dropWhile (fun c => negb (isMarker c)) item with
  | [] => item
  | _ :: r => takeWhile (fun c => negb (isMarker c)) item ++ dropWhile isSpace r
  end.

(** An optional code unit under the [i] flag, greedy. *)
Definition optionalCI (c : codeUnit) (s : text) : text :=
  match s with
  | x :: s' => if N.eqb (lowerASCII x) (lowerASCII c) then s' else s
  | [] => []
  end.

(** The section expression of [extractPrerequisites], under the [i] flag:
    the word, an optional [s], an optional colon, a lazy group and a
    lookahead for [##] or the end of the input.  The result is capture
    group 1: the lazy group stops at the first [##], or runs to the end of the
    input, where [$] holds; the optional [s] and [:] are therefore never
    given back. *)
Definition prerequisiteAt : matcher := fun s =>
  if startsWithCI (lit "prerequisite") s then
    Some (fst (breakOn (lit "##")
                 (optionalCI (ch ":") (optionalCI (ch "s") (skipn 12 s)))))
  else None.

Definition extractPrerequisites (content : text) : list text :=
  match matchFirst prerequisiteAt content with
  | Some section => map (fun item => trim (stripMarker item)) (matchAll bulletAt section)
  | None => []
  end.

Definition foundIn (content : text) (terms : list text) : list text :=
  List.filter (fun term => includes (toLowerCase content) (toLowerCase term)) terms.

Definition decideDepth (advancedFound intermediateFound blocks : nat) : Depth :=
  if (2 <? advancedFound) || (5 <? blocks) then Advanced
  else if (3 <? intermediateFound) || (2 <? blocks) then Intermediate
  else Beginner.

Definition analyzeTechnicalDepth (content : text) : TechnicalContext :=
  let codeBlockCount := length (matchAll fenceAt content) in
  let foundTerms := {|
    beginner := foundIn content (beginner technicalTermsDict);
    intermediate := foundIn content (intermediate technicalTermsDict);
    advanced := foundIn content (advanced technicalTermsDict)
  |} in
  {| depth := decideDepth (length (advanced foundTerms))
                          (length (intermediate foundTerms)) codeBlockCount;
     codeBlockCount := codeBlockCount;
     technicalTerms := foundTerms;
     prerequisites := extractPrerequisites content |}.

(** ** The content classifier *)

Inductive ContentType := Tutorial | Conceptual | Opinion | Discussion | General.

Record Structure := {
  hasIntroduction_flag : bool;
  hasConclusion_flag : bool;
  sections : list text
}.

Record ContentContext := {
  type : ContentType;
  structure : Structure;
  topics : list text
}.

(** The four genre patterns in declaration order, each an alternation of
    literals under the [i] flag; a class such as [[ -]] is expanded. *)
Definition patterns : list (ContentType * list text) :=
  [ (Tutorial, map lit ["how to"; "how-to"; "guide"; "tutorial";
                        "step by step"; "step by-step";
                        "step-by step"; "step-by-step"]%string);
    (Conceptual, map lit ["understanding"; "explained"; "introduction";
                          "fundamentals"]%string);
    (Opinion, map lit ["opinion"; "thoughts"; "perspective"; "why i"; "why we";
                       "my take"]%string);
    (Discussion, map lit ["discuss"; "thoughts on"; "what do you think"]%string) ].

Definition testAny (alternatives : list text) (s : text) : bool :=
  existsb (fun p => testCI p s) alternatives.

Definition determineContentType (title content : text) : ContentType :=
  match List.find (fun tp => testAny (snd tp) title
                             || testAny (snd tp) (firstn 500 content)) patterns with
  | Some tp => fst tp
  | None => General
  end.

Definition hasIntroduction (content : text) : bool :=
  let firstSection := toLowerCase (hd [] (split (lit "##") content)) in
  includes firstSection (lit "introduction") || (200 <? length firstSection).

Definition hasConclusion (content : text) : bool :=
  let lastSection := toLowerCase (List.last (split (lit "##") content) []) in
  includes lastSection (lit "conclusion")
  || includes lastSection (lit "summary")
  || includes lastSection (lit "final thoughts").

(** The heading expression: [##], white space, the rest of the line. *)
Definition headingAt : matcher := fun s =>
  if startsWith (lit "##") s then Some (lit "##" ++ spacesThenLine (skipn 2 s))
  else None.

Definition extractSections (content : text) : list text :=
  map (fun section => trim (removeFirst (lit "##") section))
      (matchAll headingAt content).

(** The lazy group of the bold expression: code units of one line up to
    the first closing [**]. *)
Fixpoint lazyUntil (close s : text) : option text :=
  if startsWith close s then Some []
  else match s with
       | [] => None
       | c :: s' =>
           if isLineTerminator c then None
           else match lazyUntil close s' with
                | Some body => Some (c :: body)
                | None => None
                end
       end.

(** The bold expression: [**], lazily the code units of one line, [**]. *)
Definition boldAt : matcher := fun s =>
  if startsWith (lit "**") s then
    match lazyUntil (lit "**") (skipn 2 s) with
    | Some body => Some (lit "**" ++ body ++ lit "**")
    | None => None
    end
  else None.

(** A JavaScript [Set] of strings: insertion order, no duplicates. *)
Definition setAdd (s : list text) (x : text) : list text :=
  if decide (x ∈ s) then s else s ++ [x].

Definition headingTopic (heading : text) : text :=
  trim (removeFirst (lit "##") heading).

Definition boldTopic (span : text) : text :=
  trim (removeAll (lit "**") span).

Definition extractTopics (content : text) : list text :=
  let topics := [] in
  let headings := matchAll headingAt content in
  let topics := foldl setAdd topics (map headingTopic headings) in
  let emphasized := matchAll boldAt content in
  let topics := foldl setAdd topics (map boldTopic emphasized) in
  topics.

Definition analyzeContent (title content : text) : ContentContext :=
  {| type := determineContentType title content;
     structure := {| hasIntroduction_flag := hasIntroduction content;
                     hasConclusion_flag := hasConclusion content;
                     sections := extractSections content |};
     topics := extractTopics content |}.

(** ** Numbers *)

Definition number := spec_float.

Definition plus (x y : number) : number := SFadd 53 1024 x y.

Definition divide (x y : number) : number := SFdiv 53 1024 x y.

(** The number an integer literal or an array length denotes: the
    integer itself as far as 2^53, the nearest double beyond. *)
Definition ofInteger (z : Z) : number := binary_normalize 53 1024 z 0 false.

(** [Math.round]: the integer nearest to [x], the larger one of two
    equally near; the sign of [x] stays when the result is zero.  A
    finite [x] is [m * 2^e] up to its sign, and is an integer already
    when [e] is not negative. *)
Definition mathRound (x : number) : number :=
  match x with
  | S754_finite s m e =>
      if (0 <=? e)%Z then x
      else
        let k := ((2 * cond_Zopp s (Z.pos m) + 2 ^ (- e)) / 2 ^ (1 - e))%Z in
        if (k =? 0)%Z then S754_zero s else ofInteger k
  | _ => x
  end.

(** ** The author profiler: average reactions *)

Record Article := {
  tags : list text;
  public_reactions_count : number
}.

Definition calculateAverageReactions (articles : list Article) : number :=
  if length articles =? 0 then ofInteger 0
  else
    let total :=
      foldl (fun sum article => plus sum (public_reactions_count article))
            (ofInteger 0) articles in
    mathRound (divide total (ofInteger (Z.of_nat (length articles)))).

(** ** Comments *)

Record DevToUser := {
  username : text
}.

(** A comment record as the provider returns it.  [parent_id] is [None]
    when the property is absent or [null].  The [children] property is a
    mutable array of references and lives in the heap of
    [buildCommentTree]. *)
Record DevToComment := {
  id : Z;
  parent_id : option Z;
  body_markdown : text;
  user : DevToUser
}.

(** ** The discussion analyzer *)

Inductive Quality := High | Medium | Low.
Inductive Sentiment := Positive | Neutral | Negative.

Record ExpertContributions := {
  count : nat;
  authors : list text
}.

Record DiscussionContext := {
  quality : Quality;
  sentiment : Sentiment;
  discussionTopics : list text;
  expertContributions : ExpertContributions
}.

Definition totalLength (comments : list DevToComment) : nat :=
  foldl (fun sum comment => sum + length (body_markdown comment)) 0 comments.

(** [total / n > k] on numbers; [0 / 0] is [NaN], which compares false. *)
Definition averageExceeds (total n k : nat) : bool :=
  if n =? 0 then false else k * n <? total.

Definition qualityOf (comments : list DevToComment) : Quality :=
  let total := totalLength comments in
  let n := length comments in
  let hasCodeBlocks := existsb (fun comment => includes (body_markdown comment) fence) comments in
  let hasLinks := existsb (fun comment => includes (body_markdown comment) (lit "http")) comments in
  if averageExceeds total n 200 && (hasCodeBlocks || hasLinks) then High
  else if averageExceeds total n 100 then Medium
  else Low.

Definition positivePatterns : list text :=
  map lit ["great"; "awesome"; "thanks"; "helpful"; "good"; "excellent"]%string.

Definition negativePatterns : list text :=
  map lit ["bad"; "wrong"; "incorrect"; "disagree"; "issue"; "problem"]%string.

Definition analyzeCommentSentiment (comments : list DevToComment) : Sentiment :=
  let positiveCount :=
    length (List.filter (fun c => testAny positivePatterns (body_markdown c)) comments) in
  let negativeCount :=
    length (List.filter (fun c => testAny negativePatterns (body_markdown c)) comments) in
  if negativeCount * 2 <? positiveCount then Positive
  else if positiveCount * 2 <? negativeCount then Negative
  else Neutral.

(** [s.split(/\W+/)]: the pieces between the maximal runs of non-word code
    units.  [inSeparator] tells that the previous code unit was one;
    [word] is the piece being read. *)
Fixpoint splitNonWord (inSeparator : bool) (word s : text) : list text :=
  match s with
  | [] => [word]
  | c :: s' =>
      if isWord c then splitNonWord false (word ++ [c]) s'
      else if inSeparator then splitNonWord true word s'
      else word :: splitNonWord true [] s'
  end.

Definition extractDiscussionTopics (comments : list DevToComment) : list text :=
  let topics :=
    foldl (fun topics comment =>
             foldl (fun topics word =>
                      if 4 <? length word then setAdd topics (toLowerCase word)
                      else topics)
                   topics (splitNonWord false [] (body_markdown comment)))
          [] comments in
  firstn 10 topics.

(** Lines 225-238. *)
Definition identifyExpertContributions (comments : list DevToComment)
  : ExpertContributions :=
  let expertComments :=
    List.filter (fun comment =>
                   (300 <? length (body_markdown comment))
                   && (includes (body_markdown comment) fence
                       || includes (body_markdown comment) (lit "http")))
                comments in
  let expertAuthors :=
    foldl setAdd [] (map (fun comment => username (user comment)) expertComments) in
  {| count := length expertComments; authors := expertAuthors |}.

(** [content-analysis.ts] holds two declarations of each exported function
    and of each helper but [identifyExpertContributions].  The
    declarations of lines 1-238 that differ from those of lines 240-446
    are in this module; the others are embedded once. *)
Module Earlier.

(** Lines 177-193. *)
Definition determineDiscussionQuality (comments : list DevToComment) : Quality :=
  qualityOf comments.

(** Lines 75-87. *)
Definition analyzeDiscussion (comments : list DevToComment) : DiscussionContext :=
  {| quality := determineDiscussionQuality comments;
     sentiment := analyzeCommentSentiment comments;
     discussionTopics := extractDiscussionTopics comments;
     expertContributions := identifyExpertContributions comments |}.

End Earlier.

(** Lines 398-416. *)
Definition determineDiscussionQuality (comments : list DevToComment) : Quality :=
  if length comments =? 0 then Low else qualityOf comments.

(** Lines 302-313, the later declaration. *)
Definition analyzeDiscussion (comments : list DevToComment) : DiscussionContext :=
  {| quality := determineDiscussionQuality comments;
     sentiment := analyzeCommentSentiment comments;
     discussionTopics := extractDiscussionTopics comments;
     expertContributions :=
       {| count :=
            length (List.filter (fun c => 300 <? length (body_markdown c)) comments);
          authors :=
            foldl setAdd []
              (map (fun c => username (user c))
                   (List.filter (fun c => 300 <? length (body_markdown c)) comments)) |} |}.

(** ** The comment-tree builder

    The elements of the input array are distinct objects; the object at
    index [i] is referred to by [i].  The builder mutates the [children]
    arrays of these objects through the references held in [commentMap],
    so the arrays live in a heap from references to arrays of references.
    Reading [children] of an object that has none raises. *)

Record Tree := {
  rootComments : list nat;
  children : gmap nat (list nat)
}.

Definition indexed (comments : list DevToComment) : list (nat * DevToComment) :=
  imap (fun i comment => (i, comment)) comments.

(** First pass, one iteration. *)
Definition register (st : gmap nat (list nat) * gmap Z nat) (ic : nat * DevToComment)
  : gmap nat (list nat) * gmap Z nat :=
  (<[fst ic := []]> (fst st), <[id (snd ic) := fst ic]> (snd st)).

(** [parentComment.children.push(comment)] *)
Definition push (heap : gmap nat (list nat)) (parent child : nat)
  : option (gmap nat (list nat)) :=
  match heap !! parent with
  | Some cs => Some (<[parent := cs ++ [child]]> heap)
  | None => None
  end.

(** The test of line 99: the property is present and its value is truthy. *)
Definition declaredParent (comment : DevToComment) : option Z :=
  match parent_id comment with
  | Some p => if decide (p = 0%Z) then None else Some p
  | None => None
  end.

(** Second pass, one iteration. *)
Definition attach (commentMap : gmap Z nat) (t : Tree) (ic : nat * DevToComment)
  : option Tree :=
  match declaredParent (snd ic) with
  | Some p =>
      match commentMap !! p with
      | Some parentComment =>
          heap ← push (children t) parentComment (fst ic);
          Some {| rootComments := rootComments t; children := heap |}
      | None => Some t
      end
  | None =>
      Some {| rootComments := rootComments t ++ [fst ic]; children := children t |}
  end.

(** [None] stands for a raised exception. *)
Definition buildCommentTree (comments : list DevToComment) : option Tree :=
  let '(heap, commentMap) := foldl register (∅, ∅) (indexed comments) in
  foldl (fun acc ic => t ← acc; attach commentMap t ic)
        (Some {| rootComments := []; children := heap |})
        (indexed comments).

(** The children array of an object; an object without one has no child. *)
Definition childrenOf (heap : gmap nat (list nat)) (r : nat) : list nat :=
  default [] (heap !! r).

(** Pre-order traversal of the output, to the given depth: a node, then
    the traversals of its children in the order of its array. *)
Fixpoint preorder (heap : gmap nat (list nat)) (depth : nat) (r : nat) : list nat :=
  match depth with
  | 0 => []
  | S d => r :: flat_map (preorder heap d) (childrenOf heap r)
  end.

(** The nodes [k] parent links below the nodes of [L]. *)
Fixpoint level (heap : gmap nat (list nat)) (k : nat) (L : list nat) : list nat :=
  match k with
  | 0 => L
  | S k' => flat_map (childrenOf heap) (level heap k' L)
  end.

(** The number of parent links between a node and its root, in a forest
    given by its roots [tops] and its parent links [par]. *)
Inductive depthAt (tops : list nat) (par : nat -> option nat) : nat -> nat -> Prop :=
| depthAt_top r : r ∈ tops -> depthAt tops par 0 r
| depthAt_kid k i j :
    par i = Some j -> depthAt tops par k j -> depthAt tops par (S k) i.

Definition flatten (depth : nat) (t : Tree) : list nat :=
  flat_map (preorder (children t) depth) (rootComments t).

Definition identities (comments : list DevToComment) (refs : list nat) : list Z :=
  omap (fun r => id <$> comments !! r) refs.


(** ** Notions used to state the properties *)

(** The line feed. *)
Definition nl : string := String "010"%char EmptyString.

(** A comment record with the given identity and parent identity. *)
Definition mk (i : Z) (p : option Z) : DevToComment :=
  {| id := i; parent_id := p; body_markdown := []; user := {| username := [] |} |}.

(** [p] occurs in [s]. *)
Definition contains (s p : text) : Prop :=
  exists a b, s = a ++ p ++ b.

(** [p] occurs in [s] up to letter case: some piece of [s] differs from
    [p] in the case of ASCII letters at most. *)
Definition containsCI (s p : text) : Prop :=
  exists a m b, s = a ++ m ++ b /\ foldCase m = foldCase p.

(** The order beginner < intermediate < advanced. *)
Definition tier (d : Depth) : nat :=
  match d with
  | Beginner => 0
  | Intermediate => 1
  | Advanced => 2
  end.

(** The comment of the discussion analyzer, as far as it reads it. *)
Definition comment (body author : text) : DevToComment :=
  {| id := 0; parent_id := None; body_markdown := body;
     user := {| username := author |} |}.

(** The sum of a list of integers. *)
Definition sumZ (l : list Z) : Z := fold_right Z.add 0%Z l.

(** The integer nearest to [t / n] for [n > 0], the larger one of two
    equally near. *)
Definition roundQuotient (t n : Z) : Z := ((2 * t + n) / (2 * n))%Z.

(** An article with the given reaction count. *)
Definition article (count : Z) : Article :=
  {| tags := []; public_reactions_count := ofInteger count |}.

(** The lookup built by the first pass. *)
Definition commentMapOf (comments : list DevToComment) : gmap Z nat :=
  snd (foldl register (∅, ∅) (indexed comments)).

(** The object the second pass attaches the comment at index [i] to. *)
Definition parentRef (comments : list DevToComment) (i : nat) : option nat :=
  c ← comments !! i; p ← declaredParent c; commentMapOf comments !! p.

(** The comment at index [i] takes the root branch of the second pass. *)
Definition top (comments : list DevToComment) (i : nat) : Prop :=
  exists c, comments !! i = Some c /\ declaredParent c = None.

(** The parent chain of a comment ends at a comment that declares no
    parent: every declared parent is in the input, and no chain runs into
    a cycle. *)
Inductive rooted (comments : list DevToComment) : DevToComment -> Prop :=
| rooted_top c :
    c ∈ comments -> declaredParent c = None -> rooted comments c
| rooted_reply c c' :
    c ∈ comments -> declaredParent c = Some (id c') -> rooted comments c' ->
    rooted comments c.

(** The statement read off the failure semantics of the builder: a
    comment whose declared parent is not in the input, or is the comment
    itself, is a root. *)
Definition orphans_become_roots (comments : list DevToComment) : Prop :=
  exists t,
    buildCommentTree comments = Some t
    /\ forall i c p,
        comments !! i = Some c -> parent_id c = Some p ->
        p ∉ map id comments \/ p = id c ->
        i ∈ rootComments t.

(** The round trip: the pre-order traversal of the output lists the
    identities of the input, each once. *)
Definition roundtrip (comments : list DevToComment) : Prop :=
  exists t,
    buildCommentTree comments = Some t
    /\ forall d, length comments <= d ->
                 identities comments (flatten d t) ≡ₚ map id comments.

(** A list without its repetitions: every element stays at its first
    occurrence. *)
Fixpoint dedupFirst (l : list text) : list text :=
  match l with
  | [] => []
  | x :: l' => x :: filter (fun y => y <> x) (dedupFirst l')
  end.

(** A comment qualifies as an expert contribution. *)
Definition qualifies (c : DevToComment) : Prop :=
  300 < length (body_markdown c)
  /\ (contains (body_markdown c) fence \/ contains (body_markdown c) (lit "http")).

(** The topic matches of a body with their positions, ordered by position:
    the order of appearance in the document. *)
Fixpoint insertByPosition (x : nat * text) (l : list (nat * text)) : list (nat * text) :=
  match l with
  | [] => [x]
  | y :: l' => if fst x <=? fst y then x :: l else y :: insertByPosition x l'
  end.

Definition topicsInDocumentOrder (content : text) : list text :=
  map snd
    (fold_right insertByPosition []
       (map (fun m => (fst m, headingTopic (snd m))) (matchAllPos headingAt content)
        ++ map (fun m => (fst m, boldTopic (snd m))) (matchAllPos boldAt content))).

(** The word that introduces the prerequisite section. *)
Definition keyword : text := lit "prerequisite".

(** What the section expression captures in the text after the word: past
    an optional [s] and an optional colon, up to the first [##] or the
    end. *)
Definition sectionOf (rest : text) : text :=
  fst (breakOn (lit "##") (optionalCI (ch ":") (optionalCI (ch "s") rest))).

(** The items a left-to-right scan for markers yields: the text before the
    first marker holds none; after the marker comes white space, then the
    item up to the end of its line, and the scan goes on behind it. *)
Inductive markedItems : text -> list text -> Prop :=
| marked_none s :
    Forall (fun c => isMarker c = false) s -> markedItems s []
| marked_item before m ws item rest items :
    Forall (fun c => isMarker c = false) before ->
    isMarker m = true ->
    Forall (fun c => isSpace c = true) ws ->
    Forall (fun c => isLineTerminator c = false) item ->
    (forall c item', item = c :: item' -> isSpace c = false) ->
    (forall c rest', rest = c :: rest' -> isLineTerminator c = true /\ item <> []) ->
    markedItems rest items ->
    markedItems (before ++ m :: ws ++ item ++ rest) (trim item :: items).

(** The reading by lines: the lines of the section whose first code unit
    after the indentation is a marker, without marker, trimmed. *)
Definition isBulletLine (line : text) : bool :=
  match trimStart line with
  | c :: _ => isMarker c
  | [] => false
  end.

Definition prerequisitesByLine (content : text) : list text :=
  match matchFirst prerequisiteAt content with
  | Some section =>
      map (fun line => trim (skipn 1 (trimStart line)))
          (List.filter isBulletLine (split (lit nl) section))
  | None => []
  end.

(** ** The author profiler *)

(** A JavaScript [Map] from tags to counts: the entries in insertion
    order, every key once. *)
Fixpoint mapGet (m : list (text * nat)) (k : text) : option nat :=
  match m with
  | [] => None
  | (k', v) :: m' => if decide (k' = k) then Some v else mapGet m' k
  end.

(** [m.set(k, v)]: an existing key keeps its place. *)
Fixpoint mapSet (m : list (text * nat)) (k : text) (v : nat) : list (text * nat) :=
  match m with
  | [] => [(k, v)]
  | (k', v') :: m' => if decide (k' = k) then (k, v) :: m' else (k', v') :: mapSet m' k v
  end.

(** The body of the inner loop of [determineExpertise]. *)
Definition countTag (tagCounts : list (text * nat)) (tag : text) : list (text * nat) :=
  mapSet tagCounts tag (default 0 (mapGet tagCounts tag) + 1).

Definition tagCountsOf (articles : list Article) : list (text * nat) :=
  foldl (fun tagCounts article => foldl countTag tagCounts (tags article)) [] articles.

(** [Array.prototype.sort] with the comparator [(a, b) => b[1] - a[1]].
    The method is a stable sort, so its result is the one insertion from
    the right gives: an entry goes in front of the first entry whose count
    is not larger. *)
Fixpoint insertEntry (x : text * nat) (l : list (text * nat)) : list (text * nat) :=
  match l with
  | [] => [x]
  | y :: l' => if snd y <=? snd x then x :: l else y :: insertEntry x l'
  end.

Definition sortEntries (l : list (text * nat)) : list (text * nat) :=
  fold_right insertEntry [] l.

Definition determineExpertise (articles : list Article) : list text :=
  map fst (firstn 5 (sortEntries (tagCountsOf articles))).

(** What [analyzeAuthor] reads of its first argument. *)
Record Author := {
  name : text;
  joined_at : text
}.

Record Credibility := {
  joinDate : text;
  articleCount : nat;
  averageReactions : number
}.

Record AuthorContext := {
  author_name : text;
  expertise : list text;
  credibility : Credibility
}.

Definition analyzeAuthor (author : Author) (articles : list Article) : AuthorContext :=
  {| author_name := name author;
     expertise := determineExpertise articles;
     credibility := {| joinDate := joined_at author;
                       articleCount := length articles;
                       averageReactions := calculateAverageReactions articles |} |}.

(** ** The article request *)

Definition baseUrl : text := lit "https://dev.to/api".

(** The first two statements of [getArticleByUrl]: the last piece of the
    URL split at the slashes. *)
Definition articleIdOf (url : text) : text :=
  List.last (split (lit "/") url) [].

(** The address [getArticleByUrl] requests. *)
Definition articleRequest (url : text) : text :=
  baseUrl ++ lit "/articles/" ++ articleIdOf url.

(** ** The discussion handler

    The handler imports [analyzeDiscussion] from [utils/analysis.js]; the
    function is taken to be the one of [utils/content-analysis.ts]. *)

(** The array [getArticleComments] resolves to: the root objects of the
    tree. *)
Definition rootObjects (comments : list DevToComment) (t : Tree) : list DevToComment :=
  omap (fun r => comments !! r) (rootComments t).

Record Metrics := {
  totalComments : nat;
  threadCount : nat;
  participantCount : nat
}.

(** The [metrics] object of the [analyze_discussion] handler, computed on
    the array [getArticleComments] resolved to. *)
Definition metricsOf (comments : list DevToComment) : Metrics :=
  {| totalComments := length comments;
     threadCount :=
       length (List.filter (fun comment =>
                              match parent_id comment with
                              | Some p => Z.eqb p 0
                              | None => true
                              end) comments);
     participantCount :=
       length (foldl setAdd [] (map (fun comment => username (user comment)) comments)) |}.

(** ** Further notions used to state the properties *)

(** The number of times [t] occurs in [l]. *)
Definition occ (l : list text) (t : text) : nat := length (filter (fun x => x = t) l).

(** The number of times a tag is given among all articles. *)
Definition occurrences (articles : list Article) (tag : text) : nat :=
  occ (flat_map tags articles) tag.

(** The pieces joined again, the separator between them. *)
Fixpoint join (sep : text) (pieces : list text) : text :=
  match pieces with
  | [] => []
  | [p] => p
  | p :: ps => p ++ sep ++ join sep ps
  end.

(** A text without white space at either end. *)
Definition trimmed (s : text) : Prop :=
  (forall c r, s = c :: r -> isSpace c = false)
  /\ (forall r c, s = r ++ [c] -> isSpace c = false).

(** [x] stands before [y] in [l]. *)
Definition before {A : Type} (l : list A) (x y : A) : Prop :=
  exists a b c, l = a ++ x :: b ++ y :: c.

(** The order the comparator of [determineExpertise] sorts by. *)
Definition byCount (x y : text * nat) : Prop := snd y <= snd x.

(** [x] stands before [y] in a list, read from the head of the list. *)
Inductive precedes {A : Type} (x y : A) : list A -> Prop :=
| precedes_here l : y ∈ l -> precedes x y (x :: l)
| precedes_later z l : precedes x y l -> precedes x y (z :: l).

(** How [toLowerCase] acts on the ASCII range.  A code unit below 128
    becomes its [lowerASCII]; U+0130 becomes [i] and U+0307; the Kelvin
    sign U+212A becomes [k]; any other run of code units from 128 on
    becomes a run of such code units.  [toLowerCase] relates every text to
    its result in this way, so an ASCII code unit of the result stems
    from an ASCII code unit, from U+0130 or from U+212A. *)
Inductive lowersTo : text -> text -> Prop :=
| lowers_nil : lowersTo [] []
| lowers_ascii c s t :
    (c < 128)%N -> lowersTo s t -> lowersTo (c :: s) (lowerASCII c :: t)
| lowers_dotted s t :
    lowersTo s t -> lowersTo (0x130%N :: s) (0x69%N :: 0x307%N :: t)
| lowers_kelvin s t :
    lowersTo s t -> lowersTo (0x212A%N :: s) (0x6B%N :: t)
| lowers_other x y s t :
    x <> [] -> y <> [] ->
    Forall (fun c => (128 <= c)%N) x -> Forall (fun c => (128 <= c)%N) y ->
    lowersTo s t -> lowersTo (x ++ s) (y ++ t).

(** A pattern that [toLowerCase] can neither produce nor destroy: ASCII
    code units in lower case, no [k], and no [i] at the end. *)
Definition plain (p : text) : Prop :=
  Forall (fun c => (c < 128)%N /\ c <> 0x6B%N) p
  /\ foldCase p = p
  /\ last p <> Some 0x69%N.

(** No high surrogate is followed by a low surrogate. *)
Fixpoint unpaired (cps : list N) : Prop :=
  match cps with
  | c :: r =>
      match r with
      | d :: _ => ~ (isHighSurrogate c = true /\ isLowSurrogate d = true)
      | [] => True
      end /\ unpaired r
  | [] => True
  end.

(** The head of a list of code points is a low surrogate. *)
Definition headLow (l : list N) : Prop :=
  match l with
  | d :: _ => isLowSurrogate d = true
  | [] => False
  end.

(** The double of a positive integer below 2^53: the integer shifted to a
    mantissa of 53 binary digits, and the exponent that shifts it back. *)
Definition normal (z : Z) : number :=
  S754_finite false (Z.to_pos (z * 2 ^ (53 - Zdigits2 z))) (Zdigits2 z - 53).

(** ** What a left-to-right scan of a text finds *)

(** The fenced code blocks: when the text holds no two fences one behind
    the other, none; otherwise the first block opens at the first fence
    of the text and closes at the first fence behind the opening one, and
    the scan goes on behind the closing fence. *)
Inductive fencedBlocks : text -> list text -> Prop :=
| fenced_none s :
    (forall a body b, s <> a ++ fence ++ body ++ fence ++ b) ->
    fencedBlocks s []
| fenced_block before body rest blocks :
    ~ contains (before ++ lit "``") fence ->
    ~ contains (body ++ lit "``") fence ->
    fencedBlocks rest blocks ->
    fencedBlocks (before ++ fence ++ body ++ fence ++ rest)
                 ((fence ++ body ++ fence) :: blocks).

(** The term occurs in the body, both taken in lower case. *)
Definition occursIn (content term : text) : Prop :=
  contains (toLowerCase content) (toLowerCase term).

(** The heading texts: the text holds no [##], or the first [##] is
    followed by white space, then by the heading text up to the end of
    its line, and the scan goes on behind that line. *)
Inductive headingTexts : text -> list text -> Prop :=
| headings_none s :
    ~ contains s (lit "##") -> headingTexts s []
| headings_item before ws item rest items :
    ~ contains (before ++ lit "#") (lit "##") ->
    Forall (fun c => isSpace c = true) ws ->
    Forall (fun c => isLineTerminator c = false) item ->
    (forall c item', item = c :: item' -> isSpace c = false) ->
    (forall c rest', rest = c :: rest' -> isLineTerminator c = true /\ item <> []) ->
    headingTexts rest items ->
    headingTexts (before ++ lit "##" ++ ws ++ item ++ rest) (trim item :: items).

(** A bold span starts at the head of the text: [**], code units of one
    line, [**]. *)
Definition opensSpan (s : text) : Prop :=
  exists body rest,
    s = lit "**" ++ body ++ lit "**" ++ rest
    /\ Forall (fun c => isLineTerminator c = false) body.

(** The bold spans: no span starts anywhere in the text, or the first
    span starts behind [before], its body runs to the first [**] behind
    the opening one, and the scan goes on behind the closing [**]. *)
Inductive boldSpans : text -> list text -> Prop :=
| bold_none s :
    (forall a b, s = a ++ b -> ~ opensSpan b) -> boldSpans s []
| bold_item before body rest items :
    (forall a c b, before = a ++ c :: b ->
                   ~ opensSpan (c :: b ++ lit "**" ++ body ++ lit "**" ++ rest)) ->
    Forall (fun c => isLineTerminator c = false) body ->
    ~ contains (body ++ lit "*") (lit "**") ->
    boldSpans rest items ->
    boldSpans (before ++ lit "**" ++ body ++ lit "**" ++ rest) (trim body :: items).

(** ** Behaviour on concrete inputs *)

Example fences_are_paired_left_to_right :
  matchAll fenceAt (lit "a```x```b````c```d``` ```")
  = [lit "```x```"; lit "````c```"; lit "``` ```"].
Proof. vm_compute. reflexivity. Qed.

Example scenario_depth_and_prerequisites :
  let body :=
    lit ("## Prerequisites" ++ nl ++ "- node" ++ nl ++ "- npm" ++ nl
         ++ "## Intro" ++ nl ++ "Kubernetes and blockchain." ++ nl
         ++ "```a``` ```b``` ```c```") in
  let r := analyzeTechnicalDepth body in
  depth r = Intermediate
  /\ codeBlockCount r = 3
  /\ advanced (technicalTerms r) = [lit "kubernetes"; lit "blockchain"]
  /\ prerequisites r = [lit "node"; lit "npm"].
Proof. vm_compute. repeat split; reflexivity. Qed.

Example marker_inside_a_line :
  extractPrerequisites (lit "prerequisites: node-js, a * b") = [lit "js, a * b"].
Proof. vm_compute. reflexivity. Qed.

Example topics_of_headings_and_bold :
  extractTopics (lit ("**a** and ## b **c** " ++ nl ++ "## **b** ***d** ** a **"))
  = [lit "b **c**"; lit "**b** ***d** ** a **"; lit "a"; lit "c"; lit "b"; lit "*d"].
Proof. vm_compute. reflexivity. Qed.

Example average_rounds_half_up :
  calculateAverageReactions [article 1; article 2] = ofInteger 2.
Proof. vm_compute. reflexivity. Qed.

Example scenario_tree :
  (fun t => (rootComments t, childrenOf (children t) 0, flatten 3 t))
    <$> buildCommentTree [mk 1 None; mk 2 (Some 1%Z); mk 3 (Some 99%Z)]
  = Some ([0], [1], [0; 1]).
Proof. vm_compute. reflexivity. Qed.

Example tree_self_parent :
  (fun t => (rootComments t, childrenOf (children t) 0))
    <$> buildCommentTree [mk 4 (Some 4%Z)]
  = Some ([], [0]).
Proof. vm_compute. reflexivity. Qed.

Example tree_cycle :
  (fun t => (rootComments t, flatten 5 t))
    <$> buildCommentTree [mk 1 (Some 2%Z); mk 2 (Some 1%Z)]
  = Some ([], []).
Proof. vm_compute. reflexivity. Qed.

Example tree_out_of_order :
  (fun t => identities [mk 2 (Some 1%Z); mk 1 None; mk 3 (Some 2%Z); mk 4 (Some 1%Z)]
              (flatten 4 t))
    <$> buildCommentTree [mk 2 (Some 1%Z); mk 1 None; mk 3 (Some 2%Z); mk 4 (Some 1%Z)]
  = Some [1; 2; 3; 4]%Z.
Proof. vm_compute. reflexivity. Qed.

Example discussion_quality_scenario :
  let long := comment (repeat (ch "x") 250) (lit "a") in
  let code := comment (repeat (ch "x") 247 ++ fence) (lit "b") in
  quality (analyzeDiscussion [long; long; code; long; long]) = High
  /\ quality (analyzeDiscussion []) = Low
  /\ sentiment (analyzeDiscussion []) = Neutral.
Proof. vm_compute. repeat split; reflexivity. Qed.

Example scenario_expertise :
  let go := {| tags := [lit "go"]; public_reactions_count := ofInteger 0 |} in
  let rust := {| tags := [lit "rust"]; public_reactions_count := ofInteger 0 |} in
  let ts := {| tags := [lit "ts"]; public_reactions_count := ofInteger 0 |} in
  determineExpertise [ts; go; rust; go; go; rust; go; go; rust; go]
  = [lit "go"; lit "rust"; lit "ts"].
Proof. vm_compute. reflexivity. Qed.

Example expertise_ties_keep_first_seen :
  determineExpertise
    [ {| tags := [lit "a"; lit "b"; lit "c"; lit "b"]; public_reactions_count := ofInteger 0 |};
      {| tags := [lit "d"; lit "e"; lit "f"; lit "c"]; public_reactions_count := ofInteger 0 |} ]
  = [lit "b"; lit "c"; lit "a"; lit "d"; lit "e"].
Proof. vm_compute. reflexivity. Qed.

Example article_id_of_urls :
  articleIdOf (lit "https://dev.to/ann/my-post-1a2b") = lit "my-post-1a2b"
  /\ articleIdOf (lit "https://dev.to/ann/my-post-1a2b/") = lit ""
  /\ articleIdOf (lit "12345") = lit "12345".
Proof. vm_compute. repeat split; reflexivity. Qed.

Example lower_case_of_non_ascii_letters :
  toLowerCase [0x130; ch "X"]%N = [ch "i"; 0x307; ch "x"]%N
  /\ toLowerCase [0x212A]%N = lit "k"
  /\ toLowerCase [0x39F; 0x3A3; 0x20; 0x3A3; 0x39F]%N = [0x3BF; 0x3C2; 0x20; 0x3C3; 0x3BF]%N
  /\ toLowerCase [0xD801; 0xDC00]%N = [0xD801; 0xDC28]%N
  /\ toLowerCase [0xDC00; 0xD801]%N = [0xDC00; 0xD801]%N.
Proof. vm_compute. repeat split; reflexivity. Qed.

Example lower_case_can_lengthen :
  length (toLowerCase (0x130%N :: repeat (ch "x") 199)) = 201.
Proof. vm_compute. reflexivity. Qed.

Example heading_of_third_level :
  extractTopics (lit "### Deep dive") = [lit "# Deep dive"].
Proof. vm_compute. reflexivity. Qed.

Example genre_folds_ascii_only :
  determineContentType (lit "my take") (lit "") = Opinion
  /\ determineContentType (lit "My TAKE") (lit "") = Opinion
  /\ determineContentType (lit "my ta" ++ [0x212A%N] ++ lit "e") (lit "") = General.
Proof. vm_compute. repeat split; reflexivity. Qed.

Example average_of_large_counts :
  calculateAverageReactions [article 6755399441055745; article 0; article 0]
  = ofInteger 2251799813685249
  /\ roundQuotient 6755399441055745 3 = 2251799813685248%Z.
Proof. vm_compute. split; reflexivity. Qed.

(** ** Facts about the text primitives *)

Lemma startsWith_iff p s : startsWith p s = true <-> exists b, s = p ++ b.
Proof.
  revert s; induction p as [|a p IH]; intros s; simpl.
  - split; eauto.
  - destruct s as [|c s].
    + split; [discriminate | intros [b Hb]; discriminate].
    + rewrite andb_true_iff, N.eqb_eq, IH. split.
      * intros [-> [b ->]]. eauto.
      * intros [b Hb]. injection Hb as -> ->. eauto.
Qed.

Lemma includes_iff s p : includes s p = true <-> contains s p.
Proof.
  unfold contains. induction s as [|c s IH]; simpl.
  - rewrite orb_false_r, startsWith_iff. split.
    + intros [b Hb]. exists [], b. exact Hb.
    + intros (a & b & Hab). destruct a; [|discriminate]. eauto.
  - rewrite orb_true_iff, startsWith_iff, IH. split.
    + intros [[b Hb] | (a & b & ->)].
      * exists [], b. exact Hb.
      * exists (c :: a), b. reflexivity.
    + intros (a & b & Hab). destruct a as [|c' a].
      * left. eauto.
      * right. injection Hab as -> ->. eauto.
Qed.

Lemma foldCase_app a b : foldCase (a ++ b) = foldCase a ++ foldCase b.
Proof. apply map_app. Qed.

Lemma foldCase_length s : length (foldCase s) = length s.
Proof. apply length_map. Qed.

Lemma includes_fold_iff s p :
  includes (foldCase s) (foldCase p) = true <-> containsCI s p.
Proof.
  rewrite includes_iff. unfold contains, containsCI, foldCase. split.
  - intros (a & b & H).
    apply map_eq_app in H as (a' & r & -> & Ha & Hr).
    apply map_eq_app in Hr as (m & b' & -> & Hm & Hb).
    exists a', m, b'. split; [reflexivity | exact Hm].
  - intros (a & m & b & -> & Hm).
    exists (map lowerASCII a), (map lowerASCII b).
    rewrite !map_app. now rewrite Hm.
Qed.

Lemma breakOn_absent sep s : includes s sep = false -> breakOn sep s = (s, None).
Proof.
  induction s as [|c s IH]; simpl; intros H; apply orb_false_iff in H as [H1 H2].
  - destruct sep; [discriminate | reflexivity].
  - destruct sep as [|x sep]; [discriminate|].
    simpl in H1. simpl. rewrite H1, (IH H2). reflexivity.
Qed.

Lemma split_absent sep s : includes s sep = false -> split sep s = [s].
Proof. intros H. unfold split. simpl. now rewrite breakOn_absent. Qed.

Lemma foundIn_iff (content : text) (terms : list text) (t : text) :
  t ∈ foundIn content terms
  <-> t ∈ terms /\ contains (toLowerCase content) (toLowerCase t).
Proof.
  unfold foundIn. rewrite !list_elem_of_In, filter_In, includes_iff. done.
Qed.

Lemma breakOn_length (sep s pre post : text) :
  breakOn sep s = (pre, Some post) ->
  length pre + length sep + length post = length s.
Proof.
  revert pre. induction s as [|c s IH]; intros pre H; cbn [breakOn] in H.
  - destruct (startsWith sep []) eqn:E; [|done].
    injection H as <- <-. apply startsWith_iff in E as [b Hb].
    destruct sep; [done | discriminate].
  - destruct (startsWith sep (c :: s)) eqn:E.
    + injection H as <- <-. apply startsWith_iff in E as [b Hb].
      rewrite Hb, drop_app_length, length_app. simpl. lia.
    + destruct (breakOn sep s) as [pre' post'] eqn:Eb.
      injection H as <- ->. simpl. specialize (IH pre' eq_refl). lia.
Qed.

(** The fuel of [split] never runs out. *)
Lemma splitFuel_enough (sep s : text) (fuel : nat) :
  sep <> [] -> length s < fuel -> splitFuel fuel sep s = split sep s.
Proof.
  intros Hsep. unfold split.
  assert (G : forall f1 f2 s', length s' < f1 -> length s' < f2 ->
                               splitFuel f1 sep s' = splitFuel f2 sep s').
  { induction f1 as [|f1 IH]; intros f2 s' H1 H2; [lia|].
    destruct f2 as [|f2]; [lia|]. simpl.
    destruct (breakOn sep s') as [pre [post|]] eqn:E; [|done].
    apply breakOn_length in E. f_equal.
    destruct sep; [done|]. simpl in E. apply IH; lia. }
  intros H. apply G; lia.
Qed.
(** ** Facts about the case mappings *)

Lemma lowerASCII_small (c : codeUnit) : (c < 128)%N -> (lowerASCII c < 128)%N.
Proof.
  intros H. unfold lowerASCII.
  destruct ((65 <=? c) && (c <=? 90))%N eqn:E; [|done].
  apply andb_true_iff in E as [_ E]. apply N.leb_le in E. lia.
Qed.

Lemma lowerASCII_large (c : codeUnit) : (128 <= c)%N -> lowerASCII c = c.
Proof.
  intros H. unfold lowerASCII.
  destruct ((65 <=? c) && (c <=? 90))%N eqn:E; [|done].
  apply andb_true_iff in E as [_ E]. apply N.leb_le in E. lia.
Qed.

Lemma lowerASCII_small_inv (c : codeUnit) : (lowerASCII c < 128)%N -> (c < 128)%N.
Proof.
  intros H. destruct (N.lt_ge_cases c 128) as [|Hc]; [done|].
  rewrite lowerASCII_large in H by done. lia.
Qed.

Lemma lowerASCII_idempotent (c : codeUnit) : lowerASCII (lowerASCII c) = lowerASCII c.
Proof.
  unfold lowerASCII.
  destruct ((65 <=? c) && (c <=? 90))%N eqn:E; [|by rewrite E].
  apply andb_true_iff in E as [E1 E2]. apply N.leb_le in E1, E2.
  replace ((65 <=? c + 32) && (c + 32 <=? 90))%N with false; [done|].
  symmetry. apply andb_false_iff. right. apply N.leb_gt. lia.
Qed.

Lemma foldCase_idempotent (s : text) : foldCase (foldCase s) = foldCase s.
Proof.
  unfold foldCase. rewrite map_map. apply map_ext. apply lowerASCII_idempotent.
Qed.

Lemma foldCase_ascii (m p : text) :
  Forall (fun c => (c < 128)%N) p -> foldCase m = p -> Forall (fun c => (c < 128)%N) m.
Proof.
  intros Hp <-. unfold foldCase in Hp.
  induction m as [|c m IH]; [constructor|].
  simpl in Hp. apply Forall_cons in Hp as [Hc Hm].
  constructor; [by apply lowerASCII_small_inv | by apply IH].
Qed.

(** The table maps no code point into the ASCII range but the Kelvin
    sign, and meets no surrogate. *)
Lemma simpleLowercase_checked :
  forallb (fun e => ((128 <=? snd e) || (fst e =? 0x212A))
                    && negb (isHighSurrogate (fst e) || isLowSurrogate (fst e))
                    && negb (isHighSurrogate (snd e) || isLowSurrogate (snd e)))%N
          simpleLowercase = true.
Proof. vm_compute. reflexivity. Qed.

Lemma lowerPoint_cases (c : N) :
  (128 <= c)%N -> c <> 0x130%N ->
  lowerPoint c = [c]
  \/ exists e, e ∈ simpleLowercase /\ fst e = c /\ lowerPoint c = [snd e].
Proof.
  intros Hc H130. unfold lowerPoint.
  replace (c <? 128)%N with false by (symmetry; apply N.ltb_ge; lia).
  replace (c =? 0x130)%N with false by (symmetry; by apply N.eqb_neq).
  destruct (List.find _ simpleLowercase) as [e|] eqn:E; [|by left].
  right. apply find_some in E as [Hin He]. apply N.eqb_eq in He.
  exists e. split; [by apply list_elem_of_In | done].
Qed.

Lemma simpleLowercase_entry (e : N * N) :
  e ∈ simpleLowercase ->
  ((128 <= snd e)%N \/ fst e = 0x212A%N)
  /\ isHighSurrogate (fst e) = false /\ isLowSurrogate (fst e) = false
  /\ isHighSurrogate (snd e) = false /\ isLowSurrogate (snd e) = false.
Proof.
  intros Hin. pose proof simpleLowercase_checked as H.
  rewrite forallb_forall in H. specialize (H e (proj1 (list_elem_of_In _ _) Hin)).
  apply andb_true_iff in H as [H H3]. apply andb_true_iff in H as [H1 H2].
  apply negb_true_iff, orb_false_iff in H2, H3.
  apply orb_true_iff in H1. rewrite N.leb_le, N.eqb_eq in H1. tauto.
Qed.

(** Above the ASCII range the mapping stays there, the Kelvin sign and
    U+0130 apart. *)
Lemma lowerPoint_large (c : N) :
  (128 <= c)%N -> c <> 0x130%N -> c <> 0x212A%N ->
  exists d, lowerPoint c = [d] /\ (128 <= d)%N.
Proof.
  intros Hc H130 HK.
  destruct (lowerPoint_cases c Hc H130) as [-> | (e & Hin & <- & ->)]; [eauto|].
  exists (snd e). split; [done|].
  destruct (simpleLowercase_entry e Hin) as ([?|?] & _); [done | congruence].
Qed.

Lemma codePointToUnits_large (d : N) :
  (128 <= d)%N ->
  codePointToUnits d <> [] /\ Forall (fun c => (128 <= c)%N) (codePointToUnits d).
Proof.
  intros Hd. unfold codePointToUnits.
  destruct (d <? 0x10000)%N; [|destruct (d <? 0x110000)%N].
  - split; [done|]. by apply Forall_singleton.
  - split; [done|]. apply Forall_cons.
    split; [|apply Forall_singleton]; (etrans; [|apply N.le_add_r]); lia.
  - split; [done|]. by apply Forall_singleton.
Qed.

Lemma codePointsToString_app (a b : list N) :
  codePointsToString (a ++ b) = codePointsToString a ++ codePointsToString b.
Proof. unfold codePointsToString. apply flat_map_app. Qed.

(** One code point, read from the code units [x], goes to lower case. *)
Lemma lowerAt_lowersTo (before after : list N) (c : N) (x s t : text) :
  x = [c] \/ (x <> [] /\ Forall (fun u => (128 <= u)%N) x /\ (0x10000 <= c)%N) ->
  lowersTo s t ->
  lowersTo (x ++ s) (codePointsToString (lowerAt before c after) ++ t).
Proof.
  intros Hx Hst.
  assert (Hother : forall out,
             Forall (fun u => (128 <= u)%N) x -> x <> [] ->
             out <> [] -> Forall (fun d => (128 <= d)%N) out ->
             lowersTo (x ++ s) (codePointsToString out ++ t)).
  { intros out Hx1 Hx2 Ho1 Ho2. apply lowers_other; try done.
    - destruct out as [|d out]; [done|]. simpl.
      apply Forall_cons in Ho2 as [Hd _].
      destruct (codePointToUnits_large d Hd) as [Hne _].
      by destruct (codePointToUnits d).
    - unfold codePointsToString. clear Ho1.
      induction Ho2 as [|d out Hd _ IH]; simpl; [constructor|].
      apply Forall_app. split; [by apply codePointToUnits_large | done]. }
  assert (Hlarge : (128 <= c)%N -> c <> 0x130%N -> c <> 0x212A%N ->
                   Forall (fun u => (128 <= u)%N) x -> x <> [] ->
                   lowersTo (x ++ s) (codePointsToString (lowerAt before c after) ++ t)).
  { intros Hc H1 H2 Hx1 Hx2. apply Hother; try done; unfold lowerAt.
    - destruct (c =? 0x3A3)%N; [done|].
      by destruct (lowerPoint_large c Hc H1 H2) as (d & -> & _).
    - destruct (c =? 0x3A3)%N.
      + destruct (finalSigma before after); apply Forall_singleton; lia.
      + destruct (lowerPoint_large c Hc H1 H2) as (d & -> & Hd). by apply Forall_singleton. }
  destruct Hx as [-> | (Hne & Hall & Hc)].
  - destruct (N.lt_ge_cases c 128) as [Hc|Hc].
    + replace (lowerAt before c after) with [lowerASCII c].
      * pose proof (lowerASCII_small c Hc) as Hl.
        unfold codePointsToString, codePointToUnits. simpl.
        replace (lowerASCII c <? 0x10000)%N with true by (symmetry; apply N.ltb_lt; lia).
        simpl. by apply lowers_ascii.
      * unfold lowerAt, lowerPoint.
        replace (c =? 0x3A3)%N with false by (symmetry; apply N.eqb_neq; lia).
        by replace (c <? 128)%N with true by (symmetry; by apply N.ltb_lt).
    + destruct (decide (c = 0x130%N)) as [->|H1]; [by apply lowers_dotted|].
      destruct (decide (c = 0x212A%N)) as [->|H2]; [by apply lowers_kelvin|].
      apply Hlarge; try done. by apply Forall_singleton.
  - apply Hlarge; try done; lia.
Qed.

Lemma toLowercase_lowersTo (n : nat) :
  forall (s : text) (before : list N),
    length s <= n ->
    lowersTo s (codePointsToString (toLowercase before (stringToCodePoints s))).
Proof.
  induction n as [|n IH]; intros s before Hn.
  - destruct s; [apply lowers_nil | simpl in Hn; lia].
  - destruct s as [|u [|l s]].
    + apply lowers_nil.
    + cbn [stringToCodePoints toLowercase]. rewrite codePointsToString_app.
      apply (lowerAt_lowersTo before [] u [u] [] []); [by left | apply lowers_nil].
    + cbn [stringToCodePoints].
      destruct (isHighSurrogate u && isLowSurrogate l) eqn:E.
      * cbn [toLowercase]. rewrite codePointsToString_app.
        apply andb_true_iff in E as [Hu Hl].
        unfold isHighSurrogate in Hu. unfold isLowSurrogate in Hl.
        apply andb_true_iff in Hu as [Hu _]. apply andb_true_iff in Hl as [Hl _].
        apply N.leb_le in Hu, Hl.
        apply (lowerAt_lowersTo _ _ _ [u; l]).
        -- right. split; [done|]. split.
           ++ apply Forall_cons. split; [lia|]. apply Forall_singleton. lia.
           ++ rewrite <- N.add_assoc. apply N.le_add_r.
        -- apply IH. simpl in Hn. lia.
      * cbn [toLowercase]. rewrite codePointsToString_app.
        apply (lowerAt_lowersTo _ _ _ [u]); [by left|].
        apply IH. simpl in Hn. simpl. lia.
Qed.

(** [toLowerCase] acts on the ASCII range as [lowersTo] says. *)
Lemma toLowerCase_lowersTo (s : text) : lowersTo s (toLowerCase s).
Proof. by apply (toLowercase_lowersTo (length s)). Qed.

(** On ASCII text [toLowerCase] is [foldCase]. *)
Lemma lowersTo_ascii (s t : text) :
  lowersTo s t -> Forall (fun c => (c < 128)%N) s -> t = foldCase s.
Proof.
  induction 1 as [|c s t Hc _ IH|s t _ _|s t _ _|x y s t Hx _ Hxl _ _ _]; intros Hall.
  - done.
  - apply Forall_cons in Hall as [_ Hall]. simpl. by rewrite IH.
  - apply Forall_cons in Hall as [Hc _]. lia.
  - apply Forall_cons in Hall as [Hc _]. lia.
  - destruct x as [|c x]; [done|].
    apply Forall_cons in Hxl as [Hc _]. apply Forall_app in Hall as [Hall _].
    apply Forall_cons in Hall as [Hc' _]. lia.
Qed.

Lemma toLowerCase_ascii (s : text) :
  Forall (fun c => (c < 128)%N) s -> toLowerCase s = foldCase s.
Proof. apply lowersTo_ascii, toLowerCase_lowersTo. Qed.

(** A text that goes to an ASCII text without [k] is ASCII. *)
Lemma lowersTo_plain_eq (s t : text) :
  lowersTo s t -> Forall (fun c => (c < 128)%N /\ c <> 0x6B%N) t -> t = foldCase s.
Proof.
  induction 1 as [|c s t Hc _ IH|s t _ _|s t _ _|x y s t _ Hy _ Hyl _ _]; intros Hall.
  - done.
  - apply Forall_cons in Hall as [_ Hall]. simpl. by rewrite IH.
  - apply Forall_cons in Hall as [_ Hall]. apply Forall_cons in Hall as [[Hc _] _]. lia.
  - apply Forall_cons in Hall as [[_ Hc] _]. done.
  - destruct y as [|c y]; [done|].
    apply Forall_cons in Hyl as [Hc _]. apply Forall_app in Hall as [Hall _].
    apply Forall_cons in Hall as [[Hc' _] _]. lia.
Qed.

Lemma toLowerCase_plain_eq (s p : text) :
  Forall (fun c => (c < 128)%N /\ c <> 0x6B%N) p ->
  toLowerCase s = p <-> foldCase s = p.
Proof.
  intros Hp. split.
  - intros H. symmetry. rewrite <- H in Hp |- *.
    by apply lowersTo_plain_eq; [apply toLowerCase_lowersTo|].
  - intros H. rewrite toLowerCase_ascii; [done|].
    apply (foldCase_ascii s p); [|done].
    eapply Forall_impl; [exact Hp|]. by intros c [? _].
Qed.

(** A plain pattern at the head of the result stems from a piece at the
    head of the text. *)
Lemma lowersTo_prefix (s t : text) :
  lowersTo s t ->
  forall p b,
    t = p ++ b ->
    Forall (fun c => (c < 128)%N /\ c <> 0x6B%N) p ->
    last p <> Some 0x69%N ->
    exists m r, s = m ++ r /\ foldCase m = p.
Proof.
  induction 1 as [|c s t Hc _ IH|s t _ _|s t _ _|x y s t _ Hy _ Hyl _ _];
    intros p b Ht Hp Hlast.
  - exists [], []. destruct p; [done | discriminate].
  - destruct p as [|a p]; [by exists [], (c :: s)|].
    injection Ht as <- Ht. apply Forall_cons in Hp as [_ Hp].
    destruct (IH p b Ht Hp) as (m & r & -> & <-).
    + destruct p as [|a' p]; [done|]. by rewrite last_cons_cons in Hlast.
    + by exists (c :: m), r.
  - destruct p as [|a p]; [by exists [], (0x130%N :: s)|].
    injection Ht as <- Ht. destruct p as [|a' p]; [done|].
    injection Ht as <- _. apply Forall_cons in Hp as [_ Hp].
    apply Forall_cons in Hp as [[Ha _] _]. lia.
  - destruct p as [|a p]; [by exists [], (0x212A%N :: s)|].
    injection Ht as <- _. apply Forall_cons in Hp as [[_ Ha] _]. done.
  - destruct p as [|a p]; [by exists [], (x ++ s)|].
    destruct y as [|d y]; [done|]. injection Ht as <- _.
    apply Forall_cons in Hyl as [Hd _]. apply Forall_cons in Hp as [[Ha _] _]. lia.
Qed.

Lemma lowersTo_contains (s t p : text) :
  lowersTo s t ->
  Forall (fun c => (c < 128)%N /\ c <> 0x6B%N) p ->
  last p <> Some 0x69%N ->
  contains t p -> exists a m b, s = a ++ m ++ b /\ foldCase m = p.
Proof.
  intros Hst Hp Hlast (a & b & Ht).
  destruct p as [|c0 p0]; [by exists [], [], s|].
  apply Forall_cons in Hp as Hp'. destruct Hp' as [[Hc0 _] _].
  revert a Ht.
  induction Hst as [|c s t Hc Hst IH|s t Hst IH|s t Hst IH|x y s t Hx Hy Hxl Hyl Hst IH];
    intros a Ht.
  - destruct a; discriminate.
  - destruct a as [|u a].
    + destruct (lowersTo_prefix (c :: s) (lowerASCII c :: t)
                  ltac:(by apply lowers_ascii) (c0 :: p0) b Ht Hp Hlast) as (m & r & Hs & Hm).
      by exists [], m, r.
    + injection Ht as _ Ht. destruct (IH a Ht) as (a' & m & b' & -> & Hm).
      by exists (c :: a'), m, b'.
  - destruct a as [|u [|u' a]].
    + destruct (lowersTo_prefix (0x130%N :: s) (0x69%N :: 0x307%N :: t)
                  ltac:(by apply lowers_dotted) (c0 :: p0) b Ht Hp Hlast)
        as (m & r & Hs & Hm).
      by exists [], m, r.
    + injection Ht as _ Ht _. lia.
    + injection Ht as _ _ Ht. destruct (IH a Ht) as (a' & m & b' & -> & Hm).
      by exists (0x130%N :: a'), m, b'.
  - destruct a as [|u a].
    + injection Ht as Ht _. apply Forall_cons in Hp as [[_ Hk] _]. congruence.
    + injection Ht as _ Ht. destruct (IH a Ht) as (a' & m & b' & -> & Hm).
      by exists (0x212A%N :: a'), m, b'.
  - apply app_eq_inv in Ht as [(k & -> & Hk) | (k & -> & Hk)].
    + destruct k as [|d k].
      * rewrite app_nil_r in *. simpl in Hk.
        destruct (IH [] (eq_sym Hk)) as (a' & m & b' & -> & Hm).
        by exists (x ++ a'), m, b'; rewrite <- app_assoc.
      * injection Hk as <- _. apply Forall_app in Hyl as [_ Hyl].
        apply Forall_cons in Hyl as [Hd _]. lia.
    + destruct (IH k Hk) as (a' & m & b' & -> & Hm).
      by exists (x ++ a'), m, b'; rewrite <- app_assoc.
Qed.

(** A piece of ASCII text at the head of the text goes to the head of the
    result. *)
Lemma lowersTo_prefix_back (s t : text) :
  lowersTo s t ->
  forall m r,
    s = m ++ r -> Forall (fun c => (c < 128)%N) m ->
    exists b, t = foldCase m ++ b.
Proof.
  induction 1 as [|c s t Hc _ IH|s t _ _|s t _ _|x y s t Hx _ Hxl _ _ _];
    intros m r Hs Hm.
  - exists []. destruct m; [done | discriminate].
  - destruct m as [|a m]; [by eexists|].
    injection Hs as <- Hs. apply Forall_cons in Hm as [_ Hm].
    destruct (IH m r Hs Hm) as [b ->]. by exists b.
  - destruct m as [|a m]; [by eexists|].
    injection Hs as <- _. apply Forall_cons in Hm as [Ha _]. lia.
  - destruct m as [|a m]; [by eexists|].
    injection Hs as <- _. apply Forall_cons in Hm as [Ha _]. lia.
  - destruct m as [|a m]; [by eexists|].
    destruct x as [|d x]; [done|]. injection Hs as <- _.
    apply Forall_cons in Hxl as [Hd _]. apply Forall_cons in Hm as [Ha _]. lia.
Qed.

Lemma lowersTo_contains_back (s t m : text) (a b : text) :
  lowersTo s t ->
  s = a ++ m ++ b -> Forall (fun c => (c < 128)%N) m ->
  contains t (foldCase m).
Proof.
  intros Hst Hs Hm.
  destruct m as [|c0 m0]; [by exists [], t|].
  apply Forall_cons in Hm as Hm'. destruct Hm' as [Hc0 _].
  revert a Hs.
  induction Hst as [|c s t Hc Hst IH|s t Hst IH|s t Hst IH|x y s t Hx Hy Hxl Hyl Hst IH];
    intros a Hs.
  - destruct a; discriminate.
  - destruct a as [|u a].
    + destruct (lowersTo_prefix_back (c :: s) (lowerASCII c :: t)
                  ltac:(by apply lowers_ascii) (c0 :: m0) b Hs Hm) as [b' Hb'].
      by exists [], b'.
    + injection Hs as _ Hs. destruct (IH a Hs) as (a' & b' & ->).
      by exists (lowerASCII c :: a'), b'.
  - destruct a as [|u a].
    + injection Hs as Hs _. lia.
    + injection Hs as _ Hs. destruct (IH a Hs) as (a' & b' & ->).
      by exists (0x69%N :: 0x307%N :: a'), b'.
  - destruct a as [|u a].
    + injection Hs as Hs _. lia.
    + injection Hs as _ Hs. destruct (IH a Hs) as (a' & b' & ->).
      by exists (0x6B%N :: a'), b'.
  - apply app_eq_inv in Hs as [(k & -> & Hk) | (k & -> & Hk)].
    + destruct k as [|d k].
      * rewrite app_nil_r in *. simpl in Hk.
        destruct (IH [] (eq_sym Hk)) as (a' & b' & ->).
        by exists (y ++ a'), b'; rewrite <- app_assoc.
      * injection Hk as <- _. apply Forall_app in Hxl as [_ Hxl].
        apply Forall_cons in Hxl as [Hd _]. lia.
    + destruct (IH k Hk) as (a' & b' & ->).
      by exists (y ++ a'), b'; rewrite <- app_assoc.
Qed.

(** A plain pattern occurs in the lower-cased text exactly when it occurs
    in the text up to letter case. *)
Lemma includes_toLowerCase_iff (s p : text) :
  plain p -> includes (toLowerCase s) p = true <-> containsCI s p.
Proof.
  intros (Hp & Hfold & Hlast). rewrite includes_iff. unfold containsCI. rewrite Hfold.
  split.
  - by apply lowersTo_contains; [apply toLowerCase_lowersTo| |].
  - intros (a & m & b & Hs & Hm). rewrite <- Hm.
    apply (lowersTo_contains_back s _ m a b); [apply toLowerCase_lowersTo|done|].
    apply (foldCase_ascii m p); [|done].
    eapply Forall_impl; [exact Hp|]. by intros c [? _].
Qed.

(** *** [toLowerCase] is idempotent *)

Lemma simpleLowercase_fixed :
  forallb (fun e => bool_decide (lowerPoint (snd e) = [snd e])) simpleLowercase = true.
Proof. vm_compute. reflexivity. Qed.

Lemma lowerPoint_fixed (c d : N) : d ∈ lowerPoint c -> lowerPoint d = [d].
Proof.
  destruct (N.lt_ge_cases c 128) as [Hc|Hc].
  - unfold lowerPoint at 1.
    replace (c <? 128)%N with true by (symmetry; by apply N.ltb_lt).
    intros ->%list_elem_of_singleton. unfold lowerPoint.
    replace (lowerASCII c <? 128)%N with true
      by (symmetry; by apply N.ltb_lt, lowerASCII_small).
    by rewrite lowerASCII_idempotent.
  - destruct (decide (c = 0x130%N)) as [->|H130].
    + intros Hd. apply elem_of_cons in Hd as [->|Hd]; [by vm_compute|].
      apply list_elem_of_singleton in Hd as ->. by vm_compute.
    + destruct (lowerPoint_cases c Hc H130) as [E | (e & Hin & <- & E)].
      * rewrite E. by intros ->%list_elem_of_singleton.
      * rewrite E. intros ->%list_elem_of_singleton.
        pose proof simpleLowercase_fixed as H. rewrite forallb_forall in H.
        specialize (H e (proj1 (list_elem_of_In _ _) Hin)).
        by apply bool_decide_eq_true in H.
Qed.

Lemma lowerAt_fixed (before after : list N) (c d : N) :
  d ∈ lowerAt before c after -> lowerPoint d = [d].
Proof.
  unfold lowerAt. destruct (c =? 0x3A3)%N; [|apply lowerPoint_fixed].
  intros ->%list_elem_of_singleton. by destruct (finalSigma before after); vm_compute.
Qed.

Lemma toLowercase_fixed (cps before : list N) :
  Forall (fun d => lowerPoint d = [d]) (toLowercase before cps).
Proof.
  revert before. induction cps as [|c after IH]; intros before; simpl; [constructor|].
  apply Forall_app. split; [|apply IH].
  apply Forall_forall. intros d. apply lowerAt_fixed.
Qed.

Lemma toLowercase_of_fixed (cps before : list N) :
  Forall (fun d => lowerPoint d = [d]) cps -> toLowercase before cps = cps.
Proof.
  intros H. revert before. induction H as [|c after Hc _ IH]; intros before; simpl; [done|].
  rewrite IH. unfold lowerAt.
  destruct (c =? 0x3A3)%N eqn:E; [|by rewrite Hc].
  apply N.eqb_eq in E as ->. vm_compute in Hc. discriminate.
Qed.

Lemma surrogate_bounds (u : N) :
  (isHighSurrogate u = true <-> (0xD800 <= u <= 0xDBFF)%N)
  /\ (isLowSurrogate u = true <-> (0xDC00 <= u <= 0xDFFF)%N).
Proof.
  unfold isHighSurrogate, isLowSurrogate.
  by rewrite !andb_true_iff, !N.leb_le.
Qed.

Lemma lowerAt_surrogates (before after : list N) (c : N) :
  lowerAt before c after <> []
  /\ (isHighSurrogate c = true -> lowerAt before c after = [c])
  /\ (isHighSurrogate c = false ->
      Forall (fun d => isHighSurrogate d = false) (lowerAt before c after))
  /\ (isLowSurrogate c = false ->
      Forall (fun d => isLowSurrogate d = false) (lowerAt before c after)).
Proof.
  unfold lowerAt. destruct (c =? 0x3A3)%N eqn:E.
  { apply N.eqb_eq in E as ->. split; [done|]. split; [intros H; vm_compute in H; discriminate|].
    split; intros _; apply Forall_singleton; by destruct (finalSigma before after). }
  destruct (N.lt_ge_cases c 128) as [Hc|Hc].
  { unfold lowerPoint. replace (c <? 128)%N with true by (symmetry; by apply N.ltb_lt).
    pose proof (lowerASCII_small c Hc) as Hl.
    split; [done|]. split.
    - intros H%surrogate_bounds. lia.
    - split; intros _; apply Forall_singleton.
      + apply not_true_is_false. intros H%surrogate_bounds. lia.
      + apply not_true_is_false. intros H%surrogate_bounds. lia. }
  destruct (decide (c = 0x130%N)) as [->|H130].
  { split; [done|]. split; [by vm_compute|].
    split; intros _; by repeat (apply Forall_cons; split; [done|]). }
  destruct (lowerPoint_cases c Hc H130) as [-> | (e & Hin & <- & ->)].
  - split; [done|]. split; [done|]. split; intros H; by apply Forall_singleton.
  - destruct (simpleLowercase_entry e Hin) as (_ & H1 & H2 & H3 & H4).
    split; [done|]. split; [congruence|]. split; intros _; by apply Forall_singleton.
Qed.

Lemma unpaired_app (out rest : list N) :
  Forall (fun d => isHighSurrogate d = false) out ->
  unpaired rest -> unpaired (out ++ rest).
Proof.
  induction 1 as [|d out Hd _ IH]; intros Hr; [done|].
  simpl. split; [|by apply IH].
  destruct (out ++ rest); [done|]. intros [? _]. congruence.
Qed.

Lemma toLowercase_unpaired (cps : list N) :
  forall before,
    unpaired cps ->
    unpaired (toLowercase before cps)
    /\ (headLow (toLowercase before cps) -> headLow cps).
Proof.
  induction cps as [|c after IH]; intros before Hu; [done|].
  cbn [toLowercase]. destruct Hu as [Hc Hu].
  destruct (IH (c :: before) Hu) as [IH1 IH2].
  destruct (lowerAt_surrogates before after c) as (Hne & Hhigh & Hnohigh & Hnolow).
  split.
  - destruct (isHighSurrogate c) eqn:E.
    + rewrite (Hhigh eq_refl). simpl. split; [|done].
      destruct (toLowercase (c :: before) after) as [|d R] eqn:ER; [done|].
      intros [_ Hd]. specialize (IH2 Hd).
      destruct after as [|d' after']; [done|]. apply Hc. by split.
    + apply unpaired_app; [by apply Hnohigh | done].
  - destruct (lowerAt before c after) as [|d out] eqn:Eo; [done|].
    simpl. intros Hd. destruct (isLowSurrogate c) eqn:E; [done|].
    specialize (Hnolow eq_refl). apply Forall_cons in Hnolow as [Hd' _]. congruence.
Qed.

Lemma stringToCodePoints_cons (u l : codeUnit) (s : text) :
  stringToCodePoints (u :: l :: s)
  = if isHighSurrogate u && isLowSurrogate l
    then (0x10000 + (u - 0xD800) * 0x400 + (l - 0xDC00))%N :: stringToCodePoints s
    else u :: stringToCodePoints (l :: s).
Proof. reflexivity. Qed.

Lemma stringToCodePoints_unpaired (n : nat) :
  forall s : text,
    length s <= n ->
    unpaired (stringToCodePoints s)
    /\ (headLow (stringToCodePoints s) -> headLow s).
Proof.
  induction n as [|n IH]; intros s Hn.
  - destruct s; [done | simpl in Hn; lia].
  - destruct s as [|u [|l s]]; [done | done |].
    rewrite stringToCodePoints_cons.
    destruct (isHighSurrogate u && isLowSurrogate l) eqn:E.
    + destruct (IH s ltac:(simpl in Hn; lia)) as [IH1 IH2].
      apply andb_true_iff in E as [Hu Hl].
      apply surrogate_bounds in Hu, Hl.
      set (cp := (0x10000 + (u - 0xD800) * 0x400 + (l - 0xDC00))%N).
      assert (Hcp : (0x10000 <= cp)%N).
      { unfold cp. rewrite <- N.add_assoc. apply N.le_add_r. }
      split.
      * simpl. split; [|done]. destruct (stringToCodePoints s); [done|].
        intros [H%surrogate_bounds _]. lia.
      * simpl. intros H%surrogate_bounds. lia.
    + destruct (IH (l :: s) ltac:(simpl in Hn |- *; lia)) as [IH1 IH2].
      split; [|by cbn [headLow]]. cbn [unpaired]. split; [|done].
      destruct (stringToCodePoints (l :: s)) as [|d R] eqn:ER; [done|].
      intros [Hu Hd]. specialize (IH2 Hd). cbn [headLow] in IH2.
      rewrite Hu, IH2 in E. discriminate.
Qed.

Lemma codePointToUnits_head (c : N) :
  codePointToUnits c <> []
  /\ (headLow (codePointToUnits c) -> isLowSurrogate c = true).
Proof.
  unfold codePointToUnits.
  destruct (c <? 0x10000)%N eqn:E1; [done|].
  destruct (c <? 0x110000)%N eqn:E2; [|done].
  split; [done|]. simpl. intros H%surrogate_bounds.
  apply N.ltb_ge in E1. apply N.ltb_lt in E2.
  assert ((c - 0x10000) / 0x400 < 0x400)%N by (apply N.Div0.div_lt_upper_bound; lia).
  lia.
Qed.

Lemma codePoints_roundtrip (cps : list N) :
  unpaired cps -> stringToCodePoints (codePointsToString cps) = cps.
Proof.
  induction cps as [|c r IH]; intros Hu; [done|].
  destruct Hu as [Hc Hu]. specialize (IH Hu).
  assert (Hhead : forall l s', codePointsToString r = l :: s' ->
                               isLowSurrogate l = true -> headLow r).
  { intros l s' Hr Hl. destruct r as [|d r']; [done|].
    simpl in Hr. destruct (codePointToUnits_head d) as [Hne Hd].
    simpl. apply Hd. destruct (codePointToUnits d); [done|].
    injection Hr as -> _. done. }
  assert (Hsingle : isHighSurrogate c = false \/ (c < 0x10000)%N ->
                    codePointToUnits c = [c] ->
                    stringToCodePoints (codePointsToString (c :: r)) = c :: r).
  { intros Hcase Hc1. simpl. rewrite Hc1. simpl.
    destruct (codePointsToString r) as [|l s'] eqn:Er.
    - destruct r as [|d r']; [done|]. simpl in Er.
      destruct (codePointToUnits_head d) as [Hne _]. by destruct (codePointToUnits d).
    - replace (isHighSurrogate c && isLowSurrogate l) with false; [by rewrite IH|].
      symmetry. apply andb_false_iff.
      destruct (isHighSurrogate c) eqn:Eh; [|by left]. right.
      apply not_true_is_false. intros Hl.
      specialize (Hhead l s' eq_refl Hl).
      destruct r as [|d r']; [done|]. apply Hc. by split. }
  unfold codePointToUnits in Hsingle.
  destruct (c <? 0x10000)%N eqn:E1.
  - apply Hsingle; [|done]. right. by apply N.ltb_lt.
  - apply N.ltb_ge in E1. destruct (c <? 0x110000)%N eqn:E2.
    + apply N.ltb_lt in E2. clear Hsingle.
      set (q := ((c - 0x10000) / 0x400)%N). set (m := ((c - 0x10000) mod 0x400)%N).
      assert (Henc : codePointToUnits c = [(0xD800 + q)%N; (0xDC00 + m)%N]).
      { unfold codePointToUnits.
        replace (c <? 0x10000)%N with false by (symmetry; by apply N.ltb_ge).
        by replace (c <? 0x110000)%N with true by (symmetry; by apply N.ltb_lt). }
      unfold codePointsToString. cbn [flat_map]. rewrite Henc.
      fold (codePointsToString r).
      assert (Hq : (q < 0x400)%N) by (apply N.Div0.div_lt_upper_bound; lia).
      assert (Hm : (m < 0x400)%N) by (apply N.mod_lt; lia).
      assert (Hqm : (c - 0x10000 = 0x400 * q + m)%N) by (apply N.div_mod; lia).
      cbn [app]. rewrite stringToCodePoints_cons.
      replace (isHighSurrogate (0xD800 + q) && isLowSurrogate (0xDC00 + m)) with true.
      * rewrite IH. f_equal. lia.
      * symmetry. apply andb_true_iff. split; apply surrogate_bounds; lia.
    + apply Hsingle; [|done]. left. apply N.ltb_ge in E2.
      apply not_true_is_false. intros H%surrogate_bounds. lia.
Qed.

Lemma toLowerCase_idempotent (s : text) : toLowerCase (toLowerCase s) = toLowerCase s.
Proof.
  unfold toLowerCase.
  destruct (stringToCodePoints_unpaired (length s) s (le_n _)) as [Hu _].
  destruct (toLowercase_unpaired _ [] Hu) as [Hu' _].
  rewrite codePoints_roundtrip by done.
  by rewrite toLowercase_of_fixed by apply toLowercase_fixed.
Qed.

Lemma plain_introduction : plain (lit "introduction").
Proof.
  split; [|split; [reflexivity | by vm_compute]].
  repeat (apply Forall_cons; split; [split; [by vm_compute | by vm_compute]|]).
  constructor.
Qed.

Lemma plain_conclusion : plain (lit "conclusion").
Proof.
  split; [|split; [reflexivity | by vm_compute]].
  repeat (apply Forall_cons; split; [split; [by vm_compute | by vm_compute]|]).
  constructor.
Qed.

Lemma plain_summary : plain (lit "summary").
Proof.
  split; [|split; [reflexivity | by vm_compute]].
  repeat (apply Forall_cons; split; [split; [by vm_compute | by vm_compute]|]).
  constructor.
Qed.

Lemma plain_final_thoughts : plain (lit "final thoughts").
Proof.
  split; [|split; [reflexivity | by vm_compute]].
  repeat (apply Forall_cons; split; [split; [by vm_compute | by vm_compute]|]).
  constructor.
Qed.

Lemma plain_keyword : Forall (fun c => (c < 128)%N /\ c <> 0x6B%N) keyword.
Proof.
  repeat (apply Forall_cons; split; [split; [by vm_compute | by vm_compute]|]).
  constructor.
Qed.
(** ** Facts about doubles *)

Local Open Scope Z_scope.

(** The operations of [SpecFloat] are those of [Z]. *)
Ltac standard_Z :=
  change IntDef.Z.add with Z.add in *; change IntDef.Z.sub with Z.sub in *;
  change IntDef.Z.mul with Z.mul in *; change IntDef.Z.opp with Z.opp in *;
  change IntDef.Z.compare with Z.compare in *; change IntDef.Z.eqb with Z.eqb in *;
  change IntDef.Z.leb with Z.leb in *; change IntDef.Z.even with Z.even in *;
  change IntDef.Z.max with Z.max in *; change IntDef.Z.min with Z.min in *;
  change IntDef.Z.shiftl with Z.shiftl in *;
  change IntDef.Z.div_eucl with Z.div_eucl in *.

Lemma digits2_pos_bounds (p : positive) :
  2 ^ (Z.pos (digits2_pos p) - 1) <= Z.pos p < 2 ^ Z.pos (digits2_pos p).
Proof.
  induction p as [p IH|p IH|]; cbn [digits2_pos].
  - rewrite Pos2Z.inj_succ, Z.pow_succ_r by lia.
    replace (Z.succ (Z.pos (digits2_pos p)) - 1) with (Z.succ (Z.pos (digits2_pos p) - 1))
      by lia.
    rewrite Z.pow_succ_r by lia. lia.
  - rewrite Pos2Z.inj_succ, Z.pow_succ_r by lia.
    replace (Z.succ (Z.pos (digits2_pos p)) - 1) with (Z.succ (Z.pos (digits2_pos p) - 1))
      by lia.
    rewrite Z.pow_succ_r by lia. lia.
  - simpl. lia.
Qed.

Lemma Zdigits2_unique (m d : Z) :
  2 ^ (d - 1) <= m < 2 ^ d -> 0 < d -> Zdigits2 m = d.
Proof.
  intros Hm Hd.
  assert (Hpos : 0 < m).
  { pose proof (Z.pow_pos_nonneg 2 (d - 1) ltac:(lia) ltac:(lia)). lia. }
  destruct m as [|p|p]; try lia. cbn [Zdigits2].
  pose proof (digits2_pos_bounds p) as Hp.
  set (d' := Z.pos (digits2_pos p)) in *.
  destruct (Z.lt_trichotomy d' d) as [H|[H|H]]; [|done|].
  - assert (2 ^ d' <= 2 ^ (d - 1)) by (apply Z.pow_le_mono_r; lia). lia.
  - assert (2 ^ d <= 2 ^ (d' - 1)) by (apply Z.pow_le_mono_r; lia). lia.
Qed.

Lemma Zdigits2_bounds (m : Z) :
  0 < m -> 0 < Zdigits2 m /\ 2 ^ (Zdigits2 m - 1) <= m < 2 ^ Zdigits2 m.
Proof.
  intros Hm. destruct m as [|p|p]; try lia. cbn [Zdigits2].
  split; [lia | apply digits2_pos_bounds].
Qed.

Lemma Zdigits2_small (z : Z) : 0 < z < 2 ^ 53 -> 0 < Zdigits2 z <= 53.
Proof.
  intros Hz. destruct (Zdigits2_bounds z ltac:(lia)) as [Hd Hb]. split; [done|].
  destruct (Z.le_gt_cases (Zdigits2 z) 53) as [|H]; [done|].
  assert (2 ^ 53 <= 2 ^ (Zdigits2 z - 1)) by (apply Z.pow_le_mono_r; lia). lia.
Qed.

(** The mantissa of a positive integer below 2^53. *)
Lemma mantissa_bounds (z : Z) :
  0 < z < 2 ^ 53 ->
  let m := z * 2 ^ (53 - Zdigits2 z) in
  2 ^ 52 <= m < 2 ^ 53 /\ Zdigits2 m = 53.
Proof.
  intros Hz m.
  destruct (Zdigits2_bounds z ltac:(lia)) as [Hd Hb].
  pose proof (Zdigits2_small z Hz) as Hs.
  set (d := Zdigits2 z) in *.
  assert (H52 : 2 ^ 52 = 2 ^ (d - 1) * 2 ^ (53 - d)).
  { rewrite <- Z.pow_add_r by lia. f_equal. lia. }
  assert (H53 : 2 ^ 53 = 2 ^ d * 2 ^ (53 - d)).
  { rewrite <- Z.pow_add_r by lia. f_equal. lia. }
  assert (Hp : 0 < 2 ^ (53 - d)) by (apply Z.pow_pos_nonneg; lia).
  assert (Hm : 2 ^ 52 <= m < 2 ^ 53).
  { unfold m. rewrite H52, H53. split.
    - apply Z.mul_le_mono_nonneg_r; lia.
    - apply Z.mul_lt_mono_pos_r; lia. }
  split; [done|]. apply Zdigits2_unique; [|lia]. exact Hm.
Qed.

Lemma iter_pos_nat {A : Type} (f : A -> A) (p : positive) (x : A) :
  SpecFloat.iter_pos f p x = Nat.iter (Pos.to_nat p) f x.
Proof.
  revert x. induction p as [p IH|p IH|]; intros x; cbn [SpecFloat.iter_pos].
  - rewrite !IH, Pos2Nat.inj_xI. simpl. rewrite Nat.add_0_r, Nat.iter_add.
    by rewrite !Nat.iter_swap.
  - rewrite !IH, Pos2Nat.inj_xO. simpl. by rewrite Nat.add_0_r, Nat.iter_add.
  - done.
Qed.

Lemma shr_1_even (m : Z) :
  0 < m ->
  shr_1 {| shr_m := 2 * m; shr_r := false; shr_s := false |}
  = {| shr_m := m; shr_r := false; shr_s := false |}.
Proof. intros Hm. destruct m; try lia. reflexivity. Qed.

(** Shifting out zeros is exact. *)
Lemma shr_exact (m e n : Z) :
  0 < m -> 0 <= n ->
  shr {| shr_m := m * 2 ^ n; shr_r := false; shr_s := false |} e n
  = ({| shr_m := m; shr_r := false; shr_s := false |}, e + n).
Proof.
  intros Hm Hn. destruct n as [|p|p]; try lia.
  - simpl. by rewrite Z.mul_1_r, Z.add_0_r.
  - cbn [shr]. f_equal. rewrite iter_pos_nat.
    rewrite <- (Z2Nat.id (Z.pos p)) by lia. rewrite Z2Nat.inj_pos.
    generalize (Pos.to_nat p). intros k. induction k as [|k IH].
    + simpl. by rewrite Z.mul_1_r.
    + rewrite Nat.iter_succ_r, Nat2Z.inj_succ, Z.pow_succ_r by lia.
      replace (m * (2 * 2 ^ Z.of_nat k)) with (2 * (m * 2 ^ Z.of_nat k)) by lia.
      rewrite shr_1_even; [done|]. apply Z.mul_pos_pos; [done|].
      apply Z.pow_pos_nonneg; lia.
Qed.

Lemma fexp_normal (e : Z) : -1074 <= e -> fexp 53 1024 (53 + e) = e.
Proof. intros He. unfold fexp, emin. change IntDef.Z.max with Z.max. lia. Qed.

Lemma Zdigits2_shifted (m n : Z) :
  2 ^ 52 <= m < 2 ^ 53 -> 0 <= n -> Zdigits2 (m * 2 ^ n) = 53 + n.
Proof.
  intros Hm Hn. apply Zdigits2_unique; [|lia].
  replace (53 + n - 1) with (52 + n) by lia.
  rewrite !Z.pow_add_r by lia.
  assert (0 < 2 ^ n) by (apply Z.pow_pos_nonneg; lia).
  split.
  - apply Z.mul_le_mono_nonneg_r; lia.
  - apply Z.mul_lt_mono_pos_r; lia.
Qed.

(** Rounding a mantissa of 53 digits followed by zeros shifts the zeros
    out. *)
Lemma round_aux_exact (s : bool) (m e n : Z) :
  2 ^ 52 <= m < 2 ^ 53 -> 0 <= n -> -1074 <= e + n <= 971 ->
  binary_round_aux 53 1024 s (m * 2 ^ n) e loc_Exact
  = S754_finite s (Z.to_pos m) (e + n).
Proof.
  intros Hm Hn He. unfold binary_round_aux, shr_fexp.
  rewrite Zdigits2_shifted by done.
  replace (53 + n + e) with (53 + (e + n)) by lia. rewrite fexp_normal by lia.
  replace (e + n - e) with n by lia.
  cbn [shr_record_of_loc]. rewrite shr_exact by lia.
  cbn [shr_m loc_of_shr_record shr_r shr_s round_nearest_even].
  replace (Zdigits2 m) with 53.
  - rewrite fexp_normal by lia. rewrite Z.sub_diag. cbn [shr shr_m].
    destruct m as [|p|p]; try lia. cbn [Z.to_pos].
    replace (e + n <=? 1024 - 53) with true; [done|].
    symmetry. apply Z.leb_le. lia.
  - symmetry. apply Zdigits2_unique; [|lia]. exact Hm.
Qed.

Lemma shl_align_spec (mx : positive) (ex ex' : Z) :
  ex' <= ex ->
  shl_align mx ex ex' = (Z.to_pos (Z.pos mx * 2 ^ (ex - ex')), ex').
Proof.
  intros H. unfold shl_align.
  destruct (ex' - ex) as [|d|d] eqn:E; try lia.
  - replace (ex - ex') with 0 by lia. rewrite Z.mul_1_r. cbn [Z.to_pos].
    f_equal. lia.
  - f_equal. replace (ex - ex') with (Z.pos d) by lia.
    change (PosDef.Pos.iter xO mx d) with (shift_pos d mx).
    apply Pos2Z.inj. rewrite shift_pos_correct, Z2Pos.id.
    + rewrite Z.pow_pos_fold. lia.
    + apply Z.mul_pos_pos; [lia|]. apply Z.pow_pos_nonneg; lia.
Qed.

(** A positive integer below 2^53, given with [k] zeros behind it, is
    normalized to its double. *)
Lemma binary_normalize_integer (z k : Z) :
  0 < z < 2 ^ 53 -> 0 <= k ->
  binary_normalize 53 1024 (z * 2 ^ k) (- k) false = normal z.
Proof.
  intros Hz Hk.
  pose proof (Zdigits2_small z Hz) as Hd.
  destruct (mantissa_bounds z Hz) as [Hm Hmd].
  set (d := Zdigits2 z) in *.
  assert (Hzk : 0 < z * 2 ^ k).
  { apply Z.mul_pos_pos; [lia|]. apply Z.pow_pos_nonneg; lia. }
  assert (Hdk : Zdigits2 (z * 2 ^ k) = d + k).
  { destruct (Zdigits2_bounds z ltac:(lia)) as [_ Hb]. fold d in Hb.
    apply Zdigits2_unique; [|lia].
    replace (d + k - 1) with (d - 1 + k) by lia. rewrite !Z.pow_add_r by lia.
    assert (0 < 2 ^ k) by (apply Z.pow_pos_nonneg; lia).
    split; [apply Z.mul_le_mono_nonneg_r | apply Z.mul_lt_mono_pos_r]; lia. }
  unfold normal. fold d.
  destruct (z * 2 ^ k) as [|p|p] eqn:Ep; try lia.
  cbn [binary_normalize]. unfold binary_round.
  change (Z.pos (digits2_pos p)) with (Zdigits2 (Z.pos p)). rewrite Hdk.
  replace (d + k + - k) with (53 + (d - 53)) by lia. rewrite fexp_normal by lia.
  destruct (Z.le_gt_cases (d - 53) (- k)) as [Hle|Hgt].
  - rewrite shl_align_spec by done. rewrite Z2Pos.id.
    + rewrite <- Ep.
      replace (z * 2 ^ k * 2 ^ (- k - (d - 53))) with (z * 2 ^ (53 - d) * 2 ^ 0).
      * rewrite round_aux_exact by lia. f_equal. lia.
      * rewrite Z.pow_0_r, Z.mul_1_r, <- Z.mul_assoc, <- Z.pow_add_r by lia.
        do 2 f_equal. lia.
    + apply Z.mul_pos_pos; [lia|]. apply Z.pow_pos_nonneg; lia.
  - unfold shl_align. destruct (d - 53 - - k) as [|q|q] eqn:Eq; try lia.
    rewrite <- Ep.
    replace (z * 2 ^ k) with (z * 2 ^ (53 - d) * 2 ^ (d - 53 + k)).
    + rewrite round_aux_exact by lia. f_equal. lia.
    + rewrite <- Z.mul_assoc, <- Z.pow_add_r by lia. do 2 f_equal. lia.
Qed.

Lemma ofInteger_normal (z : Z) : 0 < z < 2 ^ 53 -> ofInteger z = normal z.
Proof.
  intros Hz. unfold ofInteger.
  rewrite <- (binary_normalize_integer z 0) by lia.
  by rewrite Z.pow_0_r, Z.mul_1_r.
Qed.

(** Integers add exactly as long as the sum stays below 2^53. *)
Lemma plus_integers (a b : Z) :
  0 <= a -> 0 <= b -> a + b < 2 ^ 53 ->
  plus (ofInteger a) (ofInteger b) = ofInteger (a + b).
Proof.
  intros Ha Hb Hab.
  destruct (Z.eq_dec a 0) as [->|Ha0].
  { destruct (Z.eq_dec b 0) as [->|Hb0]; [done|].
    rewrite Z.add_0_l, (ofInteger_normal b) by lia. done. }
  destruct (Z.eq_dec b 0) as [->|Hb0].
  { rewrite Z.add_0_r, (ofInteger_normal a) by lia. done. }
  rewrite !ofInteger_normal by lia.
  pose proof (Zdigits2_small a ltac:(lia)) as Hda.
  pose proof (Zdigits2_small b ltac:(lia)) as Hdb.
  destruct (mantissa_bounds a ltac:(lia)) as [Hma _].
  destruct (mantissa_bounds b ltac:(lia)) as [Hmb _].
  unfold normal at 1 2. unfold plus. cbn [SFadd cond_Zopp].
  set (da := Zdigits2 a) in *. set (db := Zdigits2 b) in *.
  change IntDef.Z.min with Z.min.
  set (ez := Z.min (da - 53) (db - 53)).
  rewrite !shl_align_spec by lia. cbn [fst].
  rewrite !Z2Pos.id.
  - replace (a * 2 ^ (53 - da) * 2 ^ (da - 53 - ez)
             + b * 2 ^ (53 - db) * 2 ^ (db - 53 - ez))
      with ((a + b) * 2 ^ (- ez)).
    + replace ez with (- - ez) at 2 by lia.
      apply binary_normalize_integer; lia.
    + rewrite Z.mul_add_distr_r, <- !Z.mul_assoc, <- !Z.pow_add_r by lia.
      do 2 f_equal; f_equal; lia.
  - lia.
  - apply Z.mul_pos_pos; [lia|]. apply Z.pow_pos_nonneg; lia.
  - lia.
  - apply Z.mul_pos_pos; [lia|]. apply Z.pow_pos_nonneg; lia.
Qed.

(** The location of a remainder: exact, or below, at or above the
    middle. *)
Lemma new_location_spec (d r : Z) :
  0 <= r < d ->
  (r = 0 /\ new_location d r = loc_Exact)
  \/ (r <> 0 /\ 2 * r < d /\ new_location d r = loc_Inexact Lt)
  \/ (2 * r = d /\ new_location d r = loc_Inexact Eq)
  \/ (d < 2 * r /\ new_location d r = loc_Inexact Gt).
Proof.
  intros Hr. unfold new_location, new_location_even, new_location_odd.
  standard_Z.
  destruct (Z.eq_dec r 0) as [->|Hr0].
  { left. by destruct (Z.even d). }
  right. destruct (Z.even d) eqn:Ed; rewrite (proj2 (Z.eqb_neq r 0) Hr0).
  - destruct (Z.compare_spec (2 * r) d) as [H|H|H]; [right; left | left | right; right];
      repeat split; lia.
  - assert (Hodd : Z.odd d = true) by (rewrite <- Z.negb_even, Ed; done).
    apply Z.odd_spec in Hodd as [h Hh].
    destruct (Z.compare_spec (2 * r + 1) d) as [H|H|H]; [left | left | right; right];
      repeat split; lia.
Qed.

(** Rounding to nearest with the remainder still in place. *)
Lemma round_in_place (d q r : Z) :
  0 <= r < d ->
  let M := round_nearest_even q
             (loc_of_shr_record (shr_record_of_loc q (new_location d r))) in
  q <= M <= q + 1 /\ - d <= 2 * d * M - 2 * (q * d + r) <= d.
Proof.
  intros Hr.
  destruct (new_location_spec d r Hr) as [[-> ->]|[(? & ? & ->)|[(? & ->)|(? & ->)]]];
    cbn [shr_record_of_loc loc_of_shr_record shr_r shr_s round_nearest_even].
  - lia.
  - lia.
  - standard_Z. destruct (Z.even q); lia.
  - lia.
Qed.

(** Rounding to nearest after one digit has been shifted out. *)
Lemma round_shifted (d q r : Z) :
  0 <= r < d -> 0 < q ->
  let mrs := shr_1 (shr_record_of_loc q (new_location d r)) in
  let M := round_nearest_even (shr_m mrs) (loc_of_shr_record mrs) in
  q - 1 <= 2 * M <= q + 1 /\ - d <= 2 * d * M - (q * d + r) <= d.
Proof.
  intros Hr Hq.
  destruct q as [|p|p]; try lia.
  destruct (new_location_spec d r Hr) as [[-> ->]|[(? & ? & ->)|[(? & ->)|(? & ->)]]];
    destruct p as [p|p|];
    cbn [shr_record_of_loc shr_1 orb loc_of_shr_record shr_m shr_r shr_s round_nearest_even];
    standard_Z;
    repeat match goal with |- context [Z.even ?x] => destruct (Z.even x) end;
    first [lia | nia].
Qed.

(** The last step of rounding: a mantissa of 53 digits stays, 2^53
    becomes 2^52 at the next exponent. *)
Lemma round_aux_finish (s : bool) (M E : Z) :
  2 ^ 52 <= M <= 2 ^ 53 -> -1074 <= E <= 970 ->
  exists m e,
    (let '(mrs, e'') := shr_fexp 53 1024 M E loc_Exact in
     match shr_m mrs with
     | 0 => S754_zero s
     | Z.pos m => if e'' <=? 1024 - 53 then S754_finite s m e'' else S754_infinity s
     | Z.neg _ => S754_nan
     end) = S754_finite s m e
    /\ 2 ^ 52 <= Z.pos m < 2 ^ 53
    /\ E <= e <= E + 1
    /\ Z.pos m * 2 ^ (e - E) = M.
Proof.
  intros HM HE. unfold shr_fexp.
  destruct (Z.eq_dec M (2 ^ 53)) as [->|Hne].
  - replace (Zdigits2 (2 ^ 53)) with 54 by reflexivity.
    replace (54 + E) with (53 + (E + 1)) by lia. rewrite fexp_normal by lia.
    replace (E + 1 - E) with 1 by lia.
    exists (Z.to_pos (2 ^ 52)), (E + 1).
    cbn [shr_record_of_loc shr]. cbn -[Z.leb Z.sub].
    replace (E + 1 <=? 1024 - 53) with true by (symmetry; apply Z.leb_le; lia).
    split; [done|]. split; [done|]. split; [lia|].
    replace (E + 1 - E) with 1 by lia. reflexivity.
  - replace (Zdigits2 M) with 53
      by (symmetry; apply Zdigits2_unique; lia).
    rewrite fexp_normal by lia. rewrite Z.sub_diag.
    cbn [shr_record_of_loc shr shr_m].
    destruct M as [|p|p]; try lia.
    exists p, E.
    replace (E <=? 1024 - 53) with true by (symmetry; apply Z.leb_le; lia).
    split; [done|]. split; [lia|]. split; [lia|].
    rewrite Z.sub_diag. lia.
Qed.

(** The integer nearest to [t / n], read off an approximation [M / P] of
    the quotient on a grid finer than [1 / n]. *)
Lemma round_on_grid (t n P' M : Z) :
  0 < n -> 0 <= t -> n < 2 * P' ->
  - n <= 2 * n * M - 2 * t * (2 * P') <= n ->
  (2 * M + 2 * P') / (2 * (2 * P')) = roundQuotient t n.
Proof.
  intros Hn Ht HP Hb. unfold roundQuotient.
  pose proof (Z.div_mod (2 * t + n) (2 * n) ltac:(lia)) as Hj.
  pose proof (Z.mod_pos_bound (2 * t + n) (2 * n) ltac:(lia)) as Hs.
  set (j := (2 * t + n) / (2 * n)) in *. set (s := (2 * t + n) mod (2 * n)) in *.
  assert (Hlow : (2 * j - 1) * P' <= M).
  { assert (n * (2 * ((2 * j - 1) * P') - 1) <= n * (2 * M)) by nia.
    assert (2 * ((2 * j - 1) * P') - 1 <= 2 * M) by (apply Z.mul_le_mono_pos_l with n; lia).
    lia. }
  assert (Hhigh : M < (2 * j + 1) * P').
  { assert (n * (2 * M) < n * (2 * ((2 * j + 1) * P'))) by nia.
    assert (2 * M < 2 * ((2 * j + 1) * P')) by (apply Z.mul_lt_mono_pos_l with n; lia).
    lia. }
  symmetry. apply Z.div_unique with (2 * M + 2 * P' - 2 * (2 * P') * j); lia.
Qed.

Lemma div_core_normal (mt mn et en : Z) :
  2 ^ 52 <= mt < 2 ^ 53 -> 2 ^ 52 <= mn < 2 ^ 53 ->
  -52 <= et <= 0 -> -52 <= en <= 0 ->
  SFdiv_core_binary 53 1024 mt et mn en
  = ((mt * 2 ^ 53) / mn, et - en - 53, new_location mn ((mt * 2 ^ 53) mod mn)).
Proof.
  intros Hmt Hmn Het Hen. unfold SFdiv_core_binary.
  replace (Zdigits2 mt) with 53 by (symmetry; apply Zdigits2_unique; lia).
  replace (Zdigits2 mn) with 53 by (symmetry; apply Zdigits2_unique; lia).
  standard_Z.
  replace (53 + et - (53 + en)) with (53 + (et - en - 53)) by lia.
  rewrite fexp_normal by lia.
  replace (Z.min (et - en - 53) (et - en)) with (et - en - 53) by lia.
  replace (et - en - (et - en - 53)) with 53 by lia.
  cbv zeta. cbv iota. rewrite Z.shiftl_mul_pow2 by lia.
  unfold Z.div, Z.modulo. by destruct (Z.div_eucl (mt * 2 ^ 53) mn).
Qed.

(** The quotient of two mantissas, rounded: the result is within half a
    unit of its last digit. *)
Lemma round_quotient (d q r e' : Z) :
  0 <= r < d -> 2 ^ 52 <= q < 2 ^ 54 -> -1000 <= e' <= 900 ->
  exists m e,
    binary_round_aux 53 1024 false q e' (new_location d r) = S754_finite false m e
    /\ 2 ^ 52 <= Z.pos m
    /\ e' <= e <= e' + 2
    /\ - d * 2 ^ (e - e') <= 2 * d * Z.pos m * 2 ^ (e - e') - 2 * (q * d + r)
       <= d * 2 ^ (e - e').
Proof.
  intros Hr Hq He'. unfold binary_round_aux.
  destruct (Z.lt_ge_cases q (2 ^ 53)) as [Hlt|Hge].
  - unfold shr_fexp at 1.
    replace (Zdigits2 q) with 53 by (symmetry; apply Zdigits2_unique; lia).
    rewrite fexp_normal by lia. rewrite Z.sub_diag. cbn [shr].
    destruct (round_in_place d q r Hr) as [HM Hb].
    replace (shr_m (shr_record_of_loc q (new_location d r))) with q
      by (by destruct (new_location d r) as [|[]]).
    set (M := round_nearest_even _ _) in *.
    destruct (round_aux_finish false M e' ltac:(lia) ltac:(lia))
      as (m & e & Heq & Hm & He & HmM).
    exists m, e. split; [exact Heq|]. split; [lia|]. split; [lia|].
    assert (HK : 1 <= 2 ^ (e - e')).
    { pose proof (Z.pow_pos_nonneg 2 (e - e') ltac:(lia) ltac:(lia)). lia. }
    rewrite <- (Z.mul_assoc (2 * d)), HmM. nia.
  - unfold shr_fexp at 1.
    replace (Zdigits2 q) with 54 by (symmetry; apply Zdigits2_unique; lia).
    replace (54 + e') with (53 + (e' + 1)) by lia.
    rewrite fexp_normal by lia. replace (e' + 1 - e') with 1 by lia.
    cbn [shr SpecFloat.iter_pos].
    destruct (round_shifted d q r Hr ltac:(lia)) as [HM Hb].
    set (M := round_nearest_even _ _) in *.
    destruct (round_aux_finish false M (e' + 1) ltac:(lia) ltac:(lia))
      as (m & e & Heq & Hm & He & HmM).
    exists m, e. split; [exact Heq|]. split; [lia|]. split; [lia|].
    replace (e - e') with (Z.succ (e - (e' + 1))) by lia.
    rewrite Z.pow_succ_r by lia.
    set (K := 2 ^ (e - (e' + 1))) in *.
    assert (HK : 1 <= K).
    { pose proof (Z.pow_pos_nonneg 2 (e - (e' + 1)) ltac:(lia) ltac:(lia)). lia. }
    replace (2 * d * Z.pos m * (2 * K)) with (4 * d * (Z.pos m * K)) by lia.
    rewrite HmM. nia.
Qed.

Lemma Zdigits2_below (z : Z) (k : Z) : 0 < z < 2 ^ k -> 0 < k -> Zdigits2 z <= k.
Proof.
  intros Hz Hk. destruct (Zdigits2_bounds z ltac:(lia)) as [Hd Hb].
  destruct (Z.le_gt_cases (Zdigits2 z) k) as [|H]; [done|].
  assert (2 ^ k <= 2 ^ (Zdigits2 z - 1)) by (apply Z.pow_le_mono_r; lia). lia.
Qed.

(** The quotient of two integers as a double: within half a unit of its
    last digit of the true quotient. *)
Lemma divide_integers (t n : Z) :
  0 < t < 2 ^ 52 -> 0 < n < 2 ^ 53 ->
  exists m e,
    divide (ofInteger t) (ofInteger n) = S754_finite false m e
    /\ 2 ^ 52 <= Z.pos m
    /\ e <= 0
    /\ - n <= 2 * n * Z.pos m - 2 * t * 2 ^ (- e) <= n.
Proof.
  intros Ht Hn. rewrite !ofInteger_normal by lia.
  pose proof (Zdigits2_below t 52 Ht ltac:(lia)) as Hdt.
  pose proof (Zdigits2_small n Hn) as Hdn.
  destruct (Zdigits2_bounds t ltac:(lia)) as [Hdt0 _].
  destruct (mantissa_bounds t ltac:(lia)) as [Hmt _].
  destruct (mantissa_bounds n Hn) as [Hmn _].
  unfold normal, divide. cbn [SFdiv xorb].
  set (dt := Zdigits2 t) in *. set (dn := Zdigits2 n) in *.
  set (mt := t * 2 ^ (53 - dt)) in *. set (mn := n * 2 ^ (53 - dn)) in *.
  rewrite !Z2Pos.id by lia.
  rewrite div_core_normal by lia.
  set (q := mt * 2 ^ 53 / mn). set (r := (mt * 2 ^ 53) mod mn).
  set (e' := dt - 53 - (dn - 53) - 53).
  pose proof (Z.div_mod (mt * 2 ^ 53) mn ltac:(lia)) as Hqr. fold q r in Hqr.
  pose proof (Z.mod_pos_bound (mt * 2 ^ 53) mn ltac:(lia)) as Hr. fold r in Hr.
  assert (Hq : 2 ^ 52 <= q < 2 ^ 54).
  { split.
    - apply Z.div_le_lower_bound; [lia|]. nia.
    - apply Z.div_lt_upper_bound; [lia|]. nia. }
  destruct (round_quotient mn q r e' Hr Hq ltac:(unfold e'; lia))
    as (m & e & -> & Hm & He & Hb).
  exists m, e. split; [done|]. split; [done|]. split; [unfold e' in He; lia|].
  set (K := 2 ^ (e - e')) in *. set (P := 2 ^ (- e)).
  assert (HK : 0 < K) by (apply Z.pow_pos_nonneg; lia).
  assert (HKP : P * K = 2 ^ (53 + dn - dt)).
  { unfold P, K. rewrite <- Z.pow_add_r by (unfold e' in He; lia).
    f_equal. unfold e'. lia. }
  assert (Heq : t * (P * K) * mn = n * (q * mn + r)).
  { replace (q * mn + r) with (mt * 2 ^ 53) by lia. rewrite HKP. unfold mt, mn.
    replace (t * 2 ^ (53 + dn - dt) * (n * 2 ^ (53 - dn)))
      with (t * n * (2 ^ (53 + dn - dt) * 2 ^ (53 - dn))) by lia.
    replace (n * (t * 2 ^ (53 - dt) * 2 ^ 53))
      with (t * n * (2 ^ (53 - dt) * 2 ^ 53)) by lia.
    rewrite <- !Z.pow_add_r by lia. do 2 f_equal. lia. }
  set (Y := 2 * n * Z.pos m - 2 * t * P).
  assert (HY : Y * (K * mn) = n * (2 * mn * Z.pos m * K - 2 * (q * mn + r))).
  { unfold Y.
    transitivity (2 * n * mn * Z.pos m * K - 2 * (t * (P * K) * mn)); [ring|].
    rewrite Heq. ring. }
  assert (HKm : 0 < K * mn) by (apply Z.mul_pos_pos; lia).
  split.
  - apply Z.mul_le_mono_pos_r with (K * mn); [done|]. rewrite HY. nia.
  - apply Z.mul_le_mono_pos_r with (K * mn); [done|]. rewrite HY. nia.
Qed.

(** [Math.round] of such an approximation is the integer nearest to the
    true quotient. *)
Lemma mathRound_approximation (t n : Z) (m : positive) (e : Z) :
  0 < n -> 0 <= t < 2 ^ 52 -> 2 ^ 52 <= Z.pos m -> e <= 0 ->
  - n <= 2 * n * Z.pos m - 2 * t * 2 ^ (- e) <= n ->
  mathRound (S754_finite false m e) = ofInteger (roundQuotient t n).
Proof.
  intros Hn Ht Hm He Hb.
  assert (He0 : e < 0).
  { destruct (Z.eq_dec e 0) as [->|]; [|lia]. simpl in Hb. nia. }
  set (P' := 2 ^ (- e - 1)).
  assert (HP' : 0 < P') by (apply Z.pow_pos_nonneg; lia).
  assert (HP : 2 ^ (- e) = 2 * P').
  { unfold P'. rewrite <- Z.pow_succ_r by lia. f_equal. lia. }
  rewrite HP in Hb.
  assert (HnP : n < 2 * P') by nia.
  unfold mathRound.
  replace (0 <=? e) with false by (symmetry; apply Z.leb_gt; lia).
  cbn [cond_Zopp].
  replace (2 ^ (1 - e)) with (2 * (2 * P')).
  - rewrite HP. rewrite (round_on_grid t n P' (Z.pos m)) by lia.
    destruct (Z.eqb_spec (roundQuotient t n) 0) as [->|]; done.
  - rewrite <- HP, <- Z.pow_succ_r by lia. f_equal. lia.
Qed.

Lemma roundQuotient_zero (n : Z) : 0 < n -> roundQuotient 0 n = 0.
Proof. intros Hn. unfold roundQuotient. apply Z.div_small. lia. Qed.

(** The rounded quotient of two integers, computed on doubles, is the
    integer nearest to the quotient when the dividend is below 2^52. *)
Lemma mathRound_divide (t n : Z) :
  0 <= t < 2 ^ 52 -> 0 < n < 2 ^ 53 ->
  mathRound (divide (ofInteger t) (ofInteger n)) = ofInteger (roundQuotient t n).
Proof.
  intros Ht Hn. destruct (Z.eq_dec t 0) as [->|Ht0].
  - rewrite roundQuotient_zero by lia. rewrite (ofInteger_normal n) by lia. done.
  - destruct (divide_integers t n ltac:(lia) Hn) as (m & e & -> & Hm & He & Hb).
    apply mathRound_approximation; [lia | done..].
Qed.

Lemma roundQuotient_bounds (t n : Z) :
  0 < n ->
  n * (2 * roundQuotient t n - 1) <= 2 * t < n * (2 * roundQuotient t n + 1).
Proof.
  intros Hn. unfold roundQuotient.
  pose proof (Z.div_mod (2 * t + n) (2 * n) ltac:(lia)) as Hdm.
  pose proof (Z.mod_pos_bound (2 * t + n) (2 * n) ltac:(lia)) as Hb.
  nia.
Qed.

Lemma roundQuotient_multiple (n R : Z) : 0 < n -> roundQuotient (n * R) n = R.
Proof.
  intros Hn. unfold roundQuotient.
  replace (2 * (n * R) + n) with (n + R * (2 * n)) by lia.
  rewrite Z.div_add by lia. rewrite Z.div_small by lia. lia.
Qed.

Local Close Scope Z_scope.

(** ** The technical-depth tier *)

(** C5: with the same numbers of found terms per tier, a text with at
    least as many fenced code blocks has at least as high a tier. *)
Theorem depth_monotone_in_code_blocks (c1 c2 : text) :
  let r1 := analyzeTechnicalDepth c1 in
  let r2 := analyzeTechnicalDepth c2 in
  length (beginner (technicalTerms r1)) = length (beginner (technicalTerms r2)) ->
  length (intermediate (technicalTerms r1)) = length (intermediate (technicalTerms r2)) ->
  length (advanced (technicalTerms r1)) = length (advanced (technicalTerms r2)) ->
  codeBlockCount r1 <= codeBlockCount r2 ->
  tier (depth r1) <= tier (depth r2).
Proof.
  cbv zeta. unfold analyzeTechnicalDepth; cbn [depth codeBlockCount technicalTerms advanced intermediate beginner].
  intros _ Hm Ha Hb. rewrite Hm, Ha. unfold decideDepth.
  set (a := length (foundIn c2 (advanced technicalTermsDict))).
  set (m := length (foundIn c2 (intermediate technicalTermsDict))).
  set (b1 := length (matchAll fenceAt c1)) in *.
  set (b2 := length (matchAll fenceAt c2)) in *.
  clearbody a m b1 b2.
  destruct (Nat.ltb_spec 2 a), (Nat.ltb_spec 5 b1), (Nat.ltb_spec 5 b2),
    (Nat.ltb_spec 3 m), (Nat.ltb_spec 2 b1), (Nat.ltb_spec 2 b2); cbn; lia.
Qed.

Lemma depth_monotone_in_code_blocks_witness :
  let c1 := lit "a loop ```x``` and an array" in
  let c2 := lit "```a``` loop ```b``` array ```c```" in
  codeBlockCount (analyzeTechnicalDepth c1) = 1
  /\ codeBlockCount (analyzeTechnicalDepth c2) = 3
  /\ tier (depth (analyzeTechnicalDepth c1)) <= tier (depth (analyzeTechnicalDepth c2)).
Proof.
  cbv zeta. split; [vm_compute; reflexivity|]. split; [vm_compute; reflexivity|].
  apply depth_monotone_in_code_blocks.
  - vm_compute; reflexivity.
  - vm_compute; reflexivity.
  - vm_compute; reflexivity.
  - vm_compute. lia.
Defined.

(** ** Average reactions *)

Lemma total_of_integers (articles : list Article) (counts : list Z) (acc : Z) :
  Forall2 (fun a k => public_reactions_count a = ofInteger k /\ (0 <= k)%Z)
          articles counts ->
  (0 <= acc)%Z -> (acc + sumZ counts < 2 ^ 53)%Z ->
  foldl (fun sum article => plus sum (public_reactions_count article))
        (ofInteger acc) articles
  = ofInteger (acc + sumZ counts).
Proof.
  intros H. revert acc. induction H as [|a k l ks [Ha Hk] Hl IH]; intros acc Hacc Hsum.
  - simpl. by rewrite Z.add_0_r.
  - simpl in Hsum |- *.
    assert (Hks : (0 <= sumZ ks)%Z).
    { clear -Hl. induction Hl as [|? ? ? ? [_ ?] _ IH']; simpl; lia. }
    rewrite Ha, plus_integers by lia. rewrite IH by lia. f_equal. lia.
Qed.

Lemma sumZ_nonneg (articles : list Article) (counts : list Z) :
  Forall2 (fun a k => public_reactions_count a = ofInteger k /\ (0 <= k)%Z)
          articles counts ->
  (0 <= sumZ counts)%Z.
Proof. induction 1 as [|? ? ? ? [_ ?] _ IH]; simpl; lia. Qed.

(** The average of integer counts of moderate size is the rounded mean. *)
Lemma calculateAverageReactions_exact (articles : list Article) (counts : list Z) :
  articles <> [] -> (Z.of_nat (length articles) < 2 ^ 32)%Z ->
  Forall2 (fun a k => public_reactions_count a = ofInteger k /\ (0 <= k)%Z)
          articles counts ->
  (sumZ counts < 2 ^ 52)%Z ->
  calculateAverageReactions articles
  = ofInteger (roundQuotient (sumZ counts) (Z.of_nat (length articles))).
Proof.
  intros Hne Hlen Hall Hsum. unfold calculateAverageReactions.
  destruct articles as [|a l]; [done|].
  replace (length (a :: l) =? 0) with false by done.
  pose proof (sumZ_nonneg _ _ Hall) as Hpos.
  rewrite (total_of_integers _ counts 0 Hall) by lia. rewrite Z.add_0_l.
  apply mathRound_divide; [lia|].
  assert ((2 ^ 32 < 2 ^ 53)%Z) by done.
  simpl length in *. lia.
Qed.

Lemma sumZ_constant (counts : list Z) (R : Z) :
  Forall (fun k => k = R) counts -> sumZ counts = (Z.of_nat (length counts) * R)%Z.
Proof.
  induction 1 as [|k l Hk _ IH]; simpl sumZ; simpl length.
  - lia.
  - rewrite IH, Hk. lia.
Qed.

(** C6, as the code has it: the average of no article is 0.  When the
    reaction counts are non-negative integers with a sum below 2^52, the
    average of a non-empty list is the sum of the counts divided by the
    number of articles and rounded to the nearest integer; when every
    article has the count [R], the average is [R].  [counts] lists the
    reaction counts of [articles]; an array has fewer than 2^32
    elements. *)
Theorem average_reactions (articles : list Article) (counts : list Z) (R : Z) :
  let n := Z.of_nat (length articles) in
  let t := sumZ counts in
  let integers :=
    Forall2 (fun a k => public_reactions_count a = ofInteger k /\ (0 <= k)%Z)
            articles counts in
  calculateAverageReactions [] = ofInteger 0
  /\ (articles <> [] -> (n < 2 ^ 32)%Z -> integers -> (t < 2 ^ 52)%Z ->
      exists r, calculateAverageReactions articles = ofInteger r
                /\ (n * (2 * r - 1) <= 2 * t < n * (2 * r + 1))%Z)
  /\ (articles <> [] -> (n < 2 ^ 32)%Z -> integers -> (t < 2 ^ 52)%Z ->
      Forall (fun k => k = R) counts ->
      calculateAverageReactions articles = ofInteger R).
Proof.
  cbv zeta. split; [reflexivity|].
  assert (Hpos : articles <> [] -> (0 < Z.of_nat (length articles))%Z).
  { destruct articles; [congruence | simpl; lia]. }
  split.
  - intros Hne Hlen Hall Hsum. eexists. split.
    + by apply calculateAverageReactions_exact.
    + apply roundQuotient_bounds. auto.
  - intros Hne Hlen Hall Hsum Hconst.
    rewrite (calculateAverageReactions_exact _ counts) by done.
    rewrite (sumZ_constant _ _ Hconst), <- (Forall2_length _ _ _ Hall).
    rewrite roundQuotient_multiple by auto. done.
Qed.

Lemma average_reactions_witness :
  let articles := [article 7; article 7; article 7] in
  articles <> []
  /\ Forall (fun k => k = 7%Z) [7; 7; 7]%Z
  /\ (exists r, calculateAverageReactions articles = ofInteger r
                /\ (3 * (2 * r - 1) <= 2 * 21 < 3 * (2 * r + 1))%Z)
  /\ calculateAverageReactions articles = ofInteger 7.
Proof.
  cbv zeta.
  set (articles := [article 7; article 7; article 7]).
  assert (Hne : articles <> []) by discriminate.
  assert (Hlen : (Z.of_nat (length articles) < 2 ^ 32)%Z) by done.
  assert (Hall : Forall2 (fun a k => public_reactions_count a = ofInteger k /\ (0 <= k)%Z)
                         articles [7; 7; 7]%Z)
    by (repeat constructor; lia).
  assert (Hsum : (sumZ [7; 7; 7] < 2 ^ 52)%Z) by done.
  assert (Hconst : Forall (fun k => k = 7%Z) [7; 7; 7]%Z) by (repeat constructor).
  destruct (average_reactions articles [7; 7; 7]%Z 7) as (_ & Hnear & Hsame).
  split; [exact Hne|]. split; [exact Hconst|].
  split; [exact (Hnear Hne Hlen Hall Hsum) | exact (Hsame Hne Hlen Hall Hsum Hconst)].
Defined.

(** C6, as stated, fails for large counts: the sum and the quotient are
    rounded to doubles.  Five articles of 2^53 - 1 reactions each have
    the average 2^53 - 2, and the average of 6755399441055745, 0 and 0 is
    not the integer nearest to the mean. *)
Lemma average_loses_precision :
  let R := (2 ^ 53 - 1)%Z in
  let same := repeat (article R) 5 in
  let big := 6755399441055745%Z in
  calculateAverageReactions same = ofInteger (R - 1)
  /\ calculateAverageReactions same <> ofInteger R
  /\ roundQuotient (big + 0 + 0) 3 = 2251799813685248%Z
  /\ calculateAverageReactions [article big; article 0; article 0]
     = ofInteger 2251799813685249.
Proof.
  cbv zeta. split; [vm_compute; reflexivity|]. split; [vm_compute; discriminate|].
  split; vm_compute; reflexivity.
Qed.

(** ** Introduction and conclusion flags *)

(** C10, as the code has it: on a body without [##], [hasIntroduction]
    holds exactly when the whole body contains "introduction" in any
    letter case or the body in lower case is longer than 200 code units,
    and [hasConclusion] holds exactly when the whole body contains
    "conclusion", "summary" or "final thoughts" in any letter case. *)
Theorem flags_without_heading (content : text) :
  includes content (lit "##") = false ->
  (hasIntroduction content = true <->
   containsCI content (lit "introduction") \/ 200 < length (toLowerCase content))
  /\ (hasConclusion content = true <->
      containsCI content (lit "conclusion")
      \/ containsCI content (lit "summary")
      \/ containsCI content (lit "final thoughts")).
Proof.
  intros Hno. unfold hasIntroduction, hasConclusion.
  rewrite (split_absent _ _ Hno). cbn [hd List.last]. split.
  - rewrite orb_true_iff, Nat.ltb_lt.
    by rewrite includes_toLowerCase_iff by apply plain_introduction.
  - rewrite !orb_true_iff.
    rewrite (includes_toLowerCase_iff _ _ plain_conclusion),
      (includes_toLowerCase_iff _ _ plain_summary),
      (includes_toLowerCase_iff _ _ plain_final_thoughts).
    tauto.
Qed.

Lemma flags_without_heading_witness :
  let content := lit "A short Introduction. In SUMMARY: nothing." in
  includes content (lit "##") = false
  /\ hasIntroduction content = true
  /\ hasConclusion content = true.
Proof.
  cbv zeta.
  assert (Hno : includes (lit "A short Introduction. In SUMMARY: nothing.") (lit "##") = false)
    by (vm_compute; reflexivity).
  split; [exact Hno|].
  destruct (flags_without_heading _ Hno) as [Hi Hc].
  split.
  - apply Hi. left. exists (lit "A short "), (lit "Introduction"), (lit ". In SUMMARY: nothing.").
    split; vm_compute; reflexivity.
  - apply Hc. right. left.
    exists (lit "A short Introduction. In "), (lit "SUMMARY"), (lit ": nothing.").
    split; vm_compute; reflexivity.
Defined.

(** C10, as stated, fails on a body of 200 code units that begins with
    U+0130: in lower case the body has 201 code units. *)
Lemma introduction_measured_in_lower_case :
  let content := 0x130%N :: repeat (ch "x") 199 in
  includes content (lit "##") = false
  /\ length content = 200
  /\ ~ containsCI content (lit "introduction")
  /\ length (toLowerCase content) = 201
  /\ hasIntroduction content = true.
Proof.
  cbv zeta. split; [vm_compute; reflexivity|]. split; [vm_compute; reflexivity|].
  split; [|split; vm_compute; reflexivity].
  intros H. apply includes_fold_iff in H. vm_compute in H. discriminate.
Qed.


(** ** The two passes of the comment-tree builder *)

Section Passes.

Implicit Types (comments : list DevToComment) (c : DevToComment).
Implicit Types (i j : nat) (p : Z) (t : Tree).

Lemma indexed_snoc comments c :
  indexed (comments ++ [c]) = indexed comments ++ [(length comments, c)].
Proof. unfold indexed. rewrite imap_app. simpl. by rewrite Nat.add_0_r. Qed.

Lemma elem_of_indexed comments i c :
  (i, c) ∈ indexed comments <-> comments !! i = Some c.
Proof.
  unfold indexed. rewrite elem_of_lookup_imap. split.
  - intros (j & y & Heq & H). by simplify_eq.
  - intros H. eauto.
Qed.

Lemma indexed_fst comments : (indexed comments).*1 = seq 0 (length comments).
Proof.
  induction comments as [|c comments IH] using rev_ind; [done|].
  by rewrite indexed_snoc, fmap_app, IH, length_app, seq_app.
Qed.

Lemma firstPass_snoc comments c :
  foldl register (∅, ∅) (indexed (comments ++ [c]))
  = register (foldl register (∅, ∅) (indexed comments)) (length comments, c).
Proof. by rewrite indexed_snoc, foldl_snoc. Qed.

Lemma firstPass_heap comments j :
  (foldl register (∅, ∅) (indexed comments)).1 !! j
  = if decide (j < length comments) then Some [] else None.
Proof.
  induction comments as [|c comments IH] using rev_ind.
  - case_decide; [simpl in *; lia|]. apply lookup_empty.
  - rewrite firstPass_snoc, length_app. unfold register at 1. cbn [fst snd length].
    rewrite lookup_insert, IH. repeat case_decide; done || lia.
Qed.

Lemma commentMapOf_snoc comments c :
  commentMapOf (comments ++ [c]) = <[id c := length comments]> (commentMapOf comments).
Proof. unfold commentMapOf. rewrite firstPass_snoc. by unfold register at 1. Qed.

Lemma commentMapOf_Some comments p j :
  commentMapOf comments !! p = Some j ->
  exists c, comments !! j = Some c /\ id c = p.
Proof.
  induction comments as [|c comments IH] using rev_ind.
  - unfold commentMapOf. simpl. by rewrite lookup_empty.
  - rewrite commentMapOf_snoc, lookup_insert. case_decide as Hp.
    + intros [= <-]. exists c. split; [|done].
      by rewrite lookup_app_r, Nat.sub_diag.
    + intros H. destruct (IH H) as (c' & Hc' & Hid).
      exists c'. split; [|done]. by apply lookup_app_l_Some.
Qed.

Lemma commentMapOf_is_Some comments j c :
  comments !! j = Some c -> is_Some (commentMapOf comments !! id c).
Proof.
  induction comments as [|x comments IH] using rev_ind; [done|].
  intros H. rewrite commentMapOf_snoc, lookup_insert.
  case_decide; [by eexists|].
  apply IH. apply lookup_app_Some in H as [H | [_ H]]; [done|].
  destruct (j - length comments) as [|k]; simplify_eq/=; done.
Qed.

Lemma commentMapOf_None comments p :
  p ∉ map id comments -> commentMapOf comments !! p = None.
Proof.
  intros Hp. destruct (commentMapOf comments !! p) as [j|] eqn:E; [|done].
  destruct (commentMapOf_Some _ _ _ E) as (c & Hc & <-).
  destruct Hp. change (map id comments) with (id <$> comments).
  apply list_elem_of_fmap. exists c. split; [done|].
  by eapply list_elem_of_lookup_2.
Qed.

Lemma commentMapOf_unique comments j c :
  NoDup (map id comments) ->
  comments !! j = Some c -> commentMapOf comments !! id c = Some j.
Proof.
  intros Hnd Hj. destruct (commentMapOf_is_Some _ _ _ Hj) as [j' Hj'].
  rewrite Hj'. f_equal.
  destruct (commentMapOf_Some _ _ _ Hj') as (c' & Hc' & Hid).
  change (map id comments) with (id <$> comments) in Hnd.
  eapply (NoDup_lookup _ _ _ _ Hnd).
  - by rewrite list_lookup_fmap, Hc'.
  - rewrite list_lookup_fmap, Hj. simpl. by rewrite Hid.
Qed.

Lemma secondPass (m : gmap Z nat) (ics : list (nat * DevToComment)) t0 :
  (forall i c p j, (i, c) ∈ ics -> declaredParent c = Some p ->
                   m !! p = Some j -> is_Some (children t0 !! j)) ->
  exists t,
    foldl (fun acc ic => t ← acc; attach m t ic) (Some t0) ics = Some t
    /\ rootComments t
       = rootComments t0 ++ (filter (fun ic => declaredParent ic.2 = None) ics).*1
    /\ forall j,
        children t !! j
        = (fun cs => cs ++ (filter (fun ic => declaredParent ic.2 ≫= (m !!.) = Some j)
                              ics).*1)
            <$> children t0 !! j.
Proof.
  revert t0. induction ics as [|[i c] ics IH]; intros t0 Hdom.
  - exists t0. split; [done|]. split; [by rewrite app_nil_r|].
    intros j. rewrite filter_nil. simpl.
    destruct (children t0 !! j); simpl; by rewrite ?app_nil_r.
  - assert (Hstep : exists t1,
               attach m t0 (i, c) = Some t1
               /\ rootComments t1
                  = rootComments t0
                    ++ (filter (fun ic => declaredParent ic.2 = None) [(i, c)]).*1
               /\ forall j,
                   children t1 !! j
                   = (fun cs => cs ++ (filter (fun ic => declaredParent ic.2 ≫= (m !!.)
                                                         = Some j) [(i, c)]).*1)
                       <$> children t0 !! j).
    { unfold attach. cbn [fst snd].
      destruct (declaredParent c) as [p|] eqn:Hp.
      - destruct (m !! p) as [j0|] eqn:Hm.
        + destruct (Hdom i c p j0) as [cs Hcs]; [by left|done|done|].
          unfold push. rewrite Hcs. simpl. eexists. split; [done|]. simpl.
          split.
          * rewrite filter_cons_False, filter_nil; [by rewrite app_nil_r|].
            simpl. by rewrite Hp.
          * intros j. rewrite lookup_insert. case_decide as Hj.
            -- subst j. rewrite Hcs. simpl.
               rewrite filter_cons_True, filter_nil; [done|].
               simpl. by rewrite Hp.
            -- rewrite filter_cons_False, filter_nil.
               ++ simpl. destruct (children t0 !! j); simpl; by rewrite ?app_nil_r.
               ++ simpl. rewrite Hp. simpl. rewrite Hm. congruence.
        + exists t0. split; [done|]. split.
          * rewrite filter_cons_False, filter_nil; [by rewrite app_nil_r|].
            simpl. by rewrite Hp.
          * intros j. rewrite filter_cons_False, filter_nil.
            -- simpl. destruct (children t0 !! j); simpl; by rewrite ?app_nil_r.
            -- simpl. rewrite Hp. simpl. by rewrite Hm.
      - eexists. split; [done|]. simpl. split.
        + rewrite filter_cons_True, filter_nil; [done|]. done.
        + intros j. rewrite filter_cons_False, filter_nil.
          * simpl. destruct (children t0 !! j); simpl; by rewrite ?app_nil_r.
          * simpl. by rewrite Hp. }
    destruct Hstep as (t1 & Hatt & Hroots1 & Hkids1).
    destruct (IH t1) as (t & Hfold & Hroots & Hkids).
    { intros i' c' p j Hin Hp Hm. rewrite Hkids1.
      apply fmap_is_Some. eapply Hdom; [by right|done|done]. }
    exists t. split.
    { simpl. rewrite Hatt. exact Hfold. }
    split.
    + rewrite Hroots, Hroots1, <- app_assoc, <- fmap_app.
      by rewrite <- filter_app.
    + intros j. rewrite Hkids, Hkids1, <- option_fmap_compose.
      apply option_fmap_ext. intros cs. simpl.
      rewrite <- app_assoc, <- fmap_app. by rewrite <- filter_app.
Qed.

(** The builder returns, and its output is determined index by index. *)
Lemma buildCommentTree_char comments :
  exists t,
    buildCommentTree comments = Some t
    /\ rootComments t
       = (filter (fun ic => declaredParent ic.2 = None) (indexed comments)).*1
    /\ forall j,
        children t !! j
        = if decide (j < length comments)
          then Some (filter (fun ic => declaredParent ic.2 ≫= (commentMapOf comments !!.)
                                       = Some j) (indexed comments)).*1
          else None.
Proof.
  unfold buildCommentTree.
  pose proof (firstPass_heap comments) as Hheap.
  unfold commentMapOf.
  destruct (foldl register (∅, ∅) (indexed comments)) as [heap m] eqn:E.
  cbn [fst snd] in *.
  destruct (secondPass m (indexed comments)
              {| rootComments := []; children := heap |})
    as (t & Hfold & Hroots & Hkids).
  { intros i c p j Hin Hp Hm. simpl. rewrite Hheap.
    assert (exists c', comments !! j = Some c') as [c' Hc'].
    { pose proof (commentMapOf_Some comments p j) as H.
      unfold commentMapOf in H. rewrite E in H. destruct (H Hm) as (c' & ? & _). eauto. }
    apply lookup_lt_Some in Hc'. case_decide; [by eexists|lia]. }
  exists t. split; [done|]. split; [done|].
  intros j. rewrite Hkids. simpl. rewrite Hheap. by case_decide.
Qed.

End Passes.

Section Shape.

Context (P : nat * DevToComment -> Prop) `{!forall ic, Decision (P ic)}.

Lemma elem_of_filter_indexed (comments : list DevToComment) (i : nat) :
  i ∈ (filter P (indexed comments)).*1
  <-> exists c, comments !! i = Some c /\ P (i, c).
Proof.
  rewrite list_elem_of_fmap. split.
  - intros ([i' c] & -> & Hin). apply list_elem_of_filter in Hin as [HP Hin].
    apply elem_of_indexed in Hin. eauto.
  - intros (c & Hc & HP). exists (i, c). split; [done|].
    apply list_elem_of_filter. split; [done|]. by apply elem_of_indexed.
Qed.

Lemma NoDup_filter_indexed (comments : list DevToComment) :
  NoDup (filter P (indexed comments)).*1.
Proof.
  apply (sublist_NoDup _ (seq 0 (length comments))); [apply NoDup_seq|].
  rewrite <- indexed_fst. apply fmap_sublist, sublist_filter.
Qed.

End Shape.

(** The shape of the output: which references are roots, and which
    references each children array holds. *)
Lemma tree_shape (comments : list DevToComment) :
  exists t,
    buildCommentTree comments = Some t
    /\ NoDup (rootComments t)
    /\ (forall i, i ∈ rootComments t <-> top comments i)
    /\ (forall j, j < length comments ->
                  exists cs, children t !! j = Some cs /\ NoDup cs
                             /\ forall i, i ∈ cs <-> parentRef comments i = Some j)
    /\ (forall j, length comments <= j -> children t !! j = None).
Proof.
  destruct (buildCommentTree_char comments) as (t & Hbuild & Hroots & Hkids).
  exists t. split; [done|]. split; [|split; [|split]].
  - rewrite Hroots. apply NoDup_filter_indexed.
  - intros i. rewrite Hroots, elem_of_filter_indexed. done.
  - intros j Hj. eexists. split; [|split].
    + rewrite Hkids. by case_decide; [|lia].
    + apply NoDup_filter_indexed.
    + intros i. rewrite elem_of_filter_indexed. unfold parentRef. split.
      * intros (c & -> & H). done.
      * destruct (comments !! i) as [c|]; [|done]. eauto.
  - intros j Hj. rewrite Hkids. by case_decide; [lia|].
Qed.

(** ** Pre-order traversal of a forest given by parent links

    The heap of the builder's output is read here as a forest: [tops] are
    the roots, [par] gives the parent of a node, and the array of a node
    holds exactly the nodes whose parent it is.  The traversal is compared
    with the list of all nodes level by level. *)

Section Forest.

Variables (n : nat) (heap : gmap nat (list nat)) (tops : list nat).
Variable par : nat -> option nat.

Hypothesis tops_NoDup : NoDup tops.
Hypothesis tops_par : forall r, r ∈ tops -> par r = None.
Hypothesis tops_lt : forall r, r ∈ tops -> r < n.
Hypothesis kids_NoDup : forall j, NoDup (childrenOf heap j).
Hypothesis kids_par : forall j i, i ∈ childrenOf heap j <-> par i = Some j.
Hypothesis par_lt : forall i j, par i = Some j -> i < n.

Local Abbreviation kids := (childrenOf heap).
Local Abbreviation level := (level heap).
Local Abbreviation depthAt := (depthAt tops par).

Lemma level_shift k L : level (S k) L = level k (flat_map kids L).
Proof. induction k as [|k IH]; [done|]. simpl in *. by rewrite IH. Qed.

Lemma preorder_step d L :
  flat_map (preorder heap (S d)) L
  ≡ₚ L ++ flat_map (preorder heap d) (flat_map kids L).
Proof.
  induction L as [|r L IH]; [done|].
  cbn [flat_map preorder]. fold (kids r).
  rewrite flat_map_app, IH. simpl. constructor.
  rewrite !app_assoc. apply Permutation_app_tail, Permutation_app_comm.
Qed.

Lemma preorder_levels d L :
  flat_map (preorder heap d) L ≡ₚ flat_map (fun k => level k L) (seq 0 d).
Proof.
  revert L. induction d as [|d IH]; intros L.
  - simpl. induction L; done.
  - rewrite preorder_step, IH. cbn [seq flat_map level].
    apply Permutation_app_head.
    assert (Hshift : forall m a,
               flat_map (fun k => level k (flat_map kids L)) (seq a m)
               = flat_map (fun k => level k L) (seq (S a) m)).
    { induction m as [|m IHm]; intros a; [done|].
      cbn [seq flat_map]. by rewrite IHm, level_shift. }
    by rewrite Hshift.
Qed.

Lemma count_occ_NoDup (l : list nat) x :
  NoDup l -> count_occ Nat.eq_dec l x = if decide (x ∈ l) then 1 else 0.
Proof.
  intros Hnd. case_decide as Hin.
  - apply NoDup_ListNoDup in Hnd.
    apply (proj1 (NoDup_count_occ' Nat.eq_dec l) Hnd). by apply list_elem_of_In.
  - apply count_occ_not_In. by rewrite <- list_elem_of_In.
Qed.

Lemma count_occ_kids L x :
  count_occ Nat.eq_dec (flat_map kids L) x
  = from_option (count_occ Nat.eq_dec L) 0 (par x).
Proof.
  induction L as [|j L IH].
  - simpl. by destruct (par x).
  - cbn [flat_map]. rewrite count_occ_app, IH, (count_occ_NoDup (kids j)) by done.
    destruct (par x) as [j'|] eqn:Hx; simpl.
    + destruct (Nat.eq_dec j j') as [->|Hne].
      * rewrite decide_True by by apply kids_par. done.
      * rewrite decide_False; [done|]. rewrite kids_par, Hx. congruence.
    + rewrite decide_False; [done|]. rewrite kids_par, Hx. done.
Qed.

Lemma count_occ_level k x :
  forall d, depthAt d x ->
  count_occ Nat.eq_dec (level k tops) x = if decide (k = d) then 1 else 0.
Proof.
  intros d Hd. revert k. induction Hd as [r Hr | d i j Hi Hj IH]; intros [|k]; simpl.
  - rewrite count_occ_NoDup by done. by rewrite decide_True.
  - rewrite count_occ_kids, (tops_par r Hr). done.
  - rewrite count_occ_NoDup by done. rewrite decide_False; [done|].
    intros Hin. apply tops_par in Hin. congruence.
  - rewrite count_occ_kids, Hi. simpl. rewrite IH.
    repeat case_decide; done || lia.
Qed.

Lemma count_occ_level_outside k x :
  n <= x -> count_occ Nat.eq_dec (level k tops) x = 0.
Proof.
  intros Hx. destruct k as [|k]; simpl.
  - rewrite count_occ_NoDup by done. rewrite decide_False; [done|].
    intros Hin. apply tops_lt in Hin. lia.
  - rewrite count_occ_kids. destruct (par x) as [j|] eqn:E; [|done].
    apply par_lt in E. lia.
Qed.

Lemma depthAt_unique k k' x : depthAt k x -> depthAt k' x -> k = k'.
Proof.
  intros H H'. pose proof (count_occ_level k x k H) as E.
  rewrite (count_occ_level k x k' H') in E.
  rewrite (decide_True (P := k = k)) in E by done. by case_decide.
Qed.

Lemma depthAt_chain k x :
  depthAt k x ->
  exists l, length l = S k /\ NoDup l
            /\ forall y, y ∈ l -> y < n /\ exists k', k' <= k /\ depthAt k' y.
Proof.
  induction 1 as [r Hr | k i j Hi Hj (l & Hlen & Hnd & Hl)].
  - exists [r]. split; [done|]. split; [apply NoDup_singleton|].
    intros y ->%list_elem_of_singleton. split; [by apply tops_lt|].
    exists 0. split; [done | by constructor].
  - exists (i :: l). split; [simpl; by rewrite Hlen|]. split.
    + constructor; [|done]. intros Hin. destruct (Hl i Hin) as (_ & k' & Hle & Hk').
      assert (k' = S k) by (eapply depthAt_unique; [done | by econstructor]). lia.
    + intros y [->|Hin]%elem_of_cons.
      * split; [by eapply par_lt|]. exists (S k). split; [done | by econstructor].
      * destruct (Hl y Hin) as (Hlt & k' & Hle & Hk'). split; [done|].
        exists k'. split; [lia | done].
Qed.

Lemma depthAt_bound k x : depthAt k x -> k < n.
Proof.
  intros (l & Hlen & Hnd & Hl)%depthAt_chain.
  assert (Hsub : l ⊆+ seq 0 n).
  { apply NoDup_submseteq; [done|]. intros y Hy. apply elem_of_seq.
    destruct (Hl y Hy). lia. }
  apply submseteq_length in Hsub. rewrite length_seq in Hsub. lia.
Qed.

Lemma count_occ_levels (f : nat -> list nat) x k :
  (forall k', count_occ Nat.eq_dec (f k') x = if decide (k' = k) then 1 else 0) ->
  forall m a,
    count_occ Nat.eq_dec (flat_map f (seq a m)) x
    = if decide (a <= k < a + m) then 1 else 0.
Proof.
  intros Hf. induction m as [|m IH]; intros a.
  - simpl. by rewrite decide_False by lia.
  - cbn [seq flat_map]. rewrite count_occ_app, Hf, IH.
    repeat case_decide; done || lia.
Qed.

Lemma count_occ_levels_outside (f : nat -> list nat) x :
  (forall k', count_occ Nat.eq_dec (f k') x = 0) ->
  forall m a, count_occ Nat.eq_dec (flat_map f (seq a m)) x = 0.
Proof.
  intros Hf. induction m as [|m IH]; intros a; [done|].
  cbn [seq flat_map]. by rewrite count_occ_app, Hf, IH.
Qed.

(** When every node hangs below a root, the traversal to depth [n] or
    more visits every node once. *)
Lemma forest_traversal d :
  (forall x, x < n -> exists k, depthAt k x) ->
  n <= d ->
  flat_map (preorder heap d) tops ≡ₚ seq 0 n.
Proof.
  intros Hall Hd. rewrite preorder_levels.
  apply (Permutation_count_occ Nat.eq_dec). intros x.
  rewrite (count_occ_NoDup (seq 0 n)) by apply NoDup_seq.
  destruct (decide (x < n)) as [Hx|Hx].
  - destruct (Hall x Hx) as [k Hk]. pose proof (depthAt_bound _ _ Hk).
    rewrite (count_occ_levels _ x k) by (intros k'; by apply count_occ_level).
    rewrite decide_True by lia. rewrite decide_True; [done|].
    apply elem_of_seq. lia.
  - rewrite count_occ_levels_outside
      by (intros k'; apply count_occ_level_outside; lia).
    rewrite decide_False; [done|]. rewrite elem_of_seq. lia.
Qed.

End Forest.

(** ** Roots, orphans and self-parents *)

Lemma declaredParent_None (c : DevToComment) :
  declaredParent c = None <-> parent_id c = None \/ parent_id c = Some 0%Z.
Proof.
  unfold declaredParent. destruct (parent_id c) as [p|].
  - case_decide as Hp.
    + subst. split; [by right | done].
    + split; [done | intros [H|H]; congruence].
  - split; [by left | done].
Qed.

Lemma declaredParent_Some (c : DevToComment) (p : Z) :
  declaredParent c = Some p <-> parent_id c = Some p /\ p <> 0%Z.
Proof.
  unfold declaredParent. destruct (parent_id c) as [q|].
  - case_decide as Hq.
    + subst. split; [done | intros [H ?]; congruence].
    + split; [intros [= <-]; done | intros [[= <-] _]; done].
  - split; [done | intros [? _]; done].
Qed.

(** C2, as the code has it: the builder never raises; the roots are
    exactly the comments without a parent identity or with the parent
    identity 0; a comment whose non-zero parent identity is not in the
    input is neither a root nor a child of any comment; a comment whose
    non-zero parent identity is its own is not a root and is appended to
    the children of the record registered under that identity. *)
Theorem roots_are_the_parentless (comments : list DevToComment) :
  exists t,
    buildCommentTree comments = Some t
    /\ (forall i,
          i ∈ rootComments t
          <-> exists c, comments !! i = Some c
                        /\ (parent_id c = None \/ parent_id c = Some 0%Z))
    /\ (forall i c p,
          comments !! i = Some c -> parent_id c = Some p -> p <> 0%Z ->
          p ∉ map id comments ->
          (i ∉ rootComments t)
          /\ forall j cs, children t !! j = Some cs -> i ∉ cs)
    /\ (forall i c,
          comments !! i = Some c -> parent_id c = Some (id c) -> id c <> 0%Z ->
          (i ∉ rootComments t)
          /\ exists j c' cs,
              comments !! j = Some c' /\ id c' = id c
              /\ children t !! j = Some cs /\ i ∈ cs).
Proof.
  destruct (tree_shape comments) as (t & Hbuild & _ & Hroots & Hkids & Hout).
  exists t. split; [done|].
  assert (Hnotroot : forall i c p,
             comments !! i = Some c -> parent_id c = Some p -> p <> 0%Z ->
             i ∉ rootComments t).
  { intros i c p Hc Hp Hp0 Hin. apply Hroots in Hin as (c' & Hc' & Hd).
    simplify_eq. apply declaredParent_None in Hd as [Hd|Hd]; congruence. }
  split; [|split].
  - intros i. rewrite Hroots. unfold top.
    split; intros (c & Hc & Hd); exists c; split; try done; by apply declaredParent_None.
  - intros i c p Hc Hp Hp0 Habsent. split; [by eapply Hnotroot|].
    intros j cs Hj Hin.
    destruct (decide (j < length comments)) as [Hlt|Hge];
      [|rewrite Hout in Hj by lia; done].
    destruct (Hkids j Hlt) as (cs' & Hcs' & _ & Hmem). simplify_eq.
    apply Hmem in Hin. unfold parentRef in Hin. rewrite Hc in Hin. simpl in Hin.
    assert (Hd : declaredParent c = Some p) by by apply declaredParent_Some.
    rewrite Hd in Hin. simpl in Hin. by rewrite commentMapOf_None in Hin.
  - intros i c Hc Hp Hp0. split; [by eapply Hnotroot|].
    destruct (commentMapOf_is_Some _ _ _ Hc) as [j Hj].
    destruct (commentMapOf_Some _ _ _ Hj) as (c' & Hc' & Hid).
    pose proof (lookup_lt_Some _ _ _ Hc') as Hlt.
    destruct (Hkids j Hlt) as (cs & Hcs & _ & Hmem).
    exists j, c', cs. repeat split; try done.
    apply Hmem. unfold parentRef. rewrite Hc. simpl.
    assert (Hd : declaredParent c = Some (id c)) by by apply declaredParent_Some.
    rewrite Hd. simpl. done.
Qed.

Lemma roots_are_the_parentless_witness :
  let comments := [mk 1 None; mk 2 (Some 1%Z); mk 3 (Some 99%Z); mk 4 (Some 4%Z)] in
  exists t,
    buildCommentTree comments = Some t
    /\ 0 ∈ rootComments t
    /\ (2 ∉ rootComments t)
    /\ (3 ∉ rootComments t)
    /\ exists j c' cs, comments !! j = Some c' /\ id c' = 4%Z
                       /\ children t !! j = Some cs /\ 3 ∈ cs.
Proof.
  cbv zeta.
  destruct (roots_are_the_parentless
              [mk 1 None; mk 2 (Some 1%Z); mk 3 (Some 99%Z); mk 4 (Some 4%Z)])
    as (t & Hbuild & Hroots & Horphan & Hself).
  exists t. split; [exact Hbuild|]. split; [|split; [|split]].
  - apply Hroots. exists (mk 1 None). split; [reflexivity | left; reflexivity].
  - refine (proj1 (Horphan 2 (mk 3 (Some 99%Z)) 99%Z eq_refl eq_refl _ _)); [lia|].
    simpl. rewrite !elem_of_cons, elem_of_nil. lia.
  - refine (proj1 (Hself 3 (mk 4 (Some 4%Z)) eq_refl eq_refl _)). simpl. lia.
  - refine (proj2 (Hself 3 (mk 4 (Some 4%Z)) eq_refl eq_refl _)). simpl. lia.
Defined.

(** C2, as stated, fails on the third scenario of the specification: the
    comment with the absent parent 99 is not among the roots. *)
Lemma orphan_is_not_a_root :
  ~ orphans_become_roots [mk 1 None; mk 2 (Some 1%Z); mk 3 (Some 99%Z)].
Proof.
  intros (t & Hbuild & H).
  assert (Hin : 2 ∈ rootComments t).
  { apply (H 2 (mk 3 (Some 99%Z)) 99%Z eq_refl eq_refl). left.
    simpl. rewrite !elem_of_cons, elem_of_nil. lia. }
  vm_compute in Hbuild. injection Hbuild as <-. simpl in Hin.
  rewrite !elem_of_cons, elem_of_nil in Hin. lia.
Qed.

(** C9: a comment with parent identity 0 is a root, whatever the input
    holds, and it is a child of no comment. *)
Theorem parent_zero_is_root (comments : list DevToComment) (i : nat) (c : DevToComment) :
  comments !! i = Some c ->
  parent_id c = Some 0%Z ->
  exists t,
    buildCommentTree comments = Some t
    /\ i ∈ rootComments t
    /\ forall j cs, children t !! j = Some cs -> i ∉ cs.
Proof.
  intros Hc Hp.
  destruct (tree_shape comments) as (t & Hbuild & _ & Hroots & Hkids & Hout).
  assert (Hd : declaredParent c = None) by (apply declaredParent_None; by right).
  exists t. split; [done|]. split.
  - apply Hroots. by exists c.
  - intros j cs Hj Hin.
    destruct (decide (j < length comments)) as [Hlt|Hge];
      [|rewrite Hout in Hj by lia; done].
    destruct (Hkids j Hlt) as (cs' & Hcs' & _ & Hmem). simplify_eq.
    apply Hmem in Hin. unfold parentRef in Hin. rewrite Hc in Hin. simpl in Hin.
    by rewrite Hd in Hin.
Qed.

Lemma parent_zero_is_root_witness :
  let comments := [mk 0 None; mk 5 (Some 0%Z); mk 6 (Some 5%Z)] in
  0%Z ∈ map id comments
  /\ exists t, buildCommentTree comments = Some t
               /\ 1 ∈ rootComments t
               /\ forall j cs, children t !! j = Some cs -> 1 ∉ cs.
Proof.
  cbv zeta. split; [simpl; rewrite !elem_of_cons; lia|].
  exact (parent_zero_is_root [mk 0 None; mk 5 (Some 0%Z); mk 6 (Some 5%Z)] 1
           (mk 5 (Some 0%Z)) eq_refl eq_refl).
Defined.

(** ** The round trip *)

Lemma identities_seq (comments : list DevToComment) :
  identities comments (seq 0 (length comments)) = map id comments.
Proof.
  unfold identities.
  assert (G : forall (before l : list DevToComment),
             omap (fun r => id <$> (before ++ l) !! r) (seq (length before) (length l))
             = map id l).
  { intros before l. revert before. induction l as [|c l IH]; intros before; [done|].
    cbn [length seq map omap list_omap]. rewrite list_lookup_middle by done.
    simpl. f_equal.
    specialize (IH (before ++ [c])). rewrite <- app_assoc, length_app in IH.
    simpl in IH. rewrite Nat.add_1_r in IH. exact IH. }
  apply (G [] comments).
Qed.

Lemma rooted_elem (comments : list DevToComment) (c : DevToComment) :
  rooted comments c -> c ∈ comments.
Proof. by destruct 1. Qed.

Lemma rooted_depthAt (comments : list DevToComment) (tops : list nat) :
  NoDup (map id comments) ->
  (forall i, i ∈ tops <-> top comments i) ->
  forall c, rooted comments c ->
  forall i, comments !! i = Some c ->
  exists k, depthAt tops (parentRef comments) k i.
Proof.
  intros Hnd Htops c Hc. induction Hc as [c Hin Hd | c c' Hin Hd Hc' IH]; intros i Hi.
  - exists 0. constructor. apply Htops. by exists c.
  - apply rooted_elem, list_elem_of_lookup_1 in Hc' as [j Hj].
    destruct (IH j Hj) as [k Hk]. exists (S k). econstructor; [|exact Hk].
    unfold parentRef. rewrite Hi. simpl. rewrite Hd. simpl.
    by apply commentMapOf_unique.
Qed.

(** C3, as the code has it: when the identities are distinct and the
    parent chain of every comment ends at a comment without parent, the
    pre-order traversal of the output lists exactly the identities of the
    input, each once. *)
Theorem roundtrip_of_rooted (comments : list DevToComment) :
  NoDup (map id comments) ->
  (forall c, c ∈ comments -> rooted comments c) ->
  roundtrip comments.
Proof.
  intros Hnd Hrooted.
  destruct (tree_shape comments) as (t & Hbuild & Hrnd & Hroots & Hkids & Hout).
  exists t. split; [done|]. intros d Hd.
  rewrite <- identities_seq. unfold identities, flatten.
  apply omap_Permutation.
  apply (forest_traversal (length comments) (children t) (rootComments t)
           (parentRef comments)).
  - done.
  - intros r (c & Hc & Hdp)%Hroots. unfold parentRef. rewrite Hc. simpl.
    by rewrite Hdp.
  - intros r (c & Hc & _)%Hroots. by eapply lookup_lt_Some.
  - intros j. unfold childrenOf.
    destruct (decide (j < length comments)) as [Hj|Hj].
    + destruct (Hkids j Hj) as (cs & -> & Hcs & _). done.
    + rewrite Hout by lia. constructor.
  - intros j i. unfold childrenOf.
    destruct (decide (j < length comments)) as [Hj|Hj].
    + destruct (Hkids j Hj) as (cs & -> & _ & Hmem). apply Hmem.
    + rewrite Hout by lia. simpl. split; [by intros ?%elem_of_nil|].
      unfold parentRef. intros Hp. exfalso. apply Hj.
      destruct (comments !! i) as [c|]; [|done]. simpl in Hp.
      destruct (declaredParent c) as [p|]; [|done]. simpl in Hp.
      apply commentMapOf_Some in Hp as (c' & Hc' & _). by eapply lookup_lt_Some.
  - intros i j Hp. unfold parentRef in Hp.
    destruct (comments !! i) as [c|] eqn:Hc; [|done]. by eapply lookup_lt_Some.
  - intros x Hx. destruct (lookup_lt_is_Some_2 comments x Hx) as [c Hc].
    eapply rooted_depthAt; [done|done| |done].
    apply Hrooted. by eapply list_elem_of_lookup_2.
  - done.
Qed.

Lemma roundtrip_of_rooted_witness :
  let comments := [mk 2 (Some 1%Z); mk 1 None; mk 3 (Some 2%Z); mk 4 (Some 1%Z)] in
  NoDup (map id comments)
  /\ (forall c, c ∈ comments -> rooted comments c)
  /\ roundtrip comments.
Proof.
  cbv zeta.
  set (comments := [mk 2 (Some 1%Z); mk 1 None; mk 3 (Some 2%Z); mk 4 (Some 1%Z)]).
  assert (Hnd : NoDup (map id comments)).
  { apply (bool_decide_unpack _). vm_compute. reflexivity. }
  assert (H1 : rooted comments (mk 1 None)).
  { apply rooted_top; [|reflexivity]. unfold comments. rewrite !elem_of_cons. tauto. }
  assert (H2 : rooted comments (mk 2 (Some 1%Z))).
  { apply (rooted_reply comments _ (mk 1 None)); [|reflexivity|exact H1].
    unfold comments. rewrite !elem_of_cons. tauto. }
  assert (H3 : rooted comments (mk 3 (Some 2%Z))).
  { apply (rooted_reply comments _ (mk 2 (Some 1%Z))); [|reflexivity|exact H2].
    unfold comments. rewrite !elem_of_cons. tauto. }
  assert (H4 : rooted comments (mk 4 (Some 1%Z))).
  { apply (rooted_reply comments _ (mk 1 None)); [|reflexivity|exact H1].
    unfold comments. rewrite !elem_of_cons. tauto. }
  assert (Hall : forall c, c ∈ comments -> rooted comments c).
  { intros c Hc. unfold comments in Hc. rewrite !elem_of_cons, elem_of_nil in Hc.
    destruct Hc as [->|[->|[->|[->|[]]]]]; assumption. }
  split; [exact Hnd|]. split; [exact Hall|].
  exact (roundtrip_of_rooted comments Hnd Hall).
Defined.

(** C3, as stated, fails on the third scenario of the specification: the
    identities are distinct, and the traversal of the output misses the
    comment with the absent parent 99. *)
Lemma roundtrip_drops_orphan :
  let comments := [mk 1 None; mk 2 (Some 1%Z); mk 3 (Some 99%Z)] in
  NoDup (map id comments) /\ ~ roundtrip comments.
Proof.
  cbv zeta. split.
  - apply (bool_decide_unpack _). vm_compute. reflexivity.
  - intros (t & Hbuild & H). specialize (H 3 (le_n 3)).
    vm_compute in Hbuild. injection Hbuild as <-.
    apply Permutation_length in H. vm_compute in H. discriminate.
Qed.

(** ** Insertion-ordered sets *)

Lemma elem_of_dedupFirst (l : list text) (x : text) : x ∈ dedupFirst l <-> x ∈ l.
Proof.
  induction l as [|y l IH]; [done|]. simpl.
  rewrite !elem_of_cons, list_elem_of_filter, IH.
  destruct (decide (x = y)); tauto.
Qed.

Lemma NoDup_dedupFirst (l : list text) : NoDup (dedupFirst l).
Proof.
  induction l as [|y l IH]; simpl; constructor.
  - rewrite list_elem_of_filter. intros [H _]. by apply H.
  - by apply NoDup_filter.
Qed.

Lemma filter_dedupFirst (P : text -> Prop) `{!forall x, Decision (P x)} (l : list text) :
  filter P (dedupFirst l) = dedupFirst (filter P l).
Proof.
  induction l as [|x l IH]; [done|]. simpl.
  destruct (decide (P x)) as [HP|HP].
  - rewrite !filter_cons_True by done. simpl. f_equal.
    rewrite <- IH. rewrite !list_filter_filter. apply list_filter_iff. intros y. tauto.
  - rewrite !filter_cons_False by done. rewrite <- IH.
    rewrite list_filter_filter. apply list_filter_iff. intros y.
    split; [tauto|]. intros Hy. split; [done|]. by intros ->.
Qed.

Lemma foldl_setAdd (acc l : list text) :
  foldl setAdd acc l = acc ++ dedupFirst (filter (fun x => x ∉ acc) l).
Proof.
  revert acc. induction l as [|x l IH]; intros acc; simpl.
  - by rewrite app_nil_r.
  - rewrite IH. unfold setAdd. case_decide as Hx.
    + by rewrite filter_cons_False by tauto.
    + rewrite filter_cons_True by done. simpl. rewrite <- app_assoc. simpl.
      do 2 f_equal. rewrite filter_dedupFirst, list_filter_filter. f_equal.
      apply list_filter_iff. intros y. rewrite elem_of_app, list_elem_of_singleton.
      tauto.
Qed.

Lemma foldl_setAdd_nil (l : list text) : foldl setAdd [] l = dedupFirst l.
Proof.
  rewrite foldl_setAdd. simpl. f_equal.
  induction l as [|x l IH]; [done|].
  rewrite filter_cons_True by apply not_elem_of_nil. by rewrite IH.
Qed.

(** ** Expert contributions *)

(** The helper of lines 225-238 counts the qualifying comments and lists
    their authors once each. *)
Lemma identifyExpertContributions_sound `{!forall c, Decision (qualifies c)}
    (comments : list DevToComment) :
  let r := identifyExpertContributions comments in
  count r = length (filter qualifies comments)
  /\ NoDup (authors r)
  /\ forall a, a ∈ authors r
               <-> exists c, c ∈ comments /\ qualifies c /\ username (user c) = a.
Proof.
  cbv zeta. unfold identifyExpertContributions. cbn [count authors].
  set (test := fun comment : DevToComment =>
                 (300 <? length (body_markdown comment))
                 && (includes (body_markdown comment) fence
                     || includes (body_markdown comment) (lit "http"))).
  assert (Htest : forall c, test c = true <-> qualifies c).
  { intros c. unfold test, qualifies.
    by rewrite andb_true_iff, orb_true_iff, Nat.ltb_lt, !includes_iff. }
  assert (Hfilter : List.filter test comments = filter qualifies comments).
  { induction comments as [|c l IH]; [done|]. simpl.
    destruct (test c) eqn:E.
    - rewrite filter_cons_True by by apply Htest. by rewrite IH.
    - rewrite filter_cons_False; [done|]. rewrite <- Htest. congruence. }
  rewrite Hfilter, foldl_setAdd_nil. split; [done|]. split.
  - apply NoDup_dedupFirst.
  - intros a. rewrite elem_of_dedupFirst.
    change (map ?f ?l) with (f <$> l). rewrite list_elem_of_fmap.
    setoid_rewrite list_elem_of_filter.
    split; intros (c & H1 & H2 & H3); exists c; auto.
Qed.

(** C1 at a comment of 301 code units without fence and without link:
    [analyzeDiscussion] counts it and lists its author, the helper
    [identifyExpertContributions] does not. *)
Theorem long_plain_comment_counted :
  let body := repeat (ch "a") 301 in
  let c := comment body (lit "ann") in
  length body = 301
  /\ includes body fence = false
  /\ includes body (lit "http") = false
  /\ expertContributions (analyzeDiscussion [c])
     = {| count := 1; authors := [lit "ann"] |}
  /\ expertContributions (Earlier.analyzeDiscussion [c])
     = {| count := 0; authors := [] |}.
Proof. cbv zeta. repeat split; vm_compute; reflexivity. Qed.

(** ** Scanning *)

Lemma takeWhile_dropWhile (p : codeUnit -> bool) (s : text) :
  takeWhile p s ++ dropWhile p s = s.
Proof. induction s as [|c s IH]; simpl; [done|]. destruct (p c); simpl; congruence. Qed.

Lemma Forall_takeWhile (p : codeUnit -> bool) (s : text) :
  Forall (fun c => p c = true) (takeWhile p s).
Proof.
  induction s as [|c s IH]; simpl; [constructor|].
  destruct (p c) eqn:E; constructor; done.
Qed.

Lemma dropWhile_head (p : codeUnit -> bool) (s : text) c r :
  dropWhile p s = c :: r -> p c = false.
Proof.
  induction s as [|x s IH]; simpl; [done|].
  destruct (p x) eqn:E; [done|]. by intros [= <- _].
Qed.

Lemma dropWhile_all (p : codeUnit -> bool) (a s : text) :
  Forall (fun c => p c = true) a -> dropWhile p (a ++ s) = dropWhile p s.
Proof. induction 1 as [|c a Hc _ IH]; simpl; [done|]. by rewrite Hc. Qed.

Lemma dropWhile_stop (p : codeUnit -> bool) (s : text) :
  (forall c r, s = c :: r -> p c = false) -> dropWhile p s = s.
Proof. destruct s as [|c r]; simpl; [done|]. intros H. by rewrite (H c r). Qed.

Lemma matchAllAt_skip (m : matcher) (y rest : text) (pos : nat) :
  matchAllAt m (length y) pos (y ++ rest) = matchAllAt m 0 (pos + length y) rest.
Proof.
  revert pos. induction y as [|c y IH]; intros pos; simpl.
  - by rewrite Nat.add_0_r.
  - rewrite IH. f_equal. lia.
Qed.

Lemma matchFirst_None (m : matcher) (s : text) :
  (forall a b, s = a ++ b -> m b = None) -> matchFirst m s = None.
Proof.
  induction s as [|c s IH]; intros H; simpl.
  - by rewrite (H [] []).
  - rewrite (H [] (c :: s)) by done. apply IH.
    intros a b ->. by apply (H (c :: a) b).
Qed.

Lemma matchFirst_leftmost (m : matcher) (a b x : text) :
  (forall a1 c a2, a = a1 ++ c :: a2 -> m (c :: a2 ++ b) = None) ->
  m b = Some x ->
  matchFirst m (a ++ b) = Some x.
Proof.
  induction a as [|c a IH]; intros Hnone Hb.
  - destruct b; simpl; by rewrite Hb.
  - simpl. rewrite (Hnone [] c a) by done. apply IH; [|done].
    intros a1 c' a2 ->. by apply (Hnone (c :: a1) c' a2).
Qed.

(** ** The prerequisite section *)

Lemma startsWithCI_iff (p s : text) :
  startsWithCI p s = true
  <-> exists w r, s = w ++ r /\ foldCase w = foldCase p.
Proof.
  unfold startsWithCI. rewrite startsWith_iff. split.
  - intros [b Hb]. unfold foldCase in Hb.
    apply map_eq_app in Hb as (w & r & -> & Hw & _). by exists w, r.
  - intros (w & r & -> & Hw). exists (foldCase r).
    by rewrite foldCase_app, Hw.
Qed.

Lemma prerequisiteAt_None (s : text) :
  ~ containsCI s keyword -> forall a b, s = a ++ b -> prerequisiteAt b = None.
Proof.
  intros Hno a b ->. unfold prerequisiteAt.
  destruct (startsWithCI (lit "prerequisite") b) eqn:E; [|done].
  apply startsWithCI_iff in E as (w & r & -> & Hw).
  destruct Hno. by exists a, w, r.
Qed.

Lemma prerequisiteAt_word (word rest : text) :
  foldCase word = keyword ->
  prerequisiteAt (word ++ rest) = Some (sectionOf rest).
Proof.
  intros Hw. unfold prerequisiteAt.
  assert (Hlen : length word = 12).
  { rewrite <- foldCase_length, Hw. done. }
  replace (startsWithCI (lit "prerequisite") (word ++ rest)) with true.
  - by rewrite <- Hlen, drop_app_length.
  - symmetry. apply startsWithCI_iff. by exists word, rest.
Qed.

Lemma prerequisiteAt_before (a1 a2 word rest : text) (c : codeUnit) :
  foldCase word = keyword ->
  ~ containsCI (a1 ++ c :: a2 ++ removelast word) keyword ->
  prerequisiteAt (c :: a2 ++ word ++ rest) = None.
Proof.
  intros Hw Hno. unfold prerequisiteAt.
  destruct (startsWithCI (lit "prerequisite") (c :: a2 ++ word ++ rest)) eqn:E; [|done].
  apply startsWithCI_iff in E as (w & r & Heq & Hw').
  destruct Hno.
  assert (Hlen : length word = 12) by (rewrite <- foldCase_length, Hw; done).
  assert (Hlen' : length w = 12) by (rewrite <- foldCase_length, Hw'; done).
  assert (Hword : word = removelast word ++ [List.last word (ch "a")]).
  { apply app_removelast_last. by destruct word. }
  assert (Hrl : length (removelast word) = 11).
  { rewrite Hword, length_app in Hlen. simpl in Hlen. lia. }
  assert (Hpre : c :: a2 ++ removelast word = w ++ drop 12 (c :: a2 ++ removelast word)).
  { assert (Ht : take 12 (c :: a2 ++ word ++ rest) = w).
    { rewrite Heq, <- Hlen'. apply take_app_length. }
    assert (Hfull : c :: a2 ++ word ++ rest
                    = (c :: a2 ++ removelast word)
                      ++ [List.last word (ch "a")] ++ rest).
    { rewrite Hword at 1. simpl. by rewrite <- !app_assoc. }
    rewrite Hfull, take_app_le in Ht by (simpl; rewrite length_app; lia).
    rewrite <- Ht. by rewrite take_drop. }
  exists a1, w, (drop 12 (c :: a2 ++ removelast word)).
  split; [|done]. by rewrite <- Hpre.
Qed.

(** ** The items of a section *)

Lemma lineTerminator_isSpace (c : codeUnit) : isLineTerminator c = true -> isSpace c = true.
Proof.
  unfold isLineTerminator, isSpace. intros H. rewrite !orb_true_iff in H.
  destruct H as [[[H|H]|H]|H]; apply N.eqb_eq in H as ->; reflexivity.
Qed.

Lemma takeWhile_head (p : codeUnit -> bool) (s : text) c t :
  takeWhile p s = c :: t -> exists s', s = c :: s'.
Proof.
  destruct s as [|x s]; simpl; [done|]. destruct (p x); [|done].
  intros [= -> _]. eauto.
Qed.

Lemma takeWhile_nil (p : codeUnit -> bool) (s : text) :
  takeWhile p s = [] -> dropWhile p s = s.
Proof. destruct s as [|x s]; simpl; [done|]. by destruct (p x). Qed.

Lemma markedItems_cons (c : codeUnit) (s : text) (items : list text) :
  isMarker c = false -> markedItems s items -> markedItems (c :: s) items.
Proof.
  intros Hc H. destruct H as [s Hs | before m ws item rest items Hb Hm Hws Hi Hh Hr H].
  - apply marked_none. by constructor.
  - rewrite app_comm_cons. apply marked_item; try done. by constructor.
Qed.

Lemma stripMarker_matched (m : codeUnit) (ws item : text) :
  isMarker m = true ->
  Forall (fun c => isSpace c = true) ws ->
  (forall c item', item = c :: item' -> isSpace c = false) ->
  stripMarker (m :: ws ++ item) = item.
Proof.
  intros Hm Hws Hitem. unfold stripMarker. simpl. rewrite Hm. simpl.
  rewrite dropWhile_all by done. by apply dropWhile_stop.
Qed.

Lemma bullets_marked (n : nat) :
  forall (s : text) (pos : nat),
    length s <= n ->
    markedItems s (map (fun item => trim (stripMarker item))
                       (map snd (matchAllAt bulletAt 0 pos s))).
Proof.
  induction n as [|n IH]; intros [|c s] pos Hlen; simpl in Hlen; try lia.
  - apply marked_none. constructor.
  - apply marked_none. constructor.
  - cbn [matchAllAt bulletAt]. destruct (isMarker c) eqn:Hc.
    + set (ws := takeWhile isSpace s).
      set (r := dropWhile isSpace s).
      set (item := takeWhile notLineTerminator r).
      set (rest := dropWhile notLineTerminator r).
      assert (Hs : s = (ws ++ item) ++ rest).
      { rewrite <- app_assoc. unfold item, rest. rewrite takeWhile_dropWhile.
        unfold ws, r. by rewrite takeWhile_dropWhile. }
      assert (Hhead : forall c0 item', item = c0 :: item' -> isSpace c0 = false).
      { intros c0 item' Hi. apply takeWhile_head in Hi as [r' Hr'].
        by apply dropWhile_head in Hr'. }
      change (spacesThenLine s) with (ws ++ item).
      replace (length (c :: ws ++ item) - 1) with (length (ws ++ item))
        by (simpl; lia).
      rewrite Hs at 2. rewrite matchAllAt_skip. cbn [map snd].
      rewrite stripMarker_matched; [|done|apply Forall_takeWhile|done].
      rewrite Hs, <- app_assoc.
      apply (marked_item [] c ws item rest); try done.
      * apply Forall_takeWhile.
      * unfold item. eapply Forall_impl; [apply Forall_takeWhile|].
        intros x Hx. unfold notLineTerminator in Hx. by destruct (isLineTerminator x).
      * intros c0 rest' Hr. pose proof (dropWhile_head _ _ _ _ Hr) as Hc0.
        unfold notLineTerminator in Hc0. apply negb_false_iff in Hc0.
        split; [done|]. intros Hnil.
        assert (Hrr : r = c0 :: rest').
        { rewrite <- Hr. unfold rest. symmetry. by apply takeWhile_nil. }
        apply dropWhile_head in Hrr. apply lineTerminator_isSpace in Hc0. congruence.
      * apply IH. rewrite Hs, !length_app in Hlen. lia.
    + apply markedItems_cons; [done|]. apply IH. lia.
Qed.

Lemma takeWhile_span (p : codeUnit -> bool) (a t : text) :
  Forall (fun c => p c = true) a ->
  (forall c r, t = c :: r -> p c = false) ->
  takeWhile p (a ++ t) = a.
Proof.
  intros Ha Ht. induction Ha as [|c a Hc _ IH]; simpl.
  - destruct t as [|c r]; simpl; [done|]. by rewrite (Ht c r).
  - by rewrite Hc, IH.
Qed.

Lemma span_unique (p : codeUnit -> bool) (a a' t t' : text) :
  Forall (fun c => p c = true) a ->
  Forall (fun c => p c = true) a' ->
  (forall c r, t = c :: r -> p c = false) ->
  (forall c r, t' = c :: r -> p c = false) ->
  a ++ t = a' ++ t' ->
  a = a' /\ t = t'.
Proof.
  intros Ha Ha' Ht Ht' Heq.
  assert (a = a') as <-.
  { rewrite <- (takeWhile_span p a t Ha Ht), Heq. by apply takeWhile_span. }
  split; [done|]. by eapply app_inv_head.
Qed.

Lemma not_marker_Forall (s : text) :
  Forall (fun c => isMarker c = false) s ->
  Forall (fun c => negb (isMarker c) = true) s.
Proof. intros H. eapply Forall_impl; [exact H|]. by intros c ->. Qed.

(** The scan determines the items. *)
Lemma markedItems_functional (s : text) (l1 l2 : list text) :
  markedItems s l1 -> markedItems s l2 -> l1 = l2.
Proof.
  intros H1. revert l2.
  induction H1 as [s Hs | before m ws item rest items Hb Hm Hws Hi Hh Hr H IH];
    intros l2 H2.
  - destruct H2 as [s _ | before m ws item rest items Hb Hm Hws Hi Hh Hr H]; [done|].
    apply Forall_app in Hs as [_ Hs]. apply Forall_cons in Hs as [Hs _]. congruence.
  - remember (before ++ m :: ws ++ item ++ rest) as s eqn:Es.
    destruct H2 as [s Hs | before' m' ws' item' rest' items' Hb' Hm' Hws' Hi' Hh' Hr' H'].
    + subst s. apply Forall_app in Hs as [_ Hs]. apply Forall_cons in Hs as [Hs _].
      congruence.
    + destruct (span_unique (fun c => negb (isMarker c)) before' before
                  (m' :: ws' ++ item' ++ rest') (m :: ws ++ item ++ rest))
        as [-> Et]; try done.
      { by apply not_marker_Forall. }
      { by apply not_marker_Forall. }
      { intros c r [= <- _]. by rewrite Hm'. }
      { intros c r [= <- _]. by rewrite Hm. }
      injection Et as -> Et.
      destruct (span_unique isSpace ws' ws (item' ++ rest') (item ++ rest))
        as [-> Et']; try done.
      { intros c r Hc. destruct item' as [|c' item'].
        - simpl in Hc. destruct (Hr' c r Hc) as [_ []]. done.
        - injection Hc as <- _. by eapply Hh'. }
      { intros c r Hc. destruct item as [|c' item].
        - simpl in Hc. destruct (Hr c r Hc) as [_ []]. done.
        - injection Hc as <- _. by eapply Hh. }
      destruct (span_unique notLineTerminator item' item rest' rest)
        as [-> ->]; try done.
      { eapply Forall_impl; [exact Hi'|]. intros c Hc.
        unfold notLineTerminator. by rewrite Hc. }
      { eapply Forall_impl; [exact Hi|]. intros c Hc.
        unfold notLineTerminator. by rewrite Hc. }
      { intros c r Hc. destruct (Hr' c r Hc) as [Hlt _].
        unfold notLineTerminator. by rewrite Hlt. }
      { intros c r Hc. destruct (Hr c r Hc) as [Hlt _].
        unfold notLineTerminator. by rewrite Hlt. }
      f_equal. by apply IH.
Qed.

(** ** Prerequisites *)

(** C7, as the code has it: the section starts at the first occurrence of
    "prerequisite" in any letter case, runs past an optional [s] and an
    optional colon, and ends before the next [##] or at the end of the
    body.  The result lists, in order, what follows each marker [-] or [*]
    that a left-to-right scan of the section meets, wherever in a line the
    marker stands: the text after the marker and the white space behind
    it, up to the end of the line, trimmed; the scan resumes behind that
    text.  Without the word the result is empty. *)
Theorem prerequisites_by_marker (content : text) :
  (~ containsCI content keyword -> extractPrerequisites content = [])
  /\ (forall before word rest,
        content = before ++ word ++ rest ->
        toLowerCase word = keyword ->
        ~ containsCI (before ++ removelast word) keyword ->
        markedItems (sectionOf rest) (extractPrerequisites content)).
Proof.
  split.
  - intros Hno. unfold extractPrerequisites.
    by rewrite (matchFirst_None _ _ (prerequisiteAt_None _ Hno)).
  - intros before word rest -> Hword Hfirst. unfold extractPrerequisites.
    apply toLowerCase_plain_eq in Hword; [|apply plain_keyword].
    rewrite (matchFirst_leftmost prerequisiteAt before (word ++ rest) (sectionOf rest)).
    + unfold matchAll, matchAllPos. by eapply bullets_marked.
    + intros a1 c a2 ->. apply (prerequisiteAt_before a1); [done|].
      by rewrite <- app_assoc in Hfirst.
    + by apply prerequisiteAt_word.
Qed.

Lemma prerequisites_by_marker_witness :
  let before := lit "## " in
  let word := lit "Prerequisite" in
  let rest := lit ("s" ++ nl ++ "- node" ++ nl ++ "-   npm  " ++ nl ++ "## Intro" ++ nl ++ "- x") in
  toLowerCase word = keyword
  /\ ~ containsCI (before ++ removelast word) keyword
  /\ sectionOf rest = lit (nl ++ "- node" ++ nl ++ "-   npm  " ++ nl)
  /\ extractPrerequisites (before ++ word ++ rest) = [lit "node"; lit "npm"]
  /\ markedItems (sectionOf rest) (extractPrerequisites (before ++ word ++ rest)).
Proof.
  cbv zeta.
  assert (Hword : toLowerCase (lit "Prerequisite") = keyword) by (vm_compute; reflexivity).
  assert (Hfirst : ~ containsCI (lit "## " ++ removelast (lit "Prerequisite")) keyword).
  { intros H. apply includes_fold_iff in H. vm_compute in H. discriminate. }
  split; [exact Hword|]. split; [exact Hfirst|].
  split; [vm_compute; reflexivity|]. split; [vm_compute; reflexivity|].
  exact (proj2 (prerequisites_by_marker _) _ _ _ eq_refl Hword Hfirst).
Defined.

(** C7, as stated, fails on a section whose line holds a hyphen without
    being a bullet line: the text behind the hyphen is returned. *)
Lemma hyphen_inside_a_line :
  let content := lit "Prerequisites: basic command-line skills" in
  extractPrerequisites content = [lit "line skills"]
  /\ prerequisitesByLine content = []
  /\ extractPrerequisites content <> prerequisitesByLine content.
Proof.
  cbv zeta. split; [vm_compute; reflexivity|]. split; [vm_compute; reflexivity|].
  vm_compute. discriminate.
Qed.

(** ** The comment-tree builder: placement, order, duplicate identities *)

Lemma sublist_filter_indexed (P : nat * DevToComment -> Prop)
    `{!forall ic, Decision (P ic)} (comments : list DevToComment) :
  (filter P (indexed comments)).*1 `sublist_of` seq 0 (length comments).
Proof. rewrite <- indexed_fst. apply fmap_sublist, sublist_filter. Qed.

Lemma omap_filter_indexed (Q : DevToComment -> Prop) `{!forall c, Decision (Q c)}
    (comments rest : list DevToComment) :
  omap (fun r => (comments ++ rest) !! r)
       (filter (fun ic => Q ic.2) (indexed comments)).*1
  = filter Q comments.
Proof.
  revert rest. induction comments as [|c comments IH] using rev_ind; intros rest; [done|].
  rewrite indexed_snoc, !filter_app, fmap_app, omap_app, <- app_assoc, IH.
  f_equal. destruct (decide (Q c)) as [HQ|HQ].
  - rewrite !filter_cons_True by done. simpl.
    by rewrite list_lookup_middle.
  - by rewrite !filter_cons_False by done.
Qed.

Lemma commentMapOf_last (comments : list DevToComment) (p : Z) (j : nat) :
  commentMapOf comments !! p = Some j ->
  forall j' c', comments !! j' = Some c' -> id c' = p -> j' <= j.
Proof.
  induction comments as [|c comments IH] using rev_ind; [done|].
  rewrite commentMapOf_snoc, lookup_insert. intros Hj j' c' Hc' Hid.
  pose proof (lookup_lt_Some _ _ _ Hc') as Hlt. rewrite length_app in Hlt. simpl in Hlt.
  case_decide as Hp.
  - injection Hj as <-. lia.
  - apply lookup_app_Some in Hc' as [Hc' | [Hge Hc']].
    + by eapply IH.
    + destruct (j' - length comments) as [|k] eqn:E; [|done].
      simpl in Hc'. injection Hc' as <-. congruence.
Qed.

Lemma rootObjects_char (comments : list DevToComment) :
  exists t,
    buildCommentTree comments = Some t
    /\ rootObjects comments t = filter (fun c => declaredParent c = None) comments.
Proof.
  destruct (buildCommentTree_char comments) as (t & Hbuild & Hroots & _).
  exists t. split; [done|]. unfold rootObjects. rewrite Hroots.
  pose proof (omap_filter_indexed (fun c => declaredParent c = None) comments [])
    as H.
  rewrite app_nil_r in H. by rewrite H.
Qed.

(** X1: the array the builder returns holds exactly the comments without
    parent identity, or with the parent identity 0, in the order of the
    input; records that share an identity are all kept. *)
Theorem roots_in_input_order (comments : list DevToComment) :
  exists t,
    buildCommentTree comments = Some t
    /\ rootObjects comments t
       = filter (fun c => parent_id c = None \/ parent_id c = Some 0%Z) comments.
Proof.
  destruct (rootObjects_char comments) as (t & Hbuild & Hret).
  exists t. split; [done|]. rewrite Hret.
  apply list_filter_iff. intros c. apply declaredParent_None.
Qed.

(** X2: the output is a forest.  Every reference is an index of the
    input; no reference occurs twice in the root list or in one children
    array, none occurs in two children arrays, and no root is a child. *)
Theorem every_comment_placed_at_most_once (comments : list DevToComment) :
  exists t,
    buildCommentTree comments = Some t
    /\ NoDup (rootComments t)
    /\ (forall i, i ∈ rootComments t -> i < length comments)
    /\ (forall j cs, children t !! j = Some cs ->
                     j < length comments /\ NoDup cs
                     /\ forall i, i ∈ cs ->
                                  i < length comments
                                  /\ (i ∉ rootComments t)
                                  /\ forall j' cs', children t !! j' = Some cs' ->
                                                    i ∈ cs' -> j' = j).
Proof.
  destruct (tree_shape comments) as (t & Hbuild & Hnd & Hroots & Hkids & Hout).
  exists t. split; [done|]. split; [done|]. split.
  - intros i (c & Hc & _)%Hroots. by eapply lookup_lt_Some.
  - assert (Hin : forall j cs, children t !! j = Some cs ->
                               j < length comments
                               /\ NoDup cs
                               /\ forall i, i ∈ cs <-> parentRef comments i = Some j).
    { intros j cs Hj. destruct (decide (j < length comments)) as [Hlt|Hge].
      - destruct (Hkids j Hlt) as (cs' & Hcs' & Hndc & Hmem). simplify_eq.
        split; [done|]. split; done.
      - rewrite Hout in Hj by lia. done. }
    intros j cs Hj. destruct (Hin j cs Hj) as (Hlt & Hndc & Hmem).
    split; [done|]. split; [done|]. intros i Hi. apply Hmem in Hi.
    assert (exists c p, comments !! i = Some c /\ declaredParent c = Some p)
      as (c & p & Hc & Hp).
    { unfold parentRef in Hi. destruct (comments !! i) as [c|] eqn:Hc; [|done].
      simpl in Hi. destruct (declaredParent c) as [p|] eqn:Hp; [|done].
      by exists c, p. }
    split; [by eapply lookup_lt_Some|]. split.
    + intros (c' & Hc' & Hd)%Hroots. congruence.
    + intros j' cs' Hj' Hi'. destruct (Hin j' cs' Hj') as (_ & _ & Hmem').
      apply Hmem' in Hi'. congruence.
Qed.

(** X3: encounter order is kept.  The root list and every children array
    list their references in increasing input position. *)
Theorem encounter_order_kept (comments : list DevToComment) :
  exists t,
    buildCommentTree comments = Some t
    /\ rootComments t `sublist_of` seq 0 (length comments)
    /\ forall j cs, children t !! j = Some cs ->
                    cs `sublist_of` seq 0 (length comments).
Proof.
  destruct (buildCommentTree_char comments) as (t & Hbuild & Hroots & Hkids).
  exists t. split; [done|]. split.
  - rewrite Hroots. apply sublist_filter_indexed.
  - intros j cs. rewrite Hkids. case_decide; [|done].
    intros [= <-]. apply sublist_filter_indexed.
Qed.

(** X4: a comment is placed - as a root or as a child - exactly when it
    declares no non-zero parent identity or that identity is among the
    identities of the input. *)
Theorem placed_iff_parent_known (comments : list DevToComment) (i : nat) (c : DevToComment) :
  comments !! i = Some c ->
  exists t,
    buildCommentTree comments = Some t
    /\ ((i ∈ rootComments t \/ exists j cs, children t !! j = Some cs /\ i ∈ cs)
        <-> (parent_id c = None \/ parent_id c = Some 0%Z
             \/ exists p, parent_id c = Some p /\ p ∈ map id comments)).
Proof.
  intros Hc.
  destruct (tree_shape comments) as (t & Hbuild & _ & Hroots & Hkids & Hout).
  exists t. split; [done|]. split.
  - intros [Hr | (j & cs & Hj & Hi)].
    + apply Hroots in Hr as (c' & Hc' & Hd). simplify_eq.
      apply declaredParent_None in Hd. tauto.
    + destruct (decide (j < length comments)) as [Hlt|Hge];
        [|rewrite Hout in Hj by lia; done].
      destruct (Hkids j Hlt) as (cs' & Hcs' & _ & Hmem). simplify_eq.
      apply Hmem in Hi. unfold parentRef in Hi. rewrite Hc in Hi. simpl in Hi.
      destruct (declaredParent c) as [p|] eqn:Hd; [|done]. simpl in Hi.
      apply declaredParent_Some in Hd as [Hp _].
      apply commentMapOf_Some in Hi as (c' & Hc' & Hid).
      right. right. exists p. split; [done|].
      change (map id comments) with (id <$> comments).
      apply list_elem_of_fmap. exists c'. split; [done|].
      by eapply list_elem_of_lookup_2.
  - intros H.
    destruct (declaredParent c) as [p|] eqn:Hd.
    + right. apply declaredParent_Some in Hd as Hd'. destruct Hd' as [Hp Hp0].
      destruct H as [H | [H | (p' & Hp' & Hin)]]; [congruence | congruence |].
      assert (p' = p) as -> by congruence.
      change (map id comments) with (id <$> comments) in Hin.
      apply list_elem_of_fmap in Hin as (c' & -> & Hc').
      apply list_elem_of_lookup_1 in Hc' as [j' Hj'].
      destruct (commentMapOf_is_Some _ _ _ Hj') as [j Hj].
      destruct (commentMapOf_Some _ _ _ Hj) as (c'' & Hc'' & _).
      pose proof (lookup_lt_Some _ _ _ Hc'') as Hlt.
      destruct (Hkids j Hlt) as (cs & Hcs & _ & Hmem).
      exists j, cs. split; [done|]. apply Hmem.
      unfold parentRef. rewrite Hc. simpl. rewrite Hd. done.
    + left. apply Hroots. by exists c.
Qed.

Lemma placed_iff_parent_known_witness :
  let comments := [mk 1 None; mk 2 (Some 1%Z); mk 3 (Some 99%Z)] in
  exists t,
    buildCommentTree comments = Some t
    /\ exists j cs, children t !! j = Some cs /\ 1 ∈ cs.
Proof.
  cbv zeta.
  destruct (placed_iff_parent_known
              [mk 1 None; mk 2 (Some 1%Z); mk 3 (Some 99%Z)] 1 (mk 2 (Some 1%Z)) eq_refl)
    as (t & Hbuild & Hiff).
  exists t. split; [exact Hbuild|].
  destruct (proj2 Hiff) as [Hr | H]; [| |exact H].
  - right. right. exists 1%Z. split; [reflexivity|]. simpl. rewrite !elem_of_cons. tauto.
  - exfalso. vm_compute in Hbuild. injection Hbuild as <-. simpl in Hr.
    rewrite !elem_of_cons, elem_of_nil in Hr. lia.
Defined.

(** X5: among records that share an identity the last one is the parent.
    A reply is attached to the last record of the input that carries the
    declared parent identity. *)
Theorem reply_attaches_to_last_record
    (comments : list DevToComment) (i j : nat) (c parent : DevToComment) (p : Z) :
  comments !! i = Some c ->
  parent_id c = Some p -> p <> 0%Z ->
  comments !! j = Some parent -> id parent = p ->
  (forall j' c', comments !! j' = Some c' -> id c' = p -> j' <= j) ->
  exists t cs,
    buildCommentTree comments = Some t
    /\ children t !! j = Some cs /\ i ∈ cs.
Proof.
  intros Hc Hp Hp0 Hj Hid Hlast.
  destruct (tree_shape comments) as (t & Hbuild & _ & _ & Hkids & _).
  destruct (Hkids j (lookup_lt_Some _ _ _ Hj)) as (cs & Hcs & _ & Hmem).
  exists t, cs. split; [done|]. split; [done|]. apply Hmem.
  unfold parentRef. rewrite Hc. simpl.
  rewrite (proj2 (declaredParent_Some c p) (conj Hp Hp0)). simpl.
  destruct (commentMapOf_is_Some _ _ _ Hj) as [k Hk]. rewrite Hid in Hk.
  rewrite Hk. f_equal.
  destruct (commentMapOf_Some _ _ _ Hk) as (c' & Hc' & Hid').
  pose proof (Hlast k c' Hc' Hid').
  pose proof (commentMapOf_last _ _ _ Hk j parent Hj Hid). lia.
Qed.

Lemma reply_attaches_to_last_record_witness :
  let comments := [mk 7 None; mk 7 None; mk 8 (Some 7%Z)] in
  exists t cs,
    buildCommentTree comments = Some t
    /\ children t !! 1 = Some cs /\ 2 ∈ cs.
Proof.
  cbv zeta.
  apply (reply_attaches_to_last_record
           [mk 7 None; mk 7 None; mk 8 (Some 7%Z)] 2 1 (mk 8 (Some 7%Z)) (mk 7 None) 7%Z);
    try reflexivity; [lia|].
  intros j' c' Hc' Hid.
  destruct j' as [|[|[|j']]]; simpl in Hc'; [lia | lia | | discriminate].
  injection Hc' as <-. vm_compute in Hid. discriminate.
Defined.

(** ** The discussion handler *)

Lemma filter_all_true {A : Type} (f : A -> bool) (l : list A) :
  Forall (fun x => f x = true) l -> List.filter f l = l.
Proof. induction 1 as [|x l Hx _ IH]; simpl; [done|]. by rewrite Hx, IH. Qed.

Lemma List_filter_length_le {A : Type} (f : A -> bool) (l : list A) :
  length (List.filter f l) <= length l.
Proof. induction l as [|x l IH]; simpl; [done|]. destruct (f x); simpl; lia. Qed.

Lemma dedupFirst_length_le (l : list text) : length (dedupFirst l) <= length l.
Proof.
  induction l as [|x l IH]; simpl; [done|].
  pose proof (length_filter (fun y => y <> x) (dedupFirst l)). lia.
Qed.

Lemma expert_count_le (comments : list DevToComment) :
  count (expertContributions (analyzeDiscussion comments)) <= length comments.
Proof. apply List_filter_length_le. Qed.

(** X6: in the [analyze_discussion] handler [totalComments] and
    [threadCount] are the same number, the number of comments of the
    provider's list without parent identity (or with the parent identity
    0): replies are not counted, and neither the participants nor the
    expert contributions can exceed that number. *)
Theorem handler_counts_top_level_comments (comments : list DevToComment) :
  exists t,
    buildCommentTree comments = Some t
    /\ let returned := rootObjects comments t in
       let m := metricsOf returned in
       totalComments m
       = length (filter (fun c => parent_id c = None \/ parent_id c = Some 0%Z) comments)
       /\ threadCount m = totalComments m
       /\ participantCount m <= totalComments m
       /\ count (expertContributions (analyzeDiscussion returned)) <= totalComments m.
Proof.
  destruct (rootObjects_char comments) as (t & Hbuild & Hret).
  exists t. split; [done|]. cbv zeta. rewrite Hret.
  unfold metricsOf. cbn [totalComments threadCount participantCount].
  split; [|split; [|split]].
  - f_equal. apply list_filter_iff. intros c. apply declaredParent_None.
  - f_equal. apply filter_all_true. apply Forall_forall. intros c Hc.
    apply list_elem_of_filter in Hc as [Hd _].
    apply declaredParent_None in Hd as [-> | ->]; done.
  - rewrite foldl_setAdd_nil.
    etransitivity; [apply dedupFirst_length_le|]. by rewrite length_map.
  - apply expert_count_le.
Qed.

(** ** The discussion analyzer: quality, sentiment, expert contributions *)

Lemma totalLength_cons (c : DevToComment) (l : list DevToComment) :
  totalLength (c :: l) = length (body_markdown c) + totalLength l.
Proof.
  unfold totalLength. simpl.
  assert (G : forall acc,
             foldl (fun sum comment => sum + length (body_markdown comment)) acc l
             = acc + foldl (fun sum comment => sum + length (body_markdown comment)) 0 l).
  { induction l as [|x l IH]; intros acc; simpl; [lia|].
    rewrite IH, (IH (length (body_markdown x))). lia. }
  apply G.
Qed.

Lemma totalLength_le (k : nat) (l : list DevToComment) :
  Forall (fun c => length (body_markdown c) <= k) l ->
  totalLength l <= k * length l.
Proof.
  induction 1 as [|c l Hc _ IH]; [unfold totalLength; simpl; lia|].
  rewrite totalLength_cons. cbn [length]. lia.
Qed.

Lemma totalLength_gt (k : nat) (l : list DevToComment) :
  l <> [] ->
  Forall (fun c => k < length (body_markdown c)) l ->
  k * length l < totalLength l.
Proof.
  intros Hne Hall. induction Hall as [|c l Hc Hall IH]; [done|].
  rewrite totalLength_cons. destruct l as [|c' l].
  - unfold totalLength. simpl. lia.
  - specialize (IH ltac:(done)). cbn [length] in *. lia.
Qed.

Lemma existsb_includes (comments : list DevToComment) (p : text) :
  existsb (fun comment => includes (body_markdown comment) p) comments = true
  <-> exists c, c ∈ comments /\ contains (body_markdown c) p.
Proof.
  rewrite existsb_exists. split; intros (c & Hc & H); exists c.
  - split; [by apply list_elem_of_In | by apply includes_iff].
  - split; [by apply list_elem_of_In | by apply includes_iff].
Qed.

(** X7: the two declarations of [determineDiscussionQuality] agree on
    every input, the empty list included, and so the two declarations of
    [analyzeDiscussion] differ in the expert contributions only. *)
Theorem discussion_declarations_agree (comments : list DevToComment) :
  Earlier.determineDiscussionQuality comments = determineDiscussionQuality comments
  /\ quality (Earlier.analyzeDiscussion comments) = quality (analyzeDiscussion comments)
  /\ sentiment (Earlier.analyzeDiscussion comments) = sentiment (analyzeDiscussion comments)
  /\ discussionTopics (Earlier.analyzeDiscussion comments)
     = discussionTopics (analyzeDiscussion comments).
Proof.
  assert (H : Earlier.determineDiscussionQuality comments
              = determineDiscussionQuality comments).
  { unfold Earlier.determineDiscussionQuality, determineDiscussionQuality.
    destruct comments as [|c l]; [|done]. reflexivity. }
  split; [exact H|]. split; [exact H|]. split; reflexivity.
Qed.

(** X8: a discussion is of high quality only if the mean body length
    exceeds 200 and some comment contains a code fence or "http"; it is of
    low quality when no body is longer than 100; it is of high quality
    when every body is longer than 200 and some comment contains a code
    fence or "http". *)
Theorem quality_thresholds (comments : list DevToComment) :
  let evidence :=
    exists c, c ∈ comments
              /\ (contains (body_markdown c) fence
                  \/ contains (body_markdown c) (lit "http")) in
  (determineDiscussionQuality comments = High ->
   200 * length comments < totalLength comments /\ evidence)
  /\ (Forall (fun c => length (body_markdown c) <= 100) comments ->
      determineDiscussionQuality comments = Low)
  /\ (comments <> [] ->
      Forall (fun c => 200 < length (body_markdown c)) comments ->
      evidence ->
      determineDiscussionQuality comments = High).
Proof.
  cbv zeta. unfold determineDiscussionQuality, qualityOf, averageExceeds.
  destruct (length comments =? 0) eqn:En.
  { apply Nat.eqb_eq in En. destruct comments; [|done].
    split; [done|]. split; done. }
  apply Nat.eqb_neq in En.
  set (ev := existsb (fun comment => includes (body_markdown comment) fence) comments
             || existsb (fun comment => includes (body_markdown comment) (lit "http"))
                  comments).
  assert (Hev : ev = true
                <-> exists c, c ∈ comments
                              /\ (contains (body_markdown c) fence
                                  \/ contains (body_markdown c) (lit "http"))).
  { unfold ev. rewrite orb_true_iff, !existsb_includes. split.
    - intros [(c & ? & ?) | (c & ? & ?)]; exists c; tauto.
    - intros (c & ? & [?|?]); [left | right]; by exists c. }
  destruct (Nat.ltb_spec (200 * length comments) (totalLength comments)) as [E200|E200];
    destruct (Nat.ltb_spec (100 * length comments) (totalLength comments)) as [E100|E100];
    cbn [andb];
    (split; [|split]); try done; try (intros; lia).
  all: try (destruct ev eqn:Eev; try done; intros _; split; [done|]; by apply Hev).
  all: try (intros Hall; apply totalLength_le in Hall; lia).
  all: try (intros Hne Hall Hevid; apply Hev in Hevid; rewrite Hevid; try done;
            apply (totalLength_gt 200 _ Hne) in Hall; lia).
  all: try (intros Hne Hall _; apply (totalLength_gt 200 _ Hne) in Hall; lia).
Qed.

Lemma quality_thresholds_witness :
  let c := comment (repeat (ch "x") 250 ++ lit "http") (lit "ann") in
  [c] <> []
  /\ Forall (fun c => 200 < length (body_markdown c)) [c]
  /\ determineDiscussionQuality [c] = High
  /\ 200 * length [c] < totalLength [c]
  /\ determineDiscussionQuality [comment (lit "short") (lit "bob")] = Low.
Proof.
  cbv zeta.
  set (c := comment (repeat (ch "x") 250 ++ lit "http") (lit "ann")).
  assert (Hne : [c] <> []) by done.
  assert (Hall : Forall (fun c => 200 < length (body_markdown c)) [c]).
  { constructor; [|constructor]. vm_compute. lia. }
  assert (Hev : exists c', c' ∈ [c]
                           /\ (contains (body_markdown c') fence
                               \/ contains (body_markdown c') (lit "http"))).
  { exists c. split; [by left|]. right. exists (repeat (ch "x") 250), []. 
    unfold c. simpl body_markdown. by rewrite app_nil_r. }
  destruct (quality_thresholds [c]) as (Hhigh & _ & Hmake).
  pose proof (Hmake Hne Hall Hev) as HH.
  split; [exact Hne|]. split; [exact Hall|]. split; [exact HH|].
  split; [exact (proj1 (Hhigh HH))|].
  apply (proj1 (proj2 (quality_thresholds [comment (lit "short") (lit "bob")]))).
  constructor; [|constructor]. vm_compute. lia.
Defined.

Lemma testAny_iff (alternatives : list text) (s : text) :
  testAny alternatives s = true
  <-> exists w, w ∈ alternatives /\ containsCI s w.
Proof.
  unfold testAny, testCI. rewrite existsb_exists. split; intros (w & Hw & H); exists w.
  - split; [by apply list_elem_of_In | by apply includes_fold_iff].
  - split; [by apply list_elem_of_In | by apply includes_fold_iff].
Qed.

Lemma filter_nonempty {A : Type} (f : A -> bool) (l : list A) :
  0 < length (List.filter f l) -> exists x, In x l /\ f x = true.
Proof.
  destruct (List.filter f l) as [|x r] eqn:E; simpl; [lia|]. intros _.
  exists x. apply filter_In. rewrite E. by left.
Qed.

Lemma filter_none {A : Type} (f : A -> bool) (l : list A) :
  (forall x, In x l -> f x = false) -> List.filter f l = [].
Proof.
  induction l as [|x l IH]; intros H; simpl; [done|].
  rewrite (H x) by (by left). apply IH. intros y Hy. apply H. by right.
Qed.

(** X9: a discussion is positive only if some comment contains a positive
    keyword, negative only if some comment contains a negative keyword,
    both in any letter case; a discussion without any keyword is neutral. *)
Theorem sentiment_needs_keywords (comments : list DevToComment) :
  (analyzeCommentSentiment comments = Positive ->
   exists c w, c ∈ comments /\ w ∈ positivePatterns
               /\ containsCI (body_markdown c) w)
  /\ (analyzeCommentSentiment comments = Negative ->
      exists c w, c ∈ comments /\ w ∈ negativePatterns
                  /\ containsCI (body_markdown c) w)
  /\ ((forall c w, c ∈ comments -> w ∈ positivePatterns ++ negativePatterns ->
                   ~ containsCI (body_markdown c) w) ->
      analyzeCommentSentiment comments = Neutral).
Proof.
  unfold analyzeCommentSentiment.
  set (pos := List.filter (fun c => testAny positivePatterns (body_markdown c)) comments).
  set (neg := List.filter (fun c => testAny negativePatterns (body_markdown c)) comments).
  split; [|split].
  - destruct (Nat.ltb_spec (length neg * 2) (length pos)) as [Hlt|Hge].
    + intros _. assert (Hpos : 0 < length pos) by lia.
      destruct (filter_nonempty _ _ Hpos) as (c & Hc & Ht).
      apply testAny_iff in Ht as (w & Hw & Hcw).
      exists c, w. split; [by apply list_elem_of_In|done].
    + by destruct (_ <? _).
  - destruct (Nat.ltb_spec (length neg * 2) (length pos)) as [Hlt|Hge]; [done|].
    destruct (Nat.ltb_spec (length pos * 2) (length neg)) as [Hlt|Hge']; [|done].
    intros _. assert (Hneg : 0 < length neg) by lia.
    destruct (filter_nonempty _ _ Hneg) as (c & Hc & Ht).
    apply testAny_iff in Ht as (w & Hw & Hcw).
    exists c, w. split; [by apply list_elem_of_In|done].
  - intros Hnone.
    assert (Hp : pos = []).
    { apply filter_none. intros c Hc.
      destruct (testAny positivePatterns (body_markdown c)) eqn:E; [|done].
      apply testAny_iff in E as (w & Hw & Hcw).
      destruct (Hnone c w); [by apply list_elem_of_In | | done].
      apply elem_of_app. by left. }
    assert (Hn : neg = []).
    { apply filter_none. intros c Hc.
      destruct (testAny negativePatterns (body_markdown c)) eqn:E; [|done].
      apply testAny_iff in E as (w & Hw & Hcw).
      destruct (Hnone c w); [by apply list_elem_of_In | | done].
      apply elem_of_app. by right. }
    by rewrite Hp, Hn.
Qed.

Lemma sentiment_needs_keywords_witness :
  let c := comment (lit "Thanks, this was HELPFUL.") (lit "ann") in
  analyzeCommentSentiment [c] = Positive
  /\ exists c' w, c' ∈ [c] /\ w ∈ positivePatterns /\ containsCI (body_markdown c') w.
Proof.
  cbv zeta.
  assert (H : analyzeCommentSentiment
                [comment (lit "Thanks, this was HELPFUL.") (lit "ann")] = Positive)
    by (vm_compute; reflexivity).
  split; [exact H|].
  exact (proj1 (sentiment_needs_keywords _) H).
Defined.

(** X10: the inlined expert filter of [analyzeDiscussion] never counts
    fewer comments or lists fewer authors than [identifyExpertContributions];
    in both, the authors are no more than the counted comments, and these
    no more than the comments. *)
Theorem expert_contributions_compared (comments : list DevToComment) :
  let helper := identifyExpertContributions comments in
  let inlined := expertContributions (analyzeDiscussion comments) in
  count helper <= count inlined
  /\ count inlined <= length comments
  /\ length (authors helper) <= count helper
  /\ length (authors inlined) <= count inlined
  /\ forall a, a ∈ authors helper -> a ∈ authors inlined.
Proof.
  cbv zeta. unfold identifyExpertContributions, analyzeDiscussion.
  cbn [expertContributions count authors].
  set (long := fun c : DevToComment => 300 <? length (body_markdown c)).
  set (full := fun comment : DevToComment =>
                 (300 <? length (body_markdown comment))
                 && (includes (body_markdown comment) fence
                     || includes (body_markdown comment) (lit "http"))).
  assert (Hsub : forall l : list DevToComment,
             length (List.filter full l) <= length (List.filter long l)).
  { induction l as [|c l IH]; [done|]. cbn [List.filter].
    destruct (full c) eqn:Ef, (long c) eqn:El; cbn [length]; try lia.
    unfold full, long in Ef, El. rewrite El in Ef. done. }
  rewrite !foldl_setAdd_nil.
  split; [apply Hsub|]. split; [apply List_filter_length_le|].
  split; [|split].
  - etransitivity; [apply dedupFirst_length_le|]. by rewrite length_map.
  - etransitivity; [apply dedupFirst_length_le|]. by rewrite length_map.
  - intros a. rewrite !elem_of_dedupFirst, !list_elem_of_In, !in_map_iff.
    intros (c & <- & Hc). exists c. split; [done|].
    apply filter_In in Hc as [Hin Hf]. apply filter_In. split; [done|].
    unfold full in Hf. unfold long. by apply andb_true_iff in Hf as [-> _].
Qed.

(** ** The discussion analyzer: topics *)

Lemma isWord_ascii (c : codeUnit) : isWord c = true -> (c < 128)%N.
Proof.
  unfold isWord. rewrite !orb_true_iff, !andb_true_iff, !N.leb_le, N.eqb_eq. lia.
Qed.

Lemma isWord_lowerASCII (c : codeUnit) : isWord c = true -> isWord (lowerASCII c) = true.
Proof.
  unfold lowerASCII. destruct ((65 <=? c) && (c <=? 90))%N eqn:E; [|done].
  intros _. apply andb_true_iff in E as [E1 E2]. apply N.leb_le in E1, E2.
  unfold isWord. rewrite !orb_true_iff, !andb_true_iff, !N.leb_le. lia.
Qed.

Lemma toLowerCase_word (w : text) :
  Forall (fun c => isWord c = true) w -> toLowerCase w = foldCase w.
Proof.
  intros H. apply toLowerCase_ascii. eapply Forall_impl; [exact H|].
  intros c. apply isWord_ascii.
Qed.

Lemma contains_refl_prefix (w s : text) : contains (w ++ s) w.
Proof. by exists [], s. Qed.

Lemma splitNonWord_pieces (s : text) :
  forall (inSeparator : bool) (word p : text),
    (inSeparator = true -> word = []) ->
    Forall (fun c => isWord c = true) word ->
    p ∈ splitNonWord inSeparator word s ->
    Forall (fun c => isWord c = true) p /\ contains (word ++ s) p.
Proof.
  induction s as [|c s IH]; intros b w p Hb Hw Hp; simpl in Hp.
  - apply list_elem_of_singleton in Hp as ->. split; [done|].
    apply contains_refl_prefix.
  - destruct (isWord c) eqn:Hc.
    + destruct (IH false (w ++ [c]) p) as [Hall Hcont]; [done| |done|].
      { apply Forall_app. split; [done|]. by constructor. }
      split; [done|]. by rewrite <- app_assoc in Hcont.
    + destruct b.
      * rewrite (Hb eq_refl) in *. destruct (IH true [] p) as [Hall (a & r & Hs)];
          [done|done|done|].
        split; [done|]. exists (c :: a), r. simpl in *. by rewrite Hs.
      * apply elem_of_cons in Hp as [-> | Hp].
        -- split; [done|]. apply contains_refl_prefix.
        -- destruct (IH true [] p) as [Hall (a & r & Hs)]; [done|done|done|].
           split; [done|]. exists (w ++ c :: a), r. simpl in Hs.
           rewrite Hs. by rewrite <- app_assoc.
Qed.

Lemma foldl_topic_words (acc : list text) (words : list text) :
  foldl (fun topics word =>
           if 4 <? length word then setAdd topics (toLowerCase word) else topics)
        acc words
  = foldl setAdd acc (map toLowerCase (List.filter (fun w => 4 <? length w) words)).
Proof.
  revert acc. induction words as [|w words IH]; intros acc; simpl; [done|].
  rewrite IH. by destruct (4 <? length w).
Qed.

Lemma foldl_flat_map {A B C : Type} (f : A -> C -> A) (g : B -> list C)
    (acc : A) (l : list B) :
  foldl (fun a b => foldl f a (g b)) acc l = foldl f acc (flat_map g l).
Proof.
  revert acc. induction l as [|b l IH]; intros acc; simpl; [done|].
  by rewrite IH, foldl_app.
Qed.

(** X11: the discussion topics are at most ten, pairwise different, and
    each is a run of more than four word characters of some comment body,
    in lower case. *)
Theorem discussion_topics_invariants (comments : list DevToComment) :
  let ts := extractDiscussionTopics comments in
  length ts <= 10
  /\ NoDup ts
  /\ forall t, t ∈ ts ->
               4 < length t
               /\ Forall (fun c => isWord c = true) t
               /\ toLowerCase t = t
               /\ exists c, c ∈ comments /\ containsCI (body_markdown c) t.
Proof.
  cbv zeta. unfold extractDiscussionTopics.
  rewrite (foldl_flat_map _ (fun comment => splitNonWord false [] (body_markdown comment))).
  rewrite foldl_topic_words, foldl_setAdd_nil.
  set (words := flat_map (fun comment => splitNonWord false [] (body_markdown comment))
                  comments).
  split; [|split].
  - rewrite length_take. lia.
  - eapply sublist_NoDup; [apply NoDup_dedupFirst | apply sublist_take].
  - intros t Ht. apply (subseteq_take 10) in Ht.
    apply elem_of_dedupFirst, list_elem_of_In, in_map_iff in Ht as (w & <- & Hw).
    apply filter_In in Hw as [Hw Hlen]. apply Nat.ltb_lt in Hlen.
    apply in_flat_map in Hw as (c & Hc & Hw).
    apply list_elem_of_In in Hw.
    destruct (splitNonWord_pieces _ _ _ _ ltac:(done) ltac:(constructor) Hw)
      as [Hall (a & r & Hbody)].
    rewrite (toLowerCase_word w Hall).
    assert (Hfold : Forall (fun c => isWord c = true) (foldCase w)).
    { unfold foldCase. apply Forall_fmap. eapply Forall_impl; [exact Hall|].
      intros x Hx. by apply isWord_lowerASCII. }
    split; [by rewrite foldCase_length|]. split; [done|]. split.
    + by rewrite (toLowerCase_word _ Hfold), foldCase_idempotent.
    + exists c. split; [by apply list_elem_of_In|].
      exists a, w, r. simpl in Hbody. split; [done|].
      by rewrite foldCase_idempotent.
Qed.

(** ** The content classifier: sections and genre *)

Lemma matchAllAt_nil_iff (m : matcher) (s : text) (pos : nat) :
  matchAllAt m 0 pos s = [] <-> forall a c b, s = a ++ c :: b -> m (c :: b) = None.
Proof.
  revert pos. induction s as [|x s IH]; intros pos; simpl.
  - split; [|done]. intros _ a c b H. by destruct a.
  - destruct (m (x :: s)) as [y|] eqn:E.
    + split; [done|]. intros H. by rewrite (H [] x s) in E.
    + rewrite IH. split.
      * intros H [|x' a] c b Heq; simplify_eq/=; [done|]. by eapply H.
      * intros H a c b ->. by apply (H (x :: a) c b).
Qed.

(** X12: a body has no section exactly when it does not contain [##]. *)
Theorem no_section_iff_no_marker (content : text) :
  extractSections content = [] <-> ~ contains content (lit "##").
Proof.
  unfold extractSections, matchAll, matchAllPos.
  split.
  - intros H (a & b & Hab).
    apply map_eq_nil, map_eq_nil in H.
    pose proof (proj1 (matchAllAt_nil_iff _ _ _) H a (ch "#") ((ch "#") :: b) Hab) as Hm.
    done.
  - intros Hno.
    rewrite (proj2 (matchAllAt_nil_iff headingAt content 0)); [done|].
    intros a c b ->. unfold headingAt.
    destruct (startsWith (lit "##") (c :: b)) eqn:E; [|done].
    apply startsWith_iff in E as [r Hr]. destruct Hno. exists a, r. by rewrite Hr.
Qed.

Lemma find_ext {A : Type} (f g : A -> bool) (l : list A) :
  (forall x, f x = g x) -> List.find f l = List.find g l.
Proof. intros H. induction l as [|x l IH]; simpl; [done|]. by rewrite H, IH. Qed.

Lemma testCI_fold (p s : text) : testCI p (foldCase s) = testCI p s.
Proof. unfold testCI. by rewrite foldCase_idempotent. Qed.

Lemma testAny_fold (alternatives : list text) (s : text) :
  testAny alternatives (foldCase s) = testAny alternatives s.
Proof.
  unfold testAny. induction alternatives as [|p l IH]; simpl; [done|].
  by rewrite testCI_fold, IH.
Qed.

(** X13: the genre depends on the title and on the first 500 code units of
    the body only, and on neither through the case of its ASCII letters. *)
Theorem genre_reads_prefix_ignores_case (title content : text) :
  determineContentType title content = determineContentType title (firstn 500 content)
  /\ determineContentType (foldCase title) (foldCase content)
     = determineContentType title content.
Proof.
  unfold determineContentType. split.
  - erewrite find_ext; [done|]. intros tp. simpl.
    by rewrite take_take.
  - erewrite find_ext; [done|]. intros tp. simpl.
    unfold foldCase at 2. rewrite firstn_map. fold (foldCase (firstn 500 content)).
    by rewrite !testAny_fold.
Qed.

Lemma containsCI_prefix (s p q : text) : containsCI s (p ++ q) -> containsCI s p.
Proof.
  intros (a & m & b & -> & Hm). rewrite foldCase_app in Hm.
  unfold foldCase in Hm. apply map_eq_app in Hm as (m1 & m2 & -> & Hm1 & Hm2).
  exists a, m1, (m2 ++ b). split; [by rewrite <- app_assoc | done].
Qed.

Lemma patterns_functional (genre : ContentType) (words words' : list text) :
  (genre, words) ∈ patterns -> (genre, words') ∈ patterns -> words = words'.
Proof.
  unfold patterns. rewrite !elem_of_cons, !elem_of_nil.
  intros [H|[H|[H|[H|[]]]]] [H'|[H'|[H'|[H'|[]]]]]; congruence.
Qed.

(** X14: the patterns are tried in the order tutorial, conceptual,
    opinion, discussion.  The genre is the first of these one of whose
    keywords the title or the first 500 code units of the body hold, in
    any letter case; it is general exactly when they hold no keyword at
    all. *)
Theorem genre_first_match_wins (title content : text) :
  let holds (genre : ContentType) :=
    exists words w,
      (genre, words) ∈ patterns /\ w ∈ words
      /\ (containsCI title w \/ containsCI (firstn 500 content) w) in
  let result := determineContentType title content in
  (result = Tutorial <-> holds Tutorial)
  /\ (result = Conceptual <-> holds Conceptual /\ ~ holds Tutorial)
  /\ (result = Opinion <->
      holds Opinion /\ ~ holds Tutorial /\ ~ holds Conceptual)
  /\ (result = Discussion <->
      holds Discussion /\ ~ holds Tutorial /\ ~ holds Conceptual /\ ~ holds Opinion)
  /\ (result = General <->
      ~ holds Tutorial /\ ~ holds Conceptual /\ ~ holds Opinion /\ ~ holds Discussion).
Proof.
  intros holds result.
  assert (Hkey : forall genre words,
             (genre, words) ∈ patterns ->
             holds genre
             <-> testAny words title || testAny words (firstn 500 content) = true).
  { intros genre words Hin. rewrite orb_true_iff, !testAny_iff. split.
    - intros (words' & w & Hin' & Hw & Hc).
      rewrite (patterns_functional _ _ _ Hin Hin'). destruct Hc; [left | right]; eauto.
    - intros [(w & ? & ?) | (w & ? & ?)]; exists words, w; tauto. }
  pose proof (Hkey Tutorial _ ltac:(unfold patterns; rewrite !elem_of_cons; tauto)) as HT.
  pose proof (Hkey Conceptual _ ltac:(unfold patterns; rewrite !elem_of_cons; tauto)) as HC.
  pose proof (Hkey Opinion _ ltac:(unfold patterns; rewrite !elem_of_cons; tauto)) as HO.
  pose proof (Hkey Discussion _ ltac:(unfold patterns; rewrite !elem_of_cons; tauto)) as HD.
  clear Hkey. clearbody holds.
  unfold result, determineContentType, patterns. cbn [List.find fst snd].
  revert HT HC HO HD.
  repeat match goal with
         | |- context [testAny ?ws ?t || testAny ?ws ?u] =>
             destruct (testAny ws t || testAny ws u)
         end; cbn [fst]; intros HT HC HO HD.
  all: repeat split; intros; try discriminate.
  all: intuition (try discriminate; try congruence).
Qed.

(** X15: the alternative "thoughts on" of the discussion pattern never
    decides.  A text classified as a discussion holds "discuss" or "what
    do you think", because a text with "thoughts on" holds "thoughts" and
    is an opinion, or of an earlier genre. *)
Theorem thoughts_on_is_shadowed (title content : text) :
  determineContentType title content = Discussion ->
  exists w, w ∈ [lit "discuss"; lit "what do you think"]
            /\ (containsCI title w \/ containsCI (firstn 500 content) w).
Proof.
  assert (Htest : forall words,
             testAny words title || testAny words (firstn 500 content) = true
             <-> exists w, w ∈ words
                           /\ (containsCI title w \/ containsCI (firstn 500 content) w)).
  { intros words. rewrite orb_true_iff, !testAny_iff. split.
    - intros [(w & ? & ?) | (w & ? & ?)]; exists w; tauto.
    - intros (w & ? & [?|?]); [left | right]; by exists w. }
  unfold determineContentType, patterns. cbn [List.find fst snd].
  repeat match goal with
         | |- context [testAny ?ws ?t || testAny ?ws ?u] =>
             let E := fresh "E" in
             destruct (testAny ws t || testAny ws u) eqn:E
         end; cbn [fst]; try done.
  intros _.
  match goal with
  | E : (testAny (map lit ["discuss"; _; _]%string) _ || _) = true |- _ =>
      apply Htest in E as (w & Hw & Hc)
  end.
  cbn [map] in Hw. rewrite !elem_of_cons, elem_of_nil in Hw.
  destruct Hw as [-> | [-> | [-> | []]]].
  - exists (lit "discuss"). split; [rewrite !elem_of_cons; tauto | done].
  - exfalso.
    assert (Hop : testAny (map lit ["opinion"; "thoughts"; "perspective"; "why i";
                                    "why we"; "my take"]%string) title
                  || testAny (map lit ["opinion"; "thoughts"; "perspective"; "why i";
                                       "why we"; "my take"]%string)
                       (firstn 500 content) = true).
    { apply Htest. exists (lit "thoughts"). split.
      - cbn [map]. rewrite !elem_of_cons. tauto.
      - change (lit "thoughts on") with (lit "thoughts" ++ lit " on") in Hc.
        destruct Hc as [Hc|Hc]; [left | right]; by eapply containsCI_prefix. }
    congruence.
  - exists (lit "what do you think"). split; [rewrite !elem_of_cons; tauto | done].
Qed.

Lemma thoughts_on_is_shadowed_witness :
  let title := lit "Let us DISCUSS monads" in
  determineContentType title [] = Discussion
  /\ exists w, w ∈ [lit "discuss"; lit "what do you think"]
               /\ (containsCI title w \/ containsCI (firstn 500 []) w).
Proof.
  cbv zeta.
  assert (H : determineContentType (lit "Let us DISCUSS monads") [] = Discussion)
    by (vm_compute; reflexivity).
  split; [exact H|]. exact (thoughts_on_is_shadowed _ _ H).
Defined.

(** ** Splitting at a separator: introduction, conclusion, article id *)

Lemma breakOn_unfold (sep s : text) :
  breakOn sep s
  = if startsWith sep s then ([], Some (skipn (length sep) s))
    else match s with
         | [] => ([], None)
         | c :: s' => let '(pre, post) := breakOn sep s' in (c :: pre, post)
         end.
Proof. by destruct s. Qed.

Lemma breakOn_Some_eq (sep s pre post : text) :
  breakOn sep s = (pre, Some post) -> s = pre ++ sep ++ post.
Proof.
  revert pre. induction s as [|c s IH]; intros pre; rewrite breakOn_unfold.
  - destruct (startsWith sep []) eqn:E; [|done].
    intros [= <- <-]. apply startsWith_iff in E as [b Hb].
    rewrite Hb at 1. simpl. f_equal. by rewrite Hb, drop_app_length.
  - destruct (startsWith sep (c :: s)) eqn:E.
    + intros [= <- <-]. apply startsWith_iff in E as [b Hb].
      rewrite Hb. simpl. f_equal. by rewrite drop_app_length.
    + destruct (breakOn sep s) as [pre' post'] eqn:Eb.
      intros [= <- ->]. simpl. f_equal. by apply IH.
Qed.

Lemma breakOn_None (sep s pre : text) :
  breakOn sep s = (pre, None) -> pre = s /\ includes s sep = false.
Proof.
  revert pre. induction s as [|c s IH]; intros pre; rewrite breakOn_unfold.
  - destruct (startsWith sep []) eqn:E; [done|]. intros [= <-].
    split; [done|]. cbn [includes]. by rewrite E.
  - destruct (startsWith sep (c :: s)) eqn:E; [done|].
    destruct (breakOn sep s) as [pre' post'] eqn:Eb.
    intros [= <- ->]. destruct (IH pre' eq_refl) as [-> H].
    split; [done|]. cbn [includes]. by rewrite E, H.
Qed.

Lemma includes_startsWith (sep s : text) :
  startsWith sep s = true -> includes s sep = true.
Proof. intros H. destruct s; simpl; by rewrite H. Qed.

Lemma includes_cons_false (sep s : text) (c : codeUnit) :
  includes (c :: s) sep = false -> includes s sep = false.
Proof. simpl. by intros [_ ?]%orb_false_iff. Qed.

Lemma breakOn_first (sep a b : text) :
  sep <> [] ->
  includes (a ++ removelast sep) sep = false ->
  breakOn sep (a ++ sep ++ b) = (a, Some b).
Proof.
  intros Hsep. induction a as [|c a IH]; intros Hno; rewrite breakOn_unfold.
  - simpl. replace (startsWith sep (sep ++ b)) with true
      by (symmetry; apply startsWith_iff; by exists b).
    by rewrite drop_app_length.
  - destruct (startsWith sep ((c :: a) ++ sep ++ b)) eqn:E.
    + exfalso. apply startsWith_iff in E as [r Hr].
      assert (Hsplit : sep = removelast sep ++ [List.last sep (ch "a")])
        by (by apply app_removelast_last).
      assert (Hlen : length sep = S (length (removelast sep))).
      { rewrite Hsplit at 1. rewrite length_app. simpl. lia. }
      assert (Hfull : (c :: a) ++ sep ++ b
                      = ((c :: a) ++ removelast sep)
                        ++ [List.last sep (ch "a")] ++ b).
      { rewrite Hsplit at 1. by rewrite <- !app_assoc. }
      assert (Ht : take (length sep) ((c :: a) ++ removelast sep) = sep).
      { rewrite <- (take_app_le _ ([List.last sep (ch "a")] ++ b))
          by (rewrite length_app; simpl; lia).
        rewrite <- Hfull, Hr. apply take_app_length. }
      assert (Hst : startsWith sep ((c :: a) ++ removelast sep) = true).
      { apply startsWith_iff. exists (drop (length sep) ((c :: a) ++ removelast sep)).
        rewrite <- Ht at 2. by rewrite take_drop. }
      apply includes_startsWith in Hst. congruence.
    + simpl. rewrite IH; [done|]. by eapply includes_cons_false.
Qed.

Lemma splitFuel_nonempty (fuel : nat) (sep s : text) : splitFuel fuel sep s <> [].
Proof. destruct fuel; simpl; [done|]. by destruct (breakOn sep s) as [? [?|]]. Qed.

Lemma last_cons_nonempty {A : Type} (x d : A) (l : list A) :
  l <> [] -> List.last (x :: l) d = List.last l d.
Proof. by destruct l. Qed.

(** The last piece holds no separator, and the text ends with it. *)
Lemma split_last (sep s : text) :
  sep <> [] ->
  includes (List.last (split sep s) []) sep = false
  /\ (s = List.last (split sep s) []
      \/ exists before, s = before ++ sep ++ List.last (split sep s) []).
Proof.
  intros Hsep. unfold split.
  assert (G : forall fuel s', length s' < fuel ->
             includes (List.last (splitFuel fuel sep s') []) sep = false
             /\ (s' = List.last (splitFuel fuel sep s') []
                 \/ exists before,
                      s' = before ++ sep ++ List.last (splitFuel fuel sep s') [])).
  { induction fuel as [|fuel IH]; intros s' Hlen; [lia|]. simpl.
    destruct (breakOn sep s') as [pre [post|]] eqn:E.
    - rewrite last_cons_nonempty by apply splitFuel_nonempty.
      pose proof (breakOn_length _ _ _ _ E) as Hl.
      pose proof (breakOn_Some_eq _ _ _ _ E) as ->.
      destruct (IH post) as [Hno Hend].
      { rewrite !length_app in Hlen. destruct sep; [done|]. simpl in Hlen. lia. }
      split; [done|]. right. destruct Hend as [Hend | (before & Hend)].
      + exists pre. by rewrite <- Hend.
      + exists (pre ++ sep ++ before). rewrite Hend at 1. by rewrite <- !app_assoc.
    - apply breakOn_None in E as [-> Hno]. simpl. split; [done | by left]. }
  apply G. lia.
Qed.

(** X16: [hasIntroduction] is decided on the text before the first [##]
    alone: the flag holds exactly when that text contains "introduction"
    in any letter case or, in lower case, is longer than 200 code units;
    a body that begins with [##] has no introduction, whatever its
    sections hold. *)
Theorem introduction_is_text_before_first_heading (before rest : text) :
  (includes (before ++ lit "#") (lit "##") = false ->
   (hasIntroduction (before ++ lit "##" ++ rest) = true
    <-> containsCI before (lit "introduction")
        \/ 200 < length (toLowerCase before)))
  /\ hasIntroduction (lit "##" ++ rest) = false.
Proof.
  assert (G : forall a, includes (a ++ lit "#") (lit "##") = false ->
                        hasIntroduction (a ++ lit "##" ++ rest)
                        = includes (toLowerCase a) (lit "introduction")
                          || (200 <? length (toLowerCase a))).
  { intros a Ha. unfold hasIntroduction, split. cbn [splitFuel].
    by rewrite (breakOn_first (lit "##") a rest) by done. }
  split.
  - intros Hno. rewrite (G _ Hno), orb_true_iff, Nat.ltb_lt.
    by rewrite includes_toLowerCase_iff by apply plain_introduction.
  - apply (G []). reflexivity.
Qed.

Lemma introduction_is_text_before_first_heading_witness :
  let before := lit "A short INTRODUCTION to monads. " in
  let rest := lit " Details" in
  includes (before ++ lit "#") (lit "##") = false
  /\ hasIntroduction (before ++ lit "##" ++ rest) = true.
Proof.
  cbv zeta.
  assert (Hno : includes (lit "A short INTRODUCTION to monads. " ++ lit "#") (lit "##")
                = false) by (vm_compute; reflexivity).
  split; [exact Hno|].
  apply (proj1 (introduction_is_text_before_first_heading _ (lit " Details")) Hno).
  left. exists (lit "A short "), (lit "INTRODUCTION"), (lit " to monads. ").
  split; vm_compute; reflexivity.
Defined.

Lemma contains_containsCI_trans (s p w : text) :
  (s = p \/ exists before sep, s = before ++ sep ++ p) ->
  containsCI p w -> containsCI s w.
Proof.
  intros [-> | (before & sep & ->)]; [done|].
  intros (a & m & b & -> & Hm). exists (before ++ sep ++ a), m, b.
  split; [by rewrite <- !app_assoc | done].
Qed.

(** X17: [hasConclusion] is decided on the text behind the last [##]
    alone: there is a tail of the body without [##], the whole body or
    what follows a [##], such that the flag holds exactly when that tail
    contains "conclusion", "summary" or "final thoughts" in any letter
    case. *)
Theorem conclusion_is_text_after_last_heading (content : text) :
  exists tail,
    ~ contains tail (lit "##")
    /\ (content = tail \/ exists before, content = before ++ lit "##" ++ tail)
    /\ (hasConclusion content = true
        <-> containsCI tail (lit "conclusion")
            \/ containsCI tail (lit "summary")
            \/ containsCI tail (lit "final thoughts")).
Proof.
  exists (List.last (split (lit "##") content) []).
  destruct (split_last (lit "##") content ltac:(done)) as [Hno Hend].
  split; [|split; [done|]].
  - intros H. apply includes_iff in H. congruence.
  - unfold hasConclusion. rewrite !orb_true_iff.
    rewrite (includes_toLowerCase_iff _ _ plain_conclusion),
      (includes_toLowerCase_iff _ _ plain_summary),
      (includes_toLowerCase_iff _ _ plain_final_thoughts).
    tauto.
Qed.

(** X18: the article id taken from a URL holds no slash and is the end of
    the URL, behind its last slash if it has one; a URL that ends with a
    slash gives the empty id. *)
Theorem article_id_is_last_segment (url : text) :
  let articleId := articleIdOf url in
  ~ contains articleId (lit "/")
  /\ (url = articleId \/ exists before, url = before ++ lit "/" ++ articleId)
  /\ (forall before, url = before ++ lit "/" -> articleId = [])
  /\ articleRequest url = lit "https://dev.to/api/articles/" ++ articleId.
Proof.
  cbv zeta. unfold articleRequest, articleIdOf.
  destruct (split_last (lit "/") url ltac:(done)) as [Hno Hend].
  set (p := List.last (split (lit "/") url) []) in *.
  split; [|split; [done|split]].
  - intros H. apply includes_iff in H. congruence.
  - intros before Hurl. destruct p as [|c p' _] using rev_ind; [done|].
    exfalso.
    assert (Hlast : exists u, url = u ++ [c]).
    { destruct Hend as [-> | (b & ->)]; [by exists p'|].
      exists (b ++ lit "/" ++ p'). by rewrite <- !app_assoc. }
    destruct Hlast as [u Hu]. rewrite Hu in Hurl.
    apply app_inj_tail in Hurl as [_ ->].
    rewrite (proj2 (includes_iff _ _)) in Hno; [done|].
    exists p', []. reflexivity.
  - reflexivity.
Qed.

(** ** The technical-depth analyzer: bounds *)

Lemma matchAllAt_count_bound (m : matcher) (k : nat) :
  (forall s x, m s = Some x -> k <= length x <= length s) ->
  0 < k ->
  forall s skip pos,
    skip <= length s ->
    skip + k * length (matchAllAt m skip pos s) <= length s.
Proof.
  intros Hm Hk. induction s as [|c s IH]; intros skip pos Hskip; simpl in *.
  - lia.
  - destruct skip as [|skip].
    + destruct (m (c :: s)) as [x|] eqn:E.
      * destruct (Hm _ _ E) as [Hk1 Hk2]. simpl in Hk2. cbn [length].
        specialize (IH (length x - 1) (S pos) ltac:(lia)). lia.
      * specialize (IH 0 (S pos) ltac:(lia)). lia.
    + specialize (IH skip (S pos) ltac:(lia)). lia.
Qed.

Lemma fenceAt_length (s x : text) : fenceAt s = Some x -> 6 <= length x <= length s.
Proof.
  unfold fenceAt. destruct (startsWith fence s) eqn:E; [|done].
  apply startsWith_iff in E as [r ->]. rewrite drop_app_length'; [|done].
  destruct (breakOn fence r) as [body [post|]] eqn:Eb; [|done].
  intros [= <-]. apply breakOn_Some_eq in Eb as ->.
  cbn [length]. rewrite !length_app. change (length fence) with 3. lia.
Qed.

Lemma foundIn_sublist (content : text) (terms : list text) :
  foundIn content terms `sublist_of` terms.
Proof.
  unfold foundIn. induction terms as [|t terms IH]; simpl; [done|].
  destruct (includes _ _); by constructor.
Qed.

(** X19: every fenced code block takes at least six code units of the
    body; the found terms of each tier are dictionary terms, in dictionary
    order, each once, and do not depend on the letter case of the body. *)
Theorem depth_signals_bounded (content : text) :
  let r := analyzeTechnicalDepth content in
  6 * codeBlockCount r <= length content
  /\ beginner (technicalTerms r) `sublist_of` beginner technicalTermsDict
  /\ intermediate (technicalTerms r) `sublist_of` intermediate technicalTermsDict
  /\ advanced (technicalTerms r) `sublist_of` advanced technicalTermsDict
  /\ technicalTerms (analyzeTechnicalDepth (toLowerCase content)) = technicalTerms r.
Proof.
  cbv zeta. unfold analyzeTechnicalDepth.
  cbn [codeBlockCount technicalTerms beginner intermediate advanced].
  split; [|repeat split; try apply foundIn_sublist].
  - unfold matchAll, matchAllPos. rewrite length_map.
    pose proof (matchAllAt_count_bound fenceAt 6 fenceAt_length ltac:(lia)
                  content 0 0 ltac:(lia)). lia.
  - unfold foundIn. by rewrite toLowerCase_idempotent.
Qed.

(** ** Average reactions: bounds *)

Lemma sumZ_bounds (l : list Z) (lo hi : Z) :
  Forall (fun x => (lo <= x <= hi)%Z) l ->
  (Z.of_nat (length l) * lo <= sumZ l <= Z.of_nat (length l) * hi)%Z.
Proof.
  induction 1 as [|x l Hx _ IH]; [simpl; lia|].
  cbn [sumZ fold_right length]. fold (sumZ l). lia.
Qed.

(** X20: when the reaction counts are non-negative integers with a sum
    below 2^52, the average of a non-empty list lies between the smallest
    and the largest count.  [counts] lists the reaction counts of
    [articles]; an array has fewer than 2^32 elements. *)
Theorem average_between_bounds (articles : list Article) (counts : list Z) (lo hi : Z) :
  articles <> [] -> (Z.of_nat (length articles) < 2 ^ 32)%Z ->
  Forall2 (fun a k => public_reactions_count a = ofInteger k /\ (0 <= k)%Z)
          articles counts ->
  (sumZ counts < 2 ^ 52)%Z ->
  Forall (fun k => (lo <= k <= hi)%Z) counts ->
  exists r, calculateAverageReactions articles = ofInteger r /\ (lo <= r <= hi)%Z.
Proof.
  intros Hne Hlen Hall Hsum Hb.
  exists (roundQuotient (sumZ counts) (Z.of_nat (length articles))).
  split; [by apply calculateAverageReactions_exact|].
  unfold roundQuotient.
  rewrite (Forall2_length _ _ _ Hall).
  set (n := Z.of_nat (length counts)).
  assert (Hn : (0 < n)%Z).
  { unfold n. rewrite <- (Forall2_length _ _ _ Hall). destruct articles; [done | simpl; lia]. }
  pose proof (sumZ_bounds _ _ _ Hb) as Hs. fold n in Hs.
  split.
  - apply Z.div_le_lower_bound; lia.
  - apply Z.lt_succ_r, Z.div_lt_upper_bound; lia.
Qed.

Lemma average_between_bounds_witness :
  let articles := [article 3; article 10; article 4] in
  exists r, calculateAverageReactions articles = ofInteger r /\ (3 <= r <= 10)%Z.
Proof.
  cbv zeta. apply (average_between_bounds _ [3; 10; 4]%Z); [done | done | | done |].
  - repeat constructor; lia.
  - repeat constructor; lia.
Defined.

(** ** Items, sections and topics are trimmed single lines *)

Lemma Forall_dropWhile (P : codeUnit -> Prop) (p : codeUnit -> bool) (s : text) :
  Forall P s -> Forall P (dropWhile p s).
Proof.
  induction 1 as [|c s Hc Hs IH]; simpl; [constructor|].
  destruct (p c); [done | by constructor].
Qed.

Lemma Forall_trim (P : codeUnit -> Prop) (s : text) : Forall P s -> Forall P (trim s).
Proof.
  intros H. unfold trim, trimEnd, trimStart.
  apply Forall_rev, Forall_dropWhile, Forall_rev. by apply Forall_dropWhile.
Qed.

Lemma trim_trimmed (s : text) : trimmed (trim s).
Proof.
  unfold trim, trimEnd, trimStart. set (t := dropWhile isSpace s).
  set (d := dropWhile isSpace (rev t)). split.
  - intros c r Hd.
    assert (Ht : t = c :: r ++ rev (takeWhile isSpace (rev t))).
    { rewrite <- (rev_involutive t) at 1.
      rewrite <- (takeWhile_dropWhile isSpace (rev t)) at 1.
      rewrite rev_app_distr. fold d. by rewrite Hd. }
    by apply (dropWhile_head isSpace s c _ Ht).
  - intros r c Hd.
    assert (Hr : d = c :: rev r).
    { rewrite <- (rev_involutive d), Hd, rev_app_distr. done. }
    by apply (dropWhile_head isSpace (rev t) c _ Hr).
Qed.

Lemma trim_leading (ws s : text) :
  Forall (fun c => isSpace c = true) ws -> trim (ws ++ s) = trim s.
Proof. intros H. unfold trim, trimStart. by rewrite dropWhile_all. Qed.

Lemma markedItems_raw (s : text) (items : list text) :
  markedItems s items ->
  forall item, item ∈ items ->
    exists raw, item = trim raw /\ Forall (fun c => isLineTerminator c = false) raw.
Proof.
  induction 1 as [s Hs | before m ws raw rest items Hb Hm Hws Hi Hh Hr H IH];
    intros item Hin.
  - by apply elem_of_nil in Hin.
  - apply elem_of_cons in Hin as [-> | Hin]; [by exists raw | by apply IH].
Qed.

(** X21: every prerequisite item is one trimmed line: it holds no line
    terminator and neither starts nor ends with white space. *)
Theorem prerequisite_items_are_trimmed_lines (content : text) :
  forall item, item ∈ extractPrerequisites content ->
    trimmed item /\ Forall (fun c => isLineTerminator c = false) item.
Proof.
  intros item Hin. unfold extractPrerequisites in Hin.
  destruct (matchFirst prerequisiteAt content) as [section|];
    [|by apply elem_of_nil in Hin].
  pose proof (bullets_marked (length section) section 0 ltac:(done)) as Hm.
  destruct (markedItems_raw _ _ Hm item Hin) as (raw & -> & Hraw).
  split; [apply trim_trimmed | by apply Forall_trim].
Qed.

Lemma prerequisite_items_are_trimmed_lines_witness :
  let content := lit ("Prerequisites:" ++ nl ++ "-   node  " ++ nl ++ "* npm") in
  lit "node" ∈ extractPrerequisites content
  /\ trimmed (lit "node").
Proof.
  cbv zeta.
  assert (Hin : lit "node"
                ∈ extractPrerequisites
                    (lit ("Prerequisites:" ++ nl ++ "-   node  " ++ nl ++ "* npm"))).
  { vm_compute. by left. }
  split; [exact Hin|].
  exact (proj1 (prerequisite_items_are_trimmed_lines _ _ Hin)).
Defined.

Lemma matchAllAt_elems (m : matcher) (s : text) :
  forall skip pos p x,
    (p, x) ∈ matchAllAt m skip pos s -> exists suffix, m suffix = Some x.
Proof.
  induction s as [|c s IH]; intros skip pos p x Hin; simpl in Hin.
  - by apply elem_of_nil in Hin.
  - destruct skip as [|skip]; [|by eapply IH].
    destruct (m (c :: s)) as [y|] eqn:E; [|by eapply IH].
    apply elem_of_cons in Hin as [[= -> ->] | Hin]; [by eexists | by eapply IH].
Qed.

Lemma matchAll_elems (m : matcher) (s x : text) :
  x ∈ matchAll m s -> exists suffix, m suffix = Some x.
Proof.
  unfold matchAll, matchAllPos. intros Hin.
  apply list_elem_of_In, in_map_iff in Hin as ([p y] & <- & Hin).
  apply list_elem_of_In in Hin. by eapply matchAllAt_elems.
Qed.

Lemma removeFirst_prefix (pat s : text) : removeFirst pat (pat ++ s) = s.
Proof.
  unfold removeFirst. rewrite breakOn_unfold.
  replace (startsWith pat (pat ++ s)) with true
    by (symmetry; apply startsWith_iff; by exists s).
  by rewrite drop_app_length.
Qed.

Lemma headingTopic_clean (heading : text) :
  (exists suffix, headingAt suffix = Some heading) ->
  trimmed (headingTopic heading)
  /\ Forall (fun c => isLineTerminator c = false) (headingTopic heading).
Proof.
  intros (suffix & H). unfold headingAt in H.
  destruct (startsWith (lit "##") suffix); [|done].
  assert (heading = lit "##" ++ spacesThenLine (skipn 2 suffix)) as -> by congruence.
  unfold headingTopic. rewrite removeFirst_prefix. unfold spacesThenLine.
  rewrite trim_leading by apply Forall_takeWhile.
  split; [apply trim_trimmed|]. apply Forall_trim.
  eapply Forall_impl; [apply Forall_takeWhile|].
  intros c Hc. unfold notLineTerminator in Hc. by destruct (isLineTerminator c).
Qed.

Lemma lazyUntil_line (close s body : text) :
  lazyUntil close s = Some body -> Forall (fun c => isLineTerminator c = false) body.
Proof.
  revert body. induction s as [|c s IH]; intros body; simpl.
  - destruct (startsWith close []); [|done]. intros [= <-]. constructor.
  - destruct (startsWith close (c :: s)); [intros [= <-]; constructor|].
    destruct (isLineTerminator c) eqn:Hc; [done|].
    destruct (lazyUntil close s) as [b|]; [|done].
    intros [= <-]. constructor; [done | by apply IH].
Qed.

Lemma Forall_splitFuel (P : codeUnit -> Prop) (sep : text) (fuel : nat) :
  forall s, Forall P s -> Forall (Forall P) (splitFuel fuel sep s).
Proof.
  induction fuel as [|fuel IH]; intros s Hs; simpl; [by constructor|].
  destruct (breakOn sep s) as [pre [post|]] eqn:E.
  - apply breakOn_Some_eq in E as ->.
    apply Forall_app in Hs as [Hpre Hs]. apply Forall_app in Hs as [_ Hpost].
    constructor; [done | by apply IH].
  - apply breakOn_None in E as [-> _]. by constructor.
Qed.

Lemma boldTopic_clean (span : text) :
  (exists suffix, boldAt suffix = Some span) ->
  trimmed (boldTopic span)
  /\ Forall (fun c => isLineTerminator c = false) (boldTopic span).
Proof.
  intros (suffix & H). unfold boldAt in H.
  destruct (startsWith (lit "**") suffix); [|done].
  destruct (lazyUntil (lit "**") (skipn 2 suffix)) as [body|] eqn:E; [|done].
  assert (span = lit "**" ++ body ++ lit "**") as -> by congruence.
  apply lazyUntil_line in E. unfold boldTopic. split; [apply trim_trimmed|]. apply Forall_trim.
  unfold removeAll, split. apply Forall_concat, Forall_splitFuel.
  apply Forall_app. split; [by repeat constructor|].
  apply Forall_app. split; [done | by repeat constructor].
Qed.

(** X22: every section and every topic is one trimmed line: it holds no
    line terminator and neither starts nor ends with white space. *)
Theorem sections_and_topics_are_trimmed_lines (content : text) :
  (forall x, x ∈ extractSections content ->
             trimmed x /\ Forall (fun c => isLineTerminator c = false) x)
  /\ (forall x, x ∈ extractTopics content ->
                trimmed x /\ Forall (fun c => isLineTerminator c = false) x).
Proof.
  split.
  - intros x Hx. unfold extractSections in Hx.
    apply list_elem_of_In, in_map_iff in Hx as (h & <- & Hh).
    apply list_elem_of_In, matchAll_elems in Hh. by apply headingTopic_clean.
  - intros x Hx. unfold extractTopics in Hx.
    rewrite <- foldl_app, foldl_setAdd_nil in Hx.
    apply elem_of_dedupFirst, elem_of_app in Hx as [Hx | Hx];
      apply list_elem_of_In, in_map_iff in Hx as (h & <- & Hh);
      apply list_elem_of_In, matchAll_elems in Hh.
    + by apply headingTopic_clean.
    + by apply boldTopic_clean.
Qed.

Lemma sections_and_topics_are_trimmed_lines_witness :
  let content := lit ("##   Setup  " ++ nl ++ "Use ** the tool ** now.") in
  lit "Setup" ∈ extractSections content
  /\ lit "the tool" ∈ extractTopics content
  /\ trimmed (lit "Setup") /\ trimmed (lit "the tool").
Proof.
  cbv zeta.
  set (content := lit ("##   Setup  " ++ nl ++ "Use ** the tool ** now.")).
  assert (H1 : lit "Setup" ∈ extractSections content) by (vm_compute; by left).
  assert (H2 : lit "the tool" ∈ extractTopics content)
    by (vm_compute; right; by left).
  destruct (sections_and_topics_are_trimmed_lines content) as [Hs Ht].
  split; [exact H1|]. split; [exact H2|].
  split; [exact (proj1 (Hs _ H1)) | exact (proj1 (Ht _ H2))].
Defined.
(** ** Scans: fenced blocks, headings, bold spans *)

Lemma breakOn_Some_first (sep s pre post : text) :
  sep <> [] ->
  breakOn sep s = (pre, Some post) -> includes (pre ++ removelast sep) sep = false.
Proof.
  intros Hsep. revert pre. induction s as [|c s IH]; intros pre; rewrite breakOn_unfold.
  - destruct (startsWith sep []) eqn:E; [|done].
    apply startsWith_iff in E as [b Hb]. by destruct sep.
  - destruct (startsWith sep (c :: s)) eqn:E.
    + intros [= <- <-]. simpl.
      apply not_true_is_false. intros H. apply includes_iff in H as (a & b & H).
      apply (f_equal length) in H. rewrite !length_app in H.
      assert (Hl : length sep = S (length (removelast sep))).
      { rewrite (app_removelast_last (ch "a") Hsep) at 1.
        rewrite length_app. simpl. lia. }
      lia.
    + destruct (breakOn sep s) as [pre' post'] eqn:Eb.
      intros [= <- ->]. specialize (IH pre' eq_refl).
      cbn [app includes]. rewrite IH, orb_false_r.
      apply not_true_is_false. intros H. apply startsWith_iff in H as [r Hr].
      pose proof (breakOn_Some_eq _ _ _ _ Eb) as Hs.
      assert (Hst : startsWith sep (c :: s) = true); [|congruence].
      apply startsWith_iff.
      assert (Hsplit : sep = removelast sep ++ [List.last sep (ch "a")])
        by (by apply app_removelast_last).
      exists (r ++ [List.last sep (ch "a")] ++ post).
      rewrite Hs.
      transitivity ((c :: pre' ++ removelast sep) ++ [List.last sep (ch "a")] ++ post).
      * rewrite Hsplit at 1. simpl. by rewrite <- !app_assoc.
      * rewrite Hr. by rewrite <- !app_assoc.
Qed.

Lemma breakOn_found (sep s : text) :
  includes s sep = true -> exists pre post, breakOn sep s = (pre, Some post).
Proof.
  intros H. destruct (breakOn sep s) as [pre [post|]] eqn:E; [eauto|].
  apply breakOn_None in E as [_ E]. congruence.
Qed.

(** The first occurrence of a separator is determined. *)
Lemma first_occurrence_unique (sep a a' r r' : text) :
  sep <> [] ->
  ~ contains (a ++ removelast sep) sep ->
  ~ contains (a' ++ removelast sep) sep ->
  a ++ sep ++ r = a' ++ sep ++ r' ->
  a = a' /\ r = r'.
Proof.
  intros Hsep Ha Ha' Heq.
  assert (H1 : breakOn sep (a ++ sep ++ r) = (a, Some r)).
  { apply breakOn_first; [done|]. apply not_true_is_false. by rewrite includes_iff. }
  assert (H2 : breakOn sep (a' ++ sep ++ r') = (a', Some r')).
  { apply breakOn_first; [done|]. apply not_true_is_false. by rewrite includes_iff. }
  rewrite Heq, H2 in H1. by injection H1.
Qed.

(** *** Fenced code blocks *)

Lemma fence_split : fence = lit "``" ++ lit "`".
Proof. reflexivity. Qed.

Lemma fence_nonempty : fence <> [].
Proof. intros H. vm_compute in H. discriminate. Qed.

Lemma fenceAt_Some (s x : text) :
  fenceAt s = Some x ->
  exists body rest,
    s = fence ++ body ++ fence ++ rest
    /\ x = fence ++ body ++ fence
    /\ ~ contains (body ++ lit "``") fence.
Proof.
  unfold fenceAt. destruct (startsWith fence s) eqn:E; [|done].
  apply startsWith_iff in E as [r ->]. rewrite drop_app_length'; [|done].
  destruct (breakOn fence r) as [body [post|]] eqn:Eb; [|done].
  intros Hx. assert (x = fence ++ body ++ fence) as -> by congruence.
  exists body, post.
  pose proof (breakOn_Some_first _ _ _ _ fence_nonempty Eb) as Hfirst.
  apply breakOn_Some_eq in Eb as ->.
  split; [done|]. split; [done|].
  intros H. apply includes_iff in H. change (removelast fence) with (lit "``") in Hfirst.
  congruence.
Qed.

Lemma fenceAt_None (s : text) :
  fenceAt s = None -> forall body b, s <> fence ++ body ++ fence ++ b.
Proof.
  unfold fenceAt. intros H body b ->.
  replace (startsWith fence (fence ++ body ++ fence ++ b)) with true in H
    by (symmetry; apply startsWith_iff; eauto).
  rewrite drop_app_length' in H by done.
  destruct (breakOn_found fence (body ++ fence ++ b)) as (pre & post & E).
  - apply includes_iff. by exists body, b.
  - by rewrite E in H.
Qed.

Lemma fencedBlocks_cons (c : codeUnit) (s : text) (blocks : list text) :
  fenceAt (c :: s) = None -> fencedBlocks s blocks -> fencedBlocks (c :: s) blocks.
Proof.
  intros Hc H. destruct H as [s Hs | before body rest blocks Hb Hbody H].
  - apply fenced_none. intros [|c' a] body b Heq.
    + by apply (fenceAt_None _ Hc body b).
    + injection Heq as _ Heq. by apply (Hs a body b).
  - rewrite app_comm_cons. apply fenced_block; try done.
    intros ([|c' a] & b & Heq).
    + apply (fenceAt_None _ Hc (b ++ lit "`" ++ body) rest).
      rewrite app_comm_cons. rewrite fence_split at 1.
      rewrite <- (app_assoc (lit "``")), (app_assoc (c :: before)), Heq.
      cbn [app] in *. by rewrite <- !app_assoc.
    + injection Heq as _ Heq. apply Hb. by exists a, b.
Qed.

Lemma fencedBlocks_scan (n : nat) :
  forall (s : text) (pos : nat),
    length s <= n -> fencedBlocks s (map snd (matchAllAt fenceAt 0 pos s)).
Proof.
  induction n as [|n IH]; intros [|c s] pos Hlen; simpl in Hlen; try lia.
  - apply fenced_none. intros a body b H. apply (f_equal length) in H.
    rewrite !length_app in H. change (length fence) with 3 in H. simpl in H. lia.
  - apply fenced_none. intros a body b H. apply (f_equal length) in H.
    rewrite !length_app in H. change (length fence) with 3 in H. simpl in H. lia.
  - cbn [matchAllAt]. destruct (fenceAt (c :: s)) as [x|] eqn:E.
    + destruct (fenceAt_Some _ _ E) as (body & rest & Hs & -> & Hfirst).
      assert (Hc : c = ch "`" /\ s = (lit "``" ++ body ++ fence) ++ rest).
      { change (fence ++ body ++ fence ++ rest)
          with (ch "`" :: lit "``" ++ body ++ fence ++ rest) in Hs.
        injection Hs as -> ->. by rewrite <- !app_assoc. }
      destruct Hc as [-> Htail].
      replace (length (fence ++ body ++ fence) - 1)
        with (length (lit "``" ++ body ++ fence))
        by (rewrite !length_app; change (length fence) with 3; simpl; lia).
      rewrite Htail at 2. rewrite matchAllAt_skip. cbn [map snd].
      rewrite Hs. apply (fenced_block [] body rest); [|done|].
      * intros H. apply includes_iff in H. vm_compute in H. discriminate.
      * apply IH. rewrite Htail, !length_app in Hlen. lia.
    + apply fencedBlocks_cons; [done|]. apply IH. lia.
Qed.

Lemma fencedBlocks_functional (s : text) (l1 l2 : list text) :
  fencedBlocks s l1 -> fencedBlocks s l2 -> l1 = l2.
Proof.
  intros H1. revert l2.
  induction H1 as [s Hs | before body rest blocks Hb Hbody H IH]; intros l2 H2.
  - destruct H2 as [s _ | before body rest blocks _ _ _]; [done|].
    by destruct (Hs before body rest).
  - remember (before ++ fence ++ body ++ fence ++ rest) as s eqn:Es.
    destruct H2 as [s Hs | before' body' rest' blocks' Hb' Hbody' H'].
    + by destruct (Hs before body rest).
    + destruct (first_occurrence_unique fence before' before
                  (body' ++ fence ++ rest') (body ++ fence ++ rest))
        as [-> Er]; try done; try apply fence_nonempty.
      destruct (first_occurrence_unique fence body' body rest' rest)
        as [-> ->]; try done; try apply fence_nonempty.
      f_equal. by apply IH.
Qed.

#[global] Instance occursIn_dec (content term : text) : Decision (occursIn content term).
Proof.
  unfold occursIn.
  destruct (includes (toLowerCase content) (toLowerCase term)) eqn:E; [left | right].
  - by apply includes_iff.
  - intros H. apply includes_iff in H. congruence.
Defined.

Lemma foundIn_filter (content : text) (terms : list text) :
  foundIn content terms = filter (occursIn content) terms.
Proof.
  unfold foundIn. induction terms as [|t terms IH]; [done|]. simpl.
  destruct (includes (toLowerCase content) (toLowerCase t)) eqn:E.
  - rewrite filter_cons_True by (by apply includes_iff). by rewrite IH.
  - rewrite filter_cons_False; [done|]. intros H. apply includes_iff in H. congruence.
Qed.

(** ** The technical-depth tier *)

(** C4: the tier is advanced exactly when more than two advanced terms
    occur in the body or the body holds more than five fenced code
    blocks; otherwise it is intermediate exactly when more than three
    intermediate terms occur in the body or it holds more than two code
    blocks; otherwise it is beginner.  The advanced rule is tried first.
    The returned record carries the same counts. *)
Theorem depth_decision (content : text) :
  exists blocks,
    fencedBlocks content blocks
    /\ (forall blocks', fencedBlocks content blocks' -> blocks' = blocks)
    /\ let r := analyzeTechnicalDepth content in
       let adv := length (filter (occursIn content) (advanced technicalTermsDict)) in
       let mid := length (filter (occursIn content) (intermediate technicalTermsDict)) in
       let n := length blocks in
       (depth r = Advanced <-> 2 < adv \/ 5 < n)
       /\ (depth r = Intermediate <->
           ~ (2 < adv \/ 5 < n) /\ (3 < mid \/ 2 < n))
       /\ (depth r = Beginner <->
           ~ (2 < adv \/ 5 < n) /\ ~ (3 < mid \/ 2 < n))
       /\ codeBlockCount r = n
       /\ length (advanced (technicalTerms r)) = adv
       /\ length (intermediate (technicalTerms r)) = mid.
Proof.
  exists (matchAll fenceAt content).
  pose proof (fencedBlocks_scan (length content) content 0 ltac:(done)) as Hscan.
  split; [exact Hscan|]. split.
  { intros blocks' H. by apply (fencedBlocks_functional content). }
  cbv zeta. unfold analyzeTechnicalDepth.
  cbn [depth codeBlockCount technicalTerms advanced intermediate].
  rewrite !foundIn_filter. unfold decideDepth.
  set (a := length (filter (occursIn content) (advanced technicalTermsDict))).
  set (m := length (filter (occursIn content) (intermediate technicalTermsDict))).
  set (b := length (matchAll fenceAt content)).
  clearbody a m b.
  destruct (Nat.ltb_spec 2 a), (Nat.ltb_spec 5 b), (Nat.ltb_spec 3 m), (Nat.ltb_spec 2 b);
    cbn; repeat split; intros; try discriminate; try reflexivity; try lia;
    try (exfalso; lia).
Qed.

(** *** Heading texts *)

Lemma headingAt_Some (s x : text) :
  headingAt s = Some x ->
  exists r, s = lit "##" ++ r /\ x = lit "##" ++ spacesThenLine r.
Proof.
  unfold headingAt. destruct (startsWith (lit "##") s) eqn:E; [|done].
  apply startsWith_iff in E as [r ->]. intros Hx. exists r. split; [done|].
  rewrite drop_app_length' in Hx by done. congruence.
Qed.

Lemma headingAt_None (s : text) :
  headingAt s = None -> forall r, s <> lit "##" ++ r.
Proof.
  unfold headingAt. intros H r ->.
  by replace (startsWith (lit "##") (lit "##" ++ r)) with true in H
    by (symmetry; apply startsWith_iff; eauto).
Qed.

Lemma headingTexts_cons (c : codeUnit) (s : text) (items : list text) :
  headingAt (c :: s) = None -> headingTexts s items -> headingTexts (c :: s) items.
Proof.
  intros Hc H.
  destruct H as [s Hs | before ws item rest items Hb Hws Hi Hh Hr H].
  - apply headings_none. intros ([|c' a] & b & Heq).
    + by apply (headingAt_None _ Hc b).
    + injection Heq as _ Heq. apply Hs. by exists a, b.
  - rewrite app_comm_cons. apply headings_item; try done.
    intros ([|c' a] & b & Heq).
    + apply (headingAt_None _ Hc (b ++ lit "#" ++ ws ++ item ++ rest)).
      rewrite app_comm_cons.
      change (lit "##" ++ ws ++ item ++ rest)
        with (lit "#" ++ lit "#" ++ ws ++ item ++ rest).
      rewrite (app_assoc (c :: before)), Heq. cbn [app] in *.
      by rewrite <- !app_assoc.
    + injection Heq as _ Heq. apply Hb. by exists a, b.
Qed.

Lemma headingTexts_scan (n : nat) :
  forall (s : text) (pos : nat),
    length s <= n ->
    headingTexts s (map headingTopic (map snd (matchAllAt headingAt 0 pos s))).
Proof.
  assert (Hnil : headingTexts [] []).
  { apply headings_none. intros (a & b & H). apply (f_equal length) in H.
    rewrite !length_app in H. simpl in H. lia. }
  induction n as [|n IH]; intros [|c s] pos Hlen; simpl in Hlen; try lia; try done.
  cbn [matchAllAt]. destruct (headingAt (c :: s)) as [x|] eqn:E.
  - destruct (headingAt_Some _ _ E) as (r & Hs & ->).
    set (ws := takeWhile isSpace r).
    set (r' := dropWhile isSpace r).
    set (item := takeWhile notLineTerminator r').
    set (rest := dropWhile notLineTerminator r').
    assert (Hr : r = (ws ++ item) ++ rest).
    { rewrite <- app_assoc. unfold item, rest. rewrite takeWhile_dropWhile.
      unfold ws, r'. by rewrite takeWhile_dropWhile. }
    assert (Hhead : forall c0 item', item = c0 :: item' -> isSpace c0 = false).
    { intros c0 item' Hi. apply takeWhile_head in Hi as [t Ht].
      by apply dropWhile_head in Ht. }
    change (spacesThenLine r) with (ws ++ item).
    assert (Hc : c = ch "#" /\ s = (lit "#" ++ ws ++ item) ++ rest).
    { rewrite Hr in Hs.
      change (lit "##" ++ (ws ++ item) ++ rest)
        with (ch "#" :: lit "#" ++ (ws ++ item) ++ rest) in Hs.
      injection Hs as -> ->. by rewrite <- !app_assoc. }
    destruct Hc as [-> Htail].
    replace (length (lit "##" ++ ws ++ item) - 1)
      with (length (lit "#" ++ ws ++ item)) by (simpl; lia).
    rewrite Htail at 2. rewrite matchAllAt_skip. cbn [map snd].
    unfold headingTopic at 1. rewrite removeFirst_prefix.
    rewrite trim_leading by apply Forall_takeWhile.
    rewrite Hs, Hr, <- app_assoc.
    apply (headings_item [] ws item rest); try done.
    + intros H. apply includes_iff in H. vm_compute in H. discriminate.
    + apply Forall_takeWhile.
    + unfold item. eapply Forall_impl; [apply Forall_takeWhile|].
      intros x Hx. unfold notLineTerminator in Hx. by destruct (isLineTerminator x).
    + intros c0 rest' Hrest. pose proof (dropWhile_head _ _ _ _ Hrest) as Hc0.
      unfold notLineTerminator in Hc0. apply negb_false_iff in Hc0.
      split; [done|]. intros Hitem.
      assert (Hrr : r' = c0 :: rest').
      { rewrite <- Hrest. unfold rest. symmetry. by apply takeWhile_nil. }
      apply dropWhile_head in Hrr. apply lineTerminator_isSpace in Hc0. congruence.
    + apply IH. rewrite Htail, !length_app in Hlen. lia.
  - apply headingTexts_cons; [done|]. apply IH. lia.
Qed.

Lemma headingTexts_functional (s : text) (l1 l2 : list text) :
  headingTexts s l1 -> headingTexts s l2 -> l1 = l2.
Proof.
  intros H1. revert l2.
  induction H1 as [s Hs | before ws item rest items Hb Hws Hi Hh Hr H IH];
    intros l2 H2.
  - destruct H2 as [s _ | before ws item rest items _ _ _ _ _ _]; [done|].
    destruct Hs. by eexists _, _.
  - remember (before ++ lit "##" ++ ws ++ item ++ rest) as s eqn:Es.
    destruct H2 as [s Hs | before' ws' item' rest' items' Hb' Hws' Hi' Hh' Hr' H'].
    + destruct Hs. subst s. by eexists _, _.
    + destruct (first_occurrence_unique (lit "##") before' before
                  (ws' ++ item' ++ rest') (ws ++ item ++ rest))
        as [-> Et]; try done.
      destruct (span_unique isSpace ws' ws (item' ++ rest') (item ++ rest))
        as [-> Et']; try done.
      { intros c r Hc. destruct item' as [|c' item'].
        - simpl in Hc. destruct (Hr' c r Hc) as [_ []]. done.
        - injection Hc as <- _. by eapply Hh'. }
      { intros c r Hc. destruct item as [|c' item].
        - simpl in Hc. destruct (Hr c r Hc) as [_ []]. done.
        - injection Hc as <- _. by eapply Hh. }
      destruct (span_unique notLineTerminator item' item rest' rest)
        as [-> ->]; try done.
      { eapply Forall_impl; [exact Hi'|]. intros c Hc.
        unfold notLineTerminator. by rewrite Hc. }
      { eapply Forall_impl; [exact Hi|]. intros c Hc.
        unfold notLineTerminator. by rewrite Hc. }
      { intros c r Hc. destruct (Hr' c r Hc) as [Hlt _].
        unfold notLineTerminator. by rewrite Hlt. }
      { intros c r Hc. destruct (Hr c r Hc) as [Hlt _].
        unfold notLineTerminator. by rewrite Hlt. }
      f_equal. by apply IH.
Qed.

(** *** Bold spans *)

Lemma lazyUntil_Some (close s body : text) :
  close <> [] ->
  lazyUntil close s = Some body ->
  exists rest,
    s = body ++ close ++ rest
    /\ Forall (fun c => isLineTerminator c = false) body
    /\ includes (body ++ removelast close) close = false.
Proof.
  intros Hclose. revert body. induction s as [|c s IH]; intros body; simpl.
  - destruct (startsWith close []) eqn:E; [|done].
    apply startsWith_iff in E as [b Hb]. by destruct close.
  - destruct (startsWith close (c :: s)) eqn:E.
    + intros [= <-]. apply startsWith_iff in E as [rest Hrest].
      exists rest. split; [done|]. split; [constructor|].
      apply not_true_is_false. intros H. apply includes_iff in H as (a & b & H).
      apply (f_equal length) in H. rewrite !length_app in H.
      assert (Hl : length close = S (length (removelast close))).
      { rewrite (app_removelast_last (ch "a") Hclose) at 1.
        rewrite length_app. simpl. lia. }
      simpl in H. lia.
    + destruct (isLineTerminator c) eqn:Hc; [done|].
      destruct (lazyUntil close s) as [b|] eqn:El; [|done].
      intros [= <-]. destruct (IH b eq_refl) as (rest & -> & Hall & Hfirst).
      exists rest. split; [done|]. split; [by constructor|].
      cbn [app includes]. rewrite Hfirst, orb_false_r.
      apply not_true_is_false. intros H. apply startsWith_iff in H as [r Hr].
      assert (Hst : startsWith close (c :: b ++ close ++ rest) = true); [|congruence].
      apply startsWith_iff.
      assert (Hsplit : close = removelast close ++ [List.last close (ch "a")])
        by (by apply app_removelast_last).
      exists (r ++ [List.last close (ch "a")] ++ rest).
      transitivity ((c :: b ++ removelast close) ++ [List.last close (ch "a")] ++ rest).
      * rewrite Hsplit at 1. simpl. by rewrite <- !app_assoc.
      * rewrite Hr. by rewrite <- !app_assoc.
Qed.

Lemma lazyUntil_None (close s : text) :
  lazyUntil close s = None ->
  forall body rest,
    s = body ++ close ++ rest -> ~ Forall (fun c => isLineTerminator c = false) body.
Proof.
  induction s as [|c s IH]; simpl.
  - destruct (startsWith close []) eqn:E; [done|]. intros _ body rest Hs _.
    destruct body; [|done]. simpl in Hs.
    assert (startsWith close [] = true); [|congruence].
    apply startsWith_iff. exists rest. done.
  - destruct (startsWith close (c :: s)) eqn:E; [done|].
    intros H body rest Hs Hall. destruct body as [|c' body].
    + assert (startsWith close (c :: s) = true); [|congruence].
      apply startsWith_iff. by exists rest.
    + injection Hs as <- Hs. apply Forall_cons in Hall as [Hc Hall].
      rewrite Hc in H. destruct (lazyUntil close s) eqn:El; [done|].
      by apply (IH eq_refl body rest).
Qed.

Lemma boldAt_Some (s x : text) :
  boldAt s = Some x ->
  exists body rest,
    s = lit "**" ++ body ++ lit "**" ++ rest
    /\ x = lit "**" ++ body ++ lit "**"
    /\ Forall (fun c => isLineTerminator c = false) body
    /\ ~ contains (body ++ lit "*") (lit "**").
Proof.
  unfold boldAt. destruct (startsWith (lit "**") s) eqn:E; [|done].
  apply startsWith_iff in E as [r ->]. rewrite drop_app_length' by done.
  destruct (lazyUntil (lit "**") r) as [body|] eqn:El; [|done].
  intros Hx. assert (x = lit "**" ++ body ++ lit "**") as -> by congruence.
  destruct (lazyUntil_Some (lit "**") _ _ ltac:(done) El) as (rest & -> & Hall & Hfirst).
  exists body, rest. split; [done|]. split; [done|]. split; [done|].
  intros H. apply includes_iff in H. change (removelast (lit "**")) with (lit "*") in Hfirst.
  congruence.
Qed.

Lemma boldAt_None (s : text) : boldAt s = None -> ~ opensSpan s.
Proof.
  unfold boldAt. intros H (body & rest & -> & Hall).
  replace (startsWith (lit "**") (lit "**" ++ body ++ lit "**" ++ rest)) with true in H
    by (symmetry; apply startsWith_iff; eauto).
  rewrite drop_app_length' in H by done.
  destruct (lazyUntil (lit "**") (body ++ lit "**" ++ rest)) eqn:El; [done|].
  by apply (lazyUntil_None _ _ El body rest).
Qed.

Lemma boldSpans_cons (c : codeUnit) (s : text) (items : list text) :
  boldAt (c :: s) = None -> boldSpans s items -> boldSpans (c :: s) items.
Proof.
  intros Hc H. destruct H as [s Hs | before body rest items Hb Hall Hfirst H].
  - apply bold_none. intros [|c' a] b Heq.
    + simpl in Heq. subst b. by apply boldAt_None.
    + injection Heq as _ Heq. by apply (Hs a b).
  - rewrite app_comm_cons. apply bold_item; try done.
    intros [|c' a] c0 b Heq.
    + injection Heq as <- <-. by apply boldAt_None.
    + injection Heq as _ Heq. by apply (Hb a c0 b).
Qed.

Lemma split_cons (sep a b : text) :
  sep <> [] ->
  ~ contains (a ++ removelast sep) sep ->
  split sep (a ++ sep ++ b) = a :: split sep b.
Proof.
  intros Hsep Ha. unfold split at 1. cbn [splitFuel].
  rewrite breakOn_first; [|done|].
  - f_equal. apply splitFuel_enough; [done|].
    rewrite !length_app. destruct sep; [done|]. simpl. lia.
  - apply not_true_is_false. by rewrite includes_iff.
Qed.

Lemma boldTopic_span (body : text) :
  ~ contains (body ++ lit "*") (lit "**") ->
  boldTopic (lit "**" ++ body ++ lit "**") = trim body.
Proof.
  intros H. unfold boldTopic, removeAll. f_equal.
  change (lit "**" ++ body ++ lit "**") with ([] ++ lit "**" ++ body ++ lit "**").
  rewrite (split_cons (lit "**") [] (body ++ lit "**")); [|done|].
  - replace (body ++ lit "**") with (body ++ lit "**" ++ []) by done.
    rewrite split_cons by done.
    change (split (lit "**") []) with [@nil codeUnit]. simpl. by rewrite app_nil_r.
  - intros Hc. apply includes_iff in Hc. vm_compute in Hc. discriminate.
Qed.

Lemma boldSpans_scan (n : nat) :
  forall (s : text) (pos : nat),
    length s <= n ->
    boldSpans s (map boldTopic (map snd (matchAllAt boldAt 0 pos s))).
Proof.
  assert (Hnil : boldSpans [] []).
  { apply bold_none. intros a b H (body & rest & -> & _).
    apply (f_equal length) in H. rewrite !length_app in H. simpl in H. lia. }
  induction n as [|n IH]; intros [|c s] pos Hlen; simpl in Hlen; try lia; try done.
  cbn [matchAllAt]. destruct (boldAt (c :: s)) as [x|] eqn:E.
  - destruct (boldAt_Some _ _ E) as (body & rest & Hs & -> & Hall & Hfirst).
    assert (Hc : c = ch "*" /\ s = (lit "*" ++ body ++ lit "**") ++ rest).
    { change (lit "**" ++ body ++ lit "**" ++ rest)
        with (ch "*" :: lit "*" ++ body ++ lit "**" ++ rest) in Hs.
      injection Hs as -> ->. by rewrite <- !app_assoc. }
    destruct Hc as [-> Htail].
    replace (length (lit "**" ++ body ++ lit "**") - 1)
      with (length (lit "*" ++ body ++ lit "**")) by (simpl; lia).
    rewrite Htail at 2. rewrite matchAllAt_skip. cbn [map snd].
    rewrite boldTopic_span by done. rewrite Hs.
    apply (bold_item [] body rest); try done.
    + intros a c0 b H. by destruct a.
    + apply IH. rewrite Htail, !length_app in Hlen. lia.
  - apply boldSpans_cons; [done|]. apply IH. lia.
Qed.

Lemma boldSpans_functional (s : text) (l1 l2 : list text) :
  boldSpans s l1 -> boldSpans s l2 -> l1 = l2.
Proof.
  intros H1. revert l2.
  induction H1 as [s Hs | before body rest items Hb Hall Hfirst H IH]; intros l2 H2.
  - destruct H2 as [s _ | before body rest items _ Hall _ _]; [done|].
    destruct (Hs before (lit "**" ++ body ++ lit "**" ++ rest) eq_refl).
    by exists body, rest.
  - remember (before ++ lit "**" ++ body ++ lit "**" ++ rest) as s eqn:Es.
    destruct H2 as [s Hs | before' body' rest' items' Hb' Hall' Hfirst' H'].
    + destruct (Hs before (lit "**" ++ body ++ lit "**" ++ rest) Es).
      by exists body, rest.
    + assert (Hbefore : before' = before).
      { apply app_eq_inv in Es as [(k & Hk1 & Hk2) | (k & Hk1 & Hk2)].
        - destruct k as [|c k]; [by rewrite app_nil_r in Hk1|].
          destruct (Hb' before c k Hk1). rewrite app_comm_cons, <- Hk2.
          by exists body, rest.
        - destruct k as [|c k]; [by rewrite app_nil_r in Hk1|].
          destruct (Hb before' c k Hk1). rewrite app_comm_cons, <- Hk2.
          by exists body', rest'. }
      subst before'. apply app_inv_head in Es.
      apply (app_inv_head (lit "**")) in Es.
      destruct (first_occurrence_unique (lit "**") body' body rest' rest)
        as [-> ->]; try done.
      f_equal. by apply IH.
Qed.

(** ** Topics *)

(** C8, as the code has it: the topics are the heading texts in document
    order followed by the bold spans in document order, each trimmed, and
    each kept at its first occurrence in that sequence only.  A heading
    text is what follows a [##] met by the scan, wherever it stands, and
    the white space behind it, up to the end of that line; a bold span is
    the text of one line between a [**] and the first [**] behind it. *)
Theorem topics_headings_then_bold (title content : text) :
  exists headings spans,
    headingTexts content headings
    /\ boldSpans content spans
    /\ (forall l, headingTexts content l -> l = headings)
    /\ (forall l, boldSpans content l -> l = spans)
    /\ topics (analyzeContent title content) = dedupFirst (headings ++ spans)
    /\ NoDup (topics (analyzeContent title content))
    /\ forall x, x ∈ topics (analyzeContent title content)
                 <-> x ∈ headings \/ x ∈ spans.
Proof.
  exists (map headingTopic (matchAll headingAt content)),
         (map boldTopic (matchAll boldAt content)).
  pose proof (headingTexts_scan (length content) content 0 ltac:(done)) as Hh.
  pose proof (boldSpans_scan (length content) content 0 ltac:(done)) as Hb.
  split; [exact Hh|]. split; [exact Hb|].
  split; [intros l Hl; by apply (headingTexts_functional content)|].
  split; [intros l Hl; by apply (boldSpans_functional content)|].
  unfold analyzeContent. cbn [topics]. unfold extractTopics.
  rewrite <- foldl_app, foldl_setAdd_nil. split; [done|]. split.
  - apply NoDup_dedupFirst.
  - intros x. by rewrite elem_of_dedupFirst, elem_of_app.
Qed.

(** C8, as stated, fails when a bold span precedes a heading: the heading
    is listed first. *)
Lemma topics_not_in_document_order :
  let content := lit ("**Note**: read this first." ++ nl ++ "## Setup") in
  topics (analyzeContent (lit "t") content) = [lit "Setup"; lit "Note"]
  /\ dedupFirst (topicsInDocumentOrder content) = [lit "Note"; lit "Setup"]
  /\ topics (analyzeContent (lit "t") content)
     <> dedupFirst (topicsInDocumentOrder content).
Proof.
  cbv zeta. split; [vm_compute; reflexivity|]. split; [vm_compute; reflexivity|].
  vm_compute. discriminate.
Qed.

(** ** The author profiler: expertise *)

Lemma mapGet_counts (f : text -> nat) (D : list text) (x : text) :
  mapGet (map (fun t => (t, f t)) D) x = if decide (x ∈ D) then Some (f x) else None.
Proof.
  induction D as [|d D IH]; simpl; [done|].
  destruct (decide (d = x)) as [->|Hd].
  - rewrite decide_True; [done | by left].
  - rewrite IH. destruct (decide (x ∈ D)) as [Hin|Hin].
    + rewrite decide_True; [done | by right].
    + rewrite decide_False; [done|]. rewrite elem_of_cons. intros [->|?]; done.
Qed.

Lemma mapSet_known (f : text -> nat) (D : list text) (x : text) (v : nat) :
  NoDup D -> x ∈ D ->
  mapSet (map (fun t => (t, f t)) D) x v
  = map (fun t => (t, if decide (t = x) then v else f t)) D.
Proof.
  induction 1 as [|d D Hd Hnd IH]; intros Hin; [by apply elem_of_nil in Hin|].
  simpl. destruct (decide (d = x)) as [->|Hdx].
  - f_equal. apply map_ext_in. intros t Ht. apply list_elem_of_In in Ht.
    rewrite decide_False; [done|]. by intros ->.
  - f_equal. apply IH.
    apply elem_of_cons in Hin as [->|Hin]; done.
Qed.

Lemma mapSet_new (f : text -> nat) (D : list text) (x : text) (v : nat) :
  x ∉ D ->
  mapSet (map (fun t => (t, f t)) D) x v = map (fun t => (t, f t)) D ++ [(x, v)].
Proof.
  induction D as [|d D IH]; intros Hin; simpl; [done|].
  apply not_elem_of_cons in Hin as [Hne Hin].
  rewrite decide_False by done. by rewrite IH.
Qed.

Lemma occ_snoc (l : list text) (x t : text) :
  occ (l ++ [x]) t = occ l t + (if decide (x = t) then 1 else 0).
Proof.
  unfold occ. rewrite filter_app, length_app. f_equal.
  case_decide; [by rewrite filter_cons_True | by rewrite filter_cons_False].
Qed.

Lemma occ_pos (l : list text) (t : text) : t ∈ l <-> 0 < occ l t.
Proof.
  unfold occ. split.
  - intros Hin. assert (Hf : t ∈ filter (fun x => x = t) l)
      by (by apply list_elem_of_filter).
    destruct (filter (fun x => x = t) l); [by apply elem_of_nil in Hf | simpl; lia].
  - intros Hpos. destruct (filter (fun x => x = t) l) as [|y r] eqn:E; [simpl in *; lia|].
    assert (Hy : y ∈ filter (fun x => x = t) l) by (rewrite E; by left).
    apply list_elem_of_filter in Hy as [-> ?]. done.
Qed.

Lemma dedupFirst_snoc (l : list text) (x : text) :
  dedupFirst (l ++ [x]) = setAdd (dedupFirst l) x.
Proof. by rewrite <- !foldl_setAdd_nil, foldl_snoc. Qed.

Lemma foldl_countTag (l : list text) :
  foldl countTag [] l = map (fun t => (t, occ l t)) (dedupFirst l).
Proof.
  induction l as [|x l IH] using rev_ind; [done|].
  rewrite foldl_snoc, IH, dedupFirst_snoc. unfold countTag, setAdd.
  rewrite mapGet_counts. case_decide as Hx.
  - simpl. rewrite mapSet_known; [|apply NoDup_dedupFirst|done].
    apply map_ext. intros t. rewrite occ_snoc.
    case_decide; subst; [by rewrite decide_True | by rewrite decide_False, Nat.add_0_r].
  - simpl. rewrite mapSet_new by done. rewrite map_app. simpl. f_equal.
    + apply map_ext_in. intros t Ht. apply list_elem_of_In in Ht.
      rewrite occ_snoc, decide_False, Nat.add_0_r; [done|]. by intros ->.
    + rewrite occ_snoc, decide_True by done. do 2 f_equal.
      rewrite elem_of_dedupFirst, occ_pos in Hx. lia.
Qed.

Lemma tagCountsOf_char (articles : list Article) :
  tagCountsOf articles
  = map (fun t => (t, occurrences articles t)) (dedupFirst (flat_map tags articles)).
Proof. unfold tagCountsOf. rewrite foldl_flat_map. apply foldl_countTag. Qed.

(** X23: the tag counts hold every tag of the articles once, in the order
    of first occurrence, each with the number of times it is given. *)
Theorem tag_counts_are_occurrences (articles : list Article) :
  tagCountsOf articles
  = map (fun t => (t, occurrences articles t)) (dedupFirst (flat_map tags articles))
  /\ NoDup (map fst (tagCountsOf articles))
  /\ forall t, mapGet (tagCountsOf articles) t
               = if decide (t ∈ flat_map tags articles)
                 then Some (occurrences articles t) else None.
Proof.
  rewrite tagCountsOf_char. split; [done|]. split.
  - rewrite map_map. simpl. rewrite map_id. apply NoDup_dedupFirst.
  - intros t. rewrite mapGet_counts.
    destruct (decide (t ∈ dedupFirst (flat_map tags articles))) as [Hin|Hin];
      rewrite elem_of_dedupFirst in Hin; [by rewrite decide_True | by rewrite decide_False].
Qed.

Lemma insertEntry_Permutation (x : text * nat) (l : list (text * nat)) :
  insertEntry x l ≡ₚ x :: l.
Proof.
  induction l as [|y l IH]; simpl; [done|].
  destruct (snd y <=? snd x); [done|]. rewrite IH. apply Permutation_swap.
Qed.

Lemma sortEntries_Permutation (l : list (text * nat)) : sortEntries l ≡ₚ l.
Proof.
  induction l as [|x l IH]; simpl; [done|].
  by rewrite insertEntry_Permutation, IH.
Qed.

Lemma insertEntry_sorted (x : text * nat) (l : list (text * nat)) :
  StronglySorted byCount l -> StronglySorted byCount (insertEntry x l).
Proof.
  induction 1 as [|y l Hl IH Hy]; simpl; [repeat constructor|].
  destruct (Nat.leb_spec (snd y) (snd x)) as [Hle|Hgt].
  - constructor; [by constructor|]. constructor; [done|].
    eapply Forall_impl; [exact Hy|]. unfold byCount. intros z Hz. lia.
  - constructor; [done|]. rewrite insertEntry_Permutation.
    constructor; [unfold byCount; lia | done].
Qed.

Lemma sortEntries_sorted (l : list (text * nat)) : StronglySorted byCount (sortEntries l).
Proof.
  induction l as [|x l IH]; simpl; [constructor | by apply insertEntry_sorted].
Qed.

(** X24: the expertise lists at most five tags, all different and all
    given by some article; a tag that stands before another is given at
    least as often; a tag that is not listed is given no more often than
    any listed one; the list is shorter than five only when the articles
    have fewer than five different tags. *)
Theorem expertise_is_top_five (articles : list Article) :
  let result := determineExpertise articles in
  let n := occurrences articles in
  length result = min 5 (length (dedupFirst (flat_map tags articles)))
  /\ NoDup result
  /\ (forall t, t ∈ result -> 0 < n t)
  /\ (forall t u, before result t u -> n u <= n t)
  /\ (forall t u, t ∈ result -> u ∉ result -> n u <= n t).
Proof.
  cbv zeta. unfold determineExpertise.
  set (E := tagCountsOf articles).
  set (S := sortEntries E).
  set (D := dedupFirst (flat_map tags articles)).
  assert (HE : E = map (fun t => (t, occurrences articles t)) D)
    by apply tagCountsOf_char.
  assert (Hperm : S ≡ₚ E) by apply sortEntries_Permutation.
  assert (Hsorted : StronglySorted byCount S) by apply sortEntries_sorted.
  assert (Hsnd : forall e, e ∈ S -> snd e = occurrences articles (fst e)
                                    /\ fst e ∈ flat_map tags articles).
  { intros e He. rewrite Hperm, HE in He.
    apply list_elem_of_In, in_map_iff in He as (t & <- & Ht).
    split; [done|]. simpl. apply list_elem_of_In in Ht. unfold D in Ht.
    by apply (proj1 (elem_of_dedupFirst _ _)) in Ht. }
  assert (Hkeys : NoDup (map fst S)).
  { change (map fst S) with (S.*1). rewrite Hperm, HE.
    change (NoDup (map fst (map (fun t => (t, occurrences articles t)) D))).
    rewrite map_map. simpl. rewrite map_id. apply NoDup_dedupFirst. }
  assert (Hsplit : S = take 5 S ++ drop 5 S) by (by rewrite take_drop).
  change (map fst (take 5 S)) with ((take 5 S).*1).
  split; [|split; [|split; [|split]]].
  - rewrite length_fmap, length_take.
    rewrite (Permutation_length Hperm), HE, length_map. done.
  - rewrite fmap_take. eapply sublist_NoDup; [exact Hkeys | apply sublist_take].
  - intros t Ht. apply list_elem_of_fmap in Ht as (e & -> & He).
    apply subseteq_take in He. destruct (Hsnd e He) as [_ Hin].
    by apply occ_pos.
  - intros t u (a & b & c & Hdec).
    apply fmap_app_inv in Hdec as (a' & r & _ & Hr & Htake). symmetry in Hr.
    apply fmap_cons_inv in Hr as (et & r' & -> & Hr' & ->). symmetry in Hr'.
    apply fmap_app_inv in Hr' as (b' & r'' & _ & Hr'' & ->). symmetry in Hr''.
    apply fmap_cons_inv in Hr'' as (eu & c' & -> & _ & ->).
    rewrite Hsplit, Htake in Hsorted.
    apply StronglySorted_app_1_l in Hsorted.
    apply StronglySorted_app_1_r in Hsorted.
    apply StronglySorted_cons in Hsorted as [Hall _].
    assert (Hb : byCount et eu).
    { apply (proj1 (Forall_forall _ _) Hall). apply elem_of_app. right. by left. }
    assert (Het : et ∈ S).
    { rewrite Hsplit, Htake. rewrite !elem_of_app, !elem_of_cons. tauto. }
    assert (Heu : eu ∈ S).
    { rewrite Hsplit, Htake. rewrite !elem_of_app, !elem_of_cons, !elem_of_app,
        !elem_of_cons. tauto. }
    unfold byCount in Hb.
    rewrite (proj1 (Hsnd et Het)), (proj1 (Hsnd eu Heu)) in Hb. done.
  - intros t u Ht Hu.
    destruct (decide (u ∈ flat_map tags articles)) as [Hin|Hin].
    2: { assert (occurrences articles u = 0) as ->; [|lia].
         unfold occurrences.
         pose proof (proj2 (occ_pos (flat_map tags articles) u)) as Hp.
         destruct (occ (flat_map tags articles) u); [done|].
         exfalso. apply Hin, Hp. lia. }
    apply list_elem_of_fmap in Ht as (e & -> & He).
    assert (Hue : (u, occurrences articles u) ∈ S).
    { rewrite Hperm, HE. apply list_elem_of_In, in_map_iff. exists u.
      split; [done|]. apply list_elem_of_In. unfold D.
      by apply (proj2 (elem_of_dedupFirst _ _)). }
    rewrite Hsplit in Hue. apply elem_of_app in Hue as [Hue | Hue].
    + destruct Hu. apply list_elem_of_fmap. by exists (u, occurrences articles u).
    + rewrite Hsplit in Hsorted.
      pose proof (StronglySorted_app_1_elem_of _ _ _ _ _ Hsorted He Hue) as Hb.
      unfold byCount in Hb. simpl in Hb.
      rewrite (proj1 (Hsnd e (subseteq_take _ _ _ He))) in Hb. done.
Qed.

Lemma before_precedes {A : Type} (l : list A) (x y : A) :
  before l x y <-> precedes x y l.
Proof.
  split.
  - intros (a & b & c & ->). induction a as [|z a IH]; simpl.
    + constructor. apply elem_of_app. right. by left.
    + by constructor.
  - induction 1 as [l Hy | z l _ (a & b & c & ->)].
    + apply list_elem_of_split in Hy as (b & c & ->). by exists [], b, c.
    + by exists (z :: a), b, c.
Qed.

Lemma precedes_insertEntry (z x y : text * nat) (l : list (text * nat)) :
  precedes x y (insertEntry z l) ->
  (x = z /\ y ∈ l) \/ (y = z /\ x ∈ l /\ snd z < snd x) \/ precedes x y l.
Proof.
  induction l as [|w l IH]; simpl.
  - inversion 1 as [l' Hy | z' l' H']; subst.
    + by apply elem_of_nil in Hy.
    + inversion H'.
  - destruct (Nat.leb_spec (snd w) (snd z)) as [Hle|Hgt].
    + inversion 1 as [l' Hy | z' l' H']; subst; [by left | by right; right].
    + inversion 1 as [l' Hy | z' l' H']; subst.
      * rewrite insertEntry_Permutation in Hy.
        apply elem_of_cons in Hy as [-> | Hy].
        -- right. left. split; [done|]. split; [by left | done].
        -- right. right. by constructor.
      * destruct (IH H') as [[-> Hy] | [(-> & Hx & Hlt) | Hp]].
        -- left. split; [done | by right].
        -- right. left. split; [done|]. split; [by right | done].
        -- right. right. by constructor.
Qed.

(** The sort is stable: entries with the same count keep their order. *)
Lemma sortEntries_stable (l : list (text * nat)) (x y : text * nat) :
  precedes x y (sortEntries l) -> snd x = snd y -> precedes x y l.
Proof.
  induction l as [|z l IH]; simpl; intros Hp Heq.
  - inversion Hp.
  - destruct (precedes_insertEntry _ _ _ _ Hp) as [[-> Hy] | [(-> & _ & Hlt) | Hp']].
    + constructor. by rewrite sortEntries_Permutation in Hy.
    + lia.
    + constructor. by apply IH.
Qed.

(** X25: among tags that are given equally often, the one met first in
    the articles stands first in the expertise. *)
Theorem expertise_ties_keep_first_met (articles : list Article) (t u : text) :
  before (determineExpertise articles) t u ->
  occurrences articles t = occurrences articles u ->
  before (dedupFirst (flat_map tags articles)) t u.
Proof.
  unfold determineExpertise. rewrite tagCountsOf_char.
  set (D := dedupFirst (flat_map tags articles)).
  set (E := map (fun t => (t, occurrences articles t)) D).
  intros (a & b & c & Hdec) Heq.
  change (map fst (take 5 (sortEntries E))) with ((take 5 (sortEntries E)).*1) in Hdec.
  apply fmap_app_inv in Hdec as (a' & r & _ & Hr & Htake). symmetry in Hr.
  apply fmap_cons_inv in Hr as (et & r' & -> & Hr' & ->). symmetry in Hr'.
  apply fmap_app_inv in Hr' as (b' & r'' & _ & Hr'' & ->). symmetry in Hr''.
  apply fmap_cons_inv in Hr'' as (eu & c' & -> & _ & ->).
  assert (Hb : before (sortEntries E) et eu).
  { exists a', b', (c' ++ drop 5 (sortEntries E)).
    rewrite <- (take_drop 5 (sortEntries E)) at 1. rewrite Htake.
    by rewrite <- app_assoc, <- app_comm_cons, <- app_assoc, <- app_comm_cons. }
  assert (Hsnd : forall e, e ∈ sortEntries E -> snd e = occurrences articles (fst e)).
  { intros e He. rewrite sortEntries_Permutation in He. unfold E in He.
    apply list_elem_of_In, in_map_iff in He as (x & <- & _). done. }
  assert (Het : et ∈ sortEntries E).
  { destruct Hb as (x & y & z & ->). rewrite !elem_of_app, !elem_of_cons. tauto. }
  assert (Heu : eu ∈ sortEntries E).
  { destruct Hb as (x & y & z & ->).
    rewrite !elem_of_app, !elem_of_cons, !elem_of_app, !elem_of_cons. tauto. }
  apply before_precedes, sortEntries_stable, before_precedes in Hb;
    [|by rewrite (Hsnd et Het), (Hsnd eu Heu)].
  destruct Hb as (x & y & z & HE). unfold E in HE.
  change (map ?f D) with (f <$> D) in HE.
  apply fmap_app_inv in HE as (x' & s & _ & Hs & HD). symmetry in Hs.
  apply fmap_cons_inv in Hs as (t' & s' & -> & Hs' & ->). symmetry in Hs'.
  apply fmap_app_inv in Hs' as (y' & s'' & _ & Hs'' & ->). symmetry in Hs''.
  apply fmap_cons_inv in Hs'' as (u' & z' & -> & _ & ->).
  simpl. by exists x', y', z'.
Qed.

Lemma expertise_ties_keep_first_met_witness :
  let articles :=
    [ {| tags := [lit "a"; lit "b"]; public_reactions_count := ofInteger 0 |};
      {| tags := [lit "b"; lit "a"]; public_reactions_count := ofInteger 0 |} ] in
  before (determineExpertise articles) (lit "a") (lit "b")
  /\ before (dedupFirst (flat_map tags articles)) (lit "a") (lit "b").
Proof.
  cbv zeta.
  set (articles :=
         [ {| tags := [lit "a"; lit "b"]; public_reactions_count := ofInteger 0 |};
           {| tags := [lit "b"; lit "a"]; public_reactions_count := ofInteger 0 |} ]).
  assert (Hb : before (determineExpertise articles) (lit "a") (lit "b")).
  { exists [], [], []. vm_compute. reflexivity. }
  split; [exact Hb|].
  apply (expertise_ties_keep_first_met articles _ _ Hb). vm_compute. reflexivity.
Defined.
